(** * AI pathfinding project: the grid, its entities and the four searches

    A shallow embedding of [main.js]: [Coordinates], [Area] with its entity
    map, the depth-first searches, Dijkstra's algorithm with its A* variant,
    and the enemy pursuit step of the directional-input handler.

    Conventions of the embedding.
    - Coordinates are integers ([Z]); the program never builds others.  A
      double holds an integer exactly, and [String] writes it as its plain
      decimal numeral, as long as its magnitude is below 2^53
      ([safeInteger]); the embedding follows the code on those.
    - A JS [Map] keyed by [String(xy)] whose iteration order is irrelevant is a
      [gmap string _]; [unvisitedNodes], whose iteration order decides which
      node is extracted, is the list of its keys in insertion order.
    - A thrown [Error] is the [Err] outcome of a state-and-exception monad;
      the state reached before the throw is kept, as in JS.
    - Loops without a syntactic bound ([while], the recursion of the
      depth-first search) take a step budget; the outcome [Stuck] means the
      budget was too small, never a behaviour of the program. *)

From Stdlib Require Import ZArith String Ascii DecimalString DecimalPos DecimalZ Floats Uint63.
From Stdlib Require Reals.
From Stdlib Require Import Rdefinitions Lra.
From stdpp Require Import gmap strings list fin_maps sorting.

Local Open Scope string_scope.
Local Open Scope list_scope.
Local Open Scope Z_scope.

(** ** Utility functions *)

(** Outcome of a call: a value, a thrown [Error] with its message, or
    [Stuck] when the embedding gives no outcome (step budget exhausted, or a
    value it does not represent, such as a [NaN] coordinate). *)
Inductive result (A : Type) : Type :=
  | Ok (a : A)
  | Err (msg : string)
  | Stuck.
Arguments Ok {A} a.
Arguments Err {A} msg.
Arguments Stuck {A}.

(** Computations over a mutable state [St] that may throw. *)
Definition M (St A : Type) : Type := St → result A * St.

Global Instance M_ret {St} : MRet (M St) := λ A a s, (Ok a, s).
Global Instance M_bind {St} : MBind (M St) := λ A B f m s,
  match m s with
  | (Ok a, s') => f a s'
  | (Err msg, s') => (Err msg, s')
  | (Stuck, s') => (Stuck, s')
  end.

Definition getState {St} : M St St := λ s, (Ok s, s).
Definition putState {St} (s : St) : M St unit := λ _, (Ok tt, s).
Definition modifyState {St} (f : St → St) : M St unit := λ s, (Ok tt, f s).

(** [fail msg]: [throw new Error(`Error: ${msg}`)]. *)
Definition fail {St A} (msg : string) : M St A := λ s, (Err ("Error: " +:+ msg), s).

Definition stuck {St A} : M St A := λ s, (Stuck, s).

(** Run a computation on a component of the state. *)
Definition zoom {St T A} (get : St → T) (set : T → St → St) (m : M T A) : M St A := λ s,
  let '(r, t) := m (get s) in (r, set t s).

(** [xs.forEach((x, index) => f x index)] over a snapshot of the array. *)
Fixpoint forEachFrom {St A} (f : A → nat → M St unit) (index : nat) (xs : list A) : M St unit :=
  match xs with
  | [] => mret tt
  | x :: xs' => f x index ;; forEachFrom f (S index) xs'
  end.
Definition forEach {St A} (f : A → nat → M St unit) (xs : list A) : M St unit :=
  forEachFrom f 0%nat xs.

Definition identity {A} (x : A) : A := x.
Definition constant {A B} (x : A) : B → A := λ _, x.

(** *** Keyboard input *)

Definition upKeyCode : Z := 87.
Definition downKeyCode : Z := 83.
Definition leftKeyCode : Z := 65.
Definition rightKeyCode : Z := 68.

Definition keyCodes : gmap Z string :=
  <[rightKeyCode := "right"]>
    (<[leftKeyCode := "left"]> (<[downKeyCode := "down"]> (<[upKeyCode := "up"]> ∅))).

(** The [keydown] listener that [listenToDirectionalInput] installs,
    applied to the [keyCode] of an event. *)
Definition listenToDirectionalInput {St} (processDirection : string → M St unit)
    (keyCode : Z) : M St unit :=
  match keyCodes !! keyCode with
  | Some direction => processDirection direction
  | None => mret tt
  end.

Definition letterPKeyCode : Z := 80.

Definition listenToPathfindingRequest {St} (process : M St unit) (keyCode : Z) : M St unit :=
  if keyCode =? letterPKeyCode then process else mret tt.

(** Keys handed to a JS [Map]: strings are compared by content, an object
    only equals itself.  Every map of the program is filled through
    [String(xy)] keys only, so a lookup with an object key finds nothing. *)
Inductive MapKey : Type :=
  | StringKey (s : string)
  | ObjectKey {A : Type} (object : A).

Definition mapGet {V} (m : gmap string V) (key : MapKey) : option V :=
  match key with
  | StringKey s => m !! s
  | ObjectKey _ => None
  end.

Definition mapHas {V} (m : gmap string V) (key : MapKey) : bool :=
  bool_decide (is_Some (mapGet m key)).

(** [array[index] = x]: JS extends the array, leaving holes ([None]). *)
Definition arraySet {A} (index : nat) (x : A) (xs : list (option A)) : list (option A) :=
  if decide (index < length xs)%nat then <[index := Some x]> xs
  else xs ++ replicate (index - length xs) None ++ [Some x].

(** [Array.prototype.sort(compare)]: the stable sort (ECMAScript 2019), here
    by insertion; [compare a b < 0] puts [a] before [b]. *)
Fixpoint sortInsert {A} (compare : A → A → Z) (x : A) (sorted : list A) : list A :=
  match sorted with
  | [] => [x]
  | y :: sorted' =>
      if compare y x <? 0 then y :: sortInsert compare x sorted'
      else x :: y :: sorted'
  end.
Definition sortBy {A} (compare : A → A → Z) (xs : list A) : list A :=
  foldr (sortInsert compare) [] xs.

(** *** Numbers and strings *)

(** [String(n)] of an integer number: its decimal numeral.  That is what
    JS writes for the integers a double holds exactly (magnitude below
    2^53); for larger numbers [String] rounds the digits and, from 10^21 on,
    uses exponent notation, which this definition does not follow. *)
Definition numberToString (n : Z) : string :=
  NilZero.string_of_int (Z.to_int n).

Definition isDigit (c : ascii) : bool :=
  match DecimalString.uint_of_char c (Some Decimal.Nil) with
  | Some _ => true
  | None => false
  end.

Fixpoint digitsPrefix (s : string) : string :=
  match s with
  | EmptyString => EmptyString
  | String c s' => if isDigit c then String c (digitsPrefix s') else EmptyString
  end.

Definition parseDigits (s : string) : option Z :=
  match digitsPrefix s with
  | EmptyString => None
  | digits => Z.of_uint <$> NilEmpty.uint_of_string digits
  end.

(** [Number.parseInt(s)]: an optional sign, then the longest prefix of
    decimal digits; [None] is [NaN].  (Leading white space and the [0x]
    prefix, which no key of the program has, are not modelled.) *)
Definition parseInt (s : string) : option Z :=
  match s with
  | String "-" s' => Z.opp <$> parseDigits s'
  | String "+" s' => parseDigits s'
  | _ => parseDigits s
  end.

(** [s.split(sep)] for a one-character separator. *)
Fixpoint split (sep : ascii) (s : string) : list string :=
  match s with
  | EmptyString => [EmptyString]
  | String c s' =>
      if Ascii.eqb c sep then EmptyString :: split sep s'
      else match split sep s' with
           | piece :: pieces => String c piece :: pieces
           | [] => [String c EmptyString]
           end
  end.

(** The numbers of the distance bookkeeping.  [findDijkstraPath] only adds
    and compares; it is written once over this interface.  [float64] is the
    JS number type itself; [natInf] holds the values that arise with the
    default heuristic [constant(0)], where doubles are exact integers. *)
Class Number : Type := {
  num : Type;
  zero : num;
  one : num;
  infinity : num;
  add : num → num → num;
  ltb : num → num → bool;
}.

Definition float64 : Number := {|
  num := float;
  zero := PrimFloat.zero;
  one := PrimFloat.one;
  infinity := PrimFloat.infinity;
  add := PrimFloat.add;
  ltb := PrimFloat.ltb;
|}.

Inductive NatInf : Type :=
  | Finite (n : N)
  | Infinity.

Definition natInf : Number := {|
  num := NatInf;
  zero := Finite 0;
  one := Finite 1;
  infinity := Infinity;
  add := λ a b,
    match a, b with
    | Finite m, Finite n => Finite (m + n)
    | _, _ => Infinity
    end;
  ltb := λ a b,
    match a, b with
    | Finite m, Finite n => (m <? n)%N
    | Finite _, Infinity => true
    | Infinity, _ => false
    end;
|}.

(** An integer as a double (exact below 2^53). *)
Definition numberOfZ (n : Z) : float :=
  if n <? 0 then PrimFloat.opp (PrimFloat.of_uint63 (Uint63.of_Z (- n)))
  else PrimFloat.of_uint63 (Uint63.of_Z n).

(** The same values without rounding: the real numbers with a greatest
    element.  [findAStarPath] adds square roots, which [natInf] does not
    hold; this is the arithmetic its doubles approximate. *)
Inductive RealInf : Type :=
  | Real (r : R)
  | RealInfinity.

Definition realInf : Number := {|
  num := RealInf;
  zero := Real 0%R;
  one := Real 1%R;
  infinity := RealInfinity;
  add := λ a b,
    match a, b with
    | Real r, Real s => Real (r + s)%R
    | _, _ => RealInfinity
    end;
  ltb := λ a b,
    match a, b with
    | Real r, Real s => if RIneq.Rlt_dec r s then true else false
    | Real _, RealInfinity => true
    | RealInfinity, _ => false
    end;
|}.

(** [Math.sqrt(x * x + y * y)] on integers, the one other operation on
    numbers the searches use. *)
Class Euclidean (number : Number) : Type := {
  norm : Z → Z → num;
}.

Definition float64_norm : Euclidean float64 :=
  Build_Euclidean float64 (λ x y,
    let fx := numberOfZ x in
    let fy := numberOfZ y in
    PrimFloat.sqrt (PrimFloat.add (PrimFloat.mul fx fx) (PrimFloat.mul fy fy))).

Definition real_norm : Euclidean realInf :=
  Build_Euclidean realInf (λ x y, Real (R_sqrt.sqrt (IZR (x * x + y * y)))).

(** ** Coordinates *)

Module Coordinates.

Record t : Type := mk { x : Z; y : Z }.

Global Instance eq_dec : EqDecision t.
Proof. solve_decision. Defined.

Definition toString (c : t) : string :=
  numberToString (x c) +:+ "," +:+ numberToString (y c).

Definition equals (c other : t) : bool :=
  (x c =? x other) && (y c =? y other).

Definition getNeighbours (c : t) (getDiagonals : bool) : list t :=
  let x := x c in
  let y := y c in
  let neighbours := [(x, y - 1); (x - 1, y); (x + 1, y); (x, y + 1)] in
  let neighbours :=
    if getDiagonals
    then neighbours ++ [(x - 1, y - 1); (x + 1, y - 1); (x - 1, y + 1); (x + 1, y + 1)]
    else neighbours in
  (λ neighbour : Z * Z, mk neighbour.1 neighbour.2) <$> neighbours.

Definition difference (c other : t) : t :=
  mk (Z.abs (x c - x other)) (Z.abs (y c - y other)).

Definition magnitude {number : Number} {euclidean : Euclidean number} (c : t) : num :=
  norm (x c) (y c).

Definition withinProximity (c : t) (radius : float) (xy : t) : bool :=
  PrimFloat.leb (magnitude (euclidean := float64_norm) (difference c xy)) radius.

Definition move {St} (c : t) (direction : string) : M St t :=
  if String.eqb direction "left" then mret (mk (x c - 1) (y c))
  else if String.eqb direction "right" then mret (mk (x c + 1) (y c))
  else if String.eqb direction "up" then mret (mk (x c) (y c - 1))
  else if String.eqb direction "down" then mret (mk (x c) (y c + 1))
  else fail "invalid direction".

End Coordinates.

(** [String(v)] of a value that is a [Coordinates] or [undefined]. *)
Definition stringOf (v : option Coordinates.t) : string :=
  match v with
  | Some xy => Coordinates.toString xy
  | None => "undefined"
  end.

(** What [createCoordinatesFromString] computes on a cache miss; [None]
    when a component is [NaN]. *)
Definition parseCoordinates (s : string) : option Coordinates.t :=
  match split "," s with
  | xString :: yString :: _ =>
      x ← parseInt xString; y ← parseInt yString; Some (Coordinates.mk x y)
  | _ => None
  end.

(** [createCoordinatesFromString]; the state is the [cache] of its closure. *)
Definition createCoordinatesFromString (s : string) : M (gmap string Coordinates.t) Coordinates.t :=
  λ cache,
    match cache !! s with
    | Some result => (Ok result, cache)
    | None =>
        match parseCoordinates s with
        | Some result => (Ok result, <[s := result]> cache)
        | None => (Stuck, cache)
        end
    end.

(** [xs.map(f)] for an effectful [f]. *)
Fixpoint mapArray {St A B} (f : A → M St B) (xs : list A) : M St (list B) :=
  match xs with
  | [] => mret []
  | x :: xs' => y ← f x; ys ← mapArray f xs'; mret (y :: ys)
  end.

(** ** Area *)

(** The entity kinds, the keys of [createColors]. *)
Inductive EntityType : Type :=
  | Empty
  | Wall
  | Agent
  | Destination
  | Enemy
  | Navigated.

Global Instance EntityType_eq_dec : EqDecision EntityType.
Proof. solve_decision. Defined.

(** [characterTiles]: the tile of a character of a level layout. *)
Definition characterTiles : gmap ascii EntityType :=
  <["X"%char := Destination]>
    (<["!"%char := Enemy]>
       (<["O"%char := Agent]> (<[" "%char := Empty]> (<["#"%char := Wall]> ∅)))).

(** The geometry of [CanvasGrid]: [cellWidth] and [cellHeight] at their
    defaults, and the rectangle [drawTile] hands to [fillRect]. *)
Module CanvasGrid.

Definition cellWidth : Z := 20.
Definition cellHeight : Z := 20.

Definition tileRectangle (xy : Coordinates.t) : Z * Z * Z * Z :=
  (cellWidth * Coordinates.x xy, cellHeight * Coordinates.y xy, cellWidth, cellHeight).

End CanvasGrid.

Module Area.

(** [canvasGrid] is the sequence of [drawTile] calls received so far; a
    tile type may be [undefined] ([None]), and so may a stored entity,
    since [moveEntity] stores whatever [entities.get] returned. *)
Record t : Type := mk {
  width : Z;
  height : Z;
  allowDiagonalsInPaths : bool;
  pathfindingAlgorithm : string;
  canvasGrid : list (Coordinates.t * option EntityType);
  entities : gmap string (option EntityType);
}.

(** [new Area({ width, height })] with the defaults of the constructor. *)
Definition new (width height : Z) : t :=
  mk width height false "Djikstra's Algorithm" [] ∅.

Definition setEntities (f : gmap string (option EntityType) → gmap string (option EntityType))
    (area : t) : t :=
  mk (width area) (height area) (allowDiagonalsInPaths area) (pathfindingAlgorithm area)
     (canvasGrid area) (f (entities area)).

Definition setAllowDiagonalsInPaths (allow : bool) (area : t) : t :=
  mk (width area) (height area) allow (pathfindingAlgorithm area)
     (canvasGrid area) (entities area).

(** [this.canvasGrid.drawTile(xy, tileType)]. *)
Definition drawTile (xy : Coordinates.t) (tileType : option EntityType) : M t unit :=
  modifyState (λ area,
    mk (width area) (height area) (allowDiagonalsInPaths area) (pathfindingAlgorithm area)
       (canvasGrid area ++ [(xy, tileType)]) (entities area)).

(** [this.entities.get(key)]: the entity, or [undefined]. *)
Definition entityAt (area : t) (key : MapKey) : option EntityType :=
  mapGet (entities area) key ≫= id.

Definition addEntity (xy : Coordinates.t) (entityType : EntityType) : M t unit :=
  let key := Coordinates.toString xy in
  area ← getState;
  (if mapHas (entities area) (StringKey key)
   then fail "an added entity cannot overlap an existing one"
   else mret tt) ;;
  (if decide (entityType ≠ Empty)
   then modifyState (setEntities <[key := Some entityType]>)
   else mret tt) ;;
  drawTile xy (Some entityType).

Definition deleteEntity (xy : Coordinates.t) : M t unit :=
  modifyState (setEntities (delete (Coordinates.toString xy))) ;;
  drawTile xy (Some Empty).

Definition areCoordinatesValid (area : t) (xy : Coordinates.t) : bool :=
  (0 <=? Coordinates.x xy) && (Coordinates.x xy <? width area)
  && (0 <=? Coordinates.y xy) && (Coordinates.y xy <? height area).

Definition isValidAgentPosition (area : t) (xy : Coordinates.t) : bool :=
  areCoordinatesValid area xy
  && negb (bool_decide (entityAt area (StringKey (Coordinates.toString xy)) = Some Wall)).

Definition moveEntity (xy : Coordinates.t) (direction : string) : M t Coordinates.t :=
  newCoordinates ← Coordinates.move xy direction;
  area ← getState;
  if isValidAgentPosition area newCoordinates then
    let oldKey := Coordinates.toString xy in
    let key := Coordinates.toString newCoordinates in
    modifyState (setEntities (λ entities,
      <[key := mapGet entities (StringKey oldKey) ≫= id]> entities)) ;;
    modifyState (setEntities (delete oldKey)) ;;
    drawTile xy (Some Empty) ;;
    area' ← getState;
    drawTile newCoordinates (entityAt area' (StringKey key)) ;;
    mret newCoordinates
  else mret xy.

(** [addEntity] with a tile that may be [undefined], as
    [addEntitiesFromStrings] and the [mousedown] listener call it:
    [undefined !== "empty"], so the key is stored with the value
    [undefined]. *)
Definition addEntityOf (xy : Coordinates.t) (entityType : option EntityType) : M t unit :=
  let key := Coordinates.toString xy in
  area ← getState;
  (if mapHas (entities area) (StringKey key)
   then fail "an added entity cannot overlap an existing one"
   else mret tt) ;;
  (if decide (entityType ≠ Some Empty)
   then modifyState (setEntities <[key := entityType]>)
   else mret tt) ;;
  drawTile xy entityType.

(** [string.split("")]: the characters of the string. *)
Definition characters (s : string) : list ascii := list_ascii_of_string s.

Definition addEntitiesFromStrings (strings : list string) : M t unit :=
  forEach (λ string y,
    forEach (λ character x,
      let xy := Coordinates.mk (Z.of_nat x) (Z.of_nat y) in
      let tile := characterTiles !! character in
      addEntityOf xy tile)
    (characters string))
  strings.

(** *** Depth-first search *)

(** The two objects every frame of one search shares by reference. *)
Record Trail : Type := mkTrail {
  visitedNodes : gset string;
  navigated : list Coordinates.t;
}.

(** [for (let neighbour of neighbours) { const path = visit(neighbour);
    if (path.length !== 0) { return path; } } return [];] *)
Definition firstPath (visit : Coordinates.t → M Trail (list Coordinates.t))
    : list Coordinates.t → M Trail (list Coordinates.t) :=
  fix each (neighbours : list Coordinates.t) : M Trail (list Coordinates.t) :=
    match neighbours with
    | [] => mret []
    | neighbour :: neighbours' =>
        path ← visit neighbour;
        if negb (length path =? 0)%nat then mret path
        else each neighbours'
    end.

(** [fuel] bounds the depth of the recursion. *)
Fixpoint findDepthFirstPath (fuel : nat) (area : t) (source destination : Coordinates.t)
    (sortNeighbours : list Coordinates.t → list Coordinates.t)
    : M Trail (list Coordinates.t) :=
  match fuel with
  | O => stuck
  | S fuel' =>
      modifyState (λ trail, mkTrail (visitedNodes trail) (navigated trail ++ [source])) ;;
      if Coordinates.equals source destination then
        (* navigated.shift(); navigated.pop(); return navigated *)
        modifyState (λ trail, mkTrail (visitedNodes trail) (removelast (tail (navigated trail)))) ;;
        trail ← getState;
        mret (navigated trail)
      else
        modifyState (λ trail,
          mkTrail ({[Coordinates.toString source]} ∪ visitedNodes trail) (navigated trail)) ;;
        trail ← getState;
        let neighbours := Coordinates.getNeighbours source (allowDiagonalsInPaths area) in
        let unvisitedNeighbours :=
          sortNeighbours
            (List.filter
               (λ neighbour,
                  isValidAgentPosition area neighbour
                  && negb (bool_decide (Coordinates.toString neighbour ∈ visitedNodes trail)))
               neighbours) in
        if (length unvisitedNeighbours =? 0)%nat then mret []
        else
          firstPath
            (λ neighbour, findDepthFirstPath fuel' area neighbour destination sortNeighbours)
            unvisitedNeighbours
  end.

(** The comparison function of [findDepthFirstPathDirectionally]. *)
Definition compareDeltas {number : Number} {euclidean : Euclidean number}
    (destination a b : Coordinates.t) : Z :=
  let aDelta := Coordinates.magnitude (Coordinates.difference destination a) in
  let bDelta := Coordinates.magnitude (Coordinates.difference destination b) in
  if ltb aDelta bDelta then -1
  else if ltb bDelta aDelta then 1
  else 0.

Definition findDepthFirstPathDirectionally {number : Number} {euclidean : Euclidean number}
    (fuel : nat) (area : t) (source destination : Coordinates.t)
    : M Trail (list Coordinates.t) :=
  findDepthFirstPath fuel area source destination (sortBy (compareDeltas destination)).

(** A call that leaves [visitedNodes] and [navigated] to their defaults,
    [new Set()] and [[]], as every caller does. *)
Definition freshTrail : Trail := mkTrail ∅ [].

(** *** Dijkstra's algorithm *)

Section Dijkstra.
Context {number : Number}.

(** The local maps of one call. *)
Record Search : Type := mkSearch {
  unvisitedNodes : list string;
  distances : gmap string num;
  previousDistances : gmap string Coordinates.t;
}.

(** [a < b] on results of [Map.get]: with an [undefined] operand the
    comparison is false. *)
Definition lessThan (a b : option num) : bool :=
  match a, b with
  | Some a, Some b => ltb a b
  | _, _ => false
  end.

Definition compareDistances (distances : gmap string num) (a b : string) : Z :=
  if lessThan (distances !! a) (distances !! b) then -1
  else if lessThan (distances !! b) (distances !! a) then 1
  else 0.

(** [distance] is [NaN] when [current] has no distance, and then
    compares false. *)
Definition updateDistance (getHeuristic : Coordinates.t → num) (current : Coordinates.t)
    (search : Search) (neighbour : Coordinates.t) : Search :=
  match distances search !! Coordinates.toString current with
  | Some currentDistance =>
      let distance := add (add currentDistance one) (getHeuristic neighbour) in
      let neighbourKey := Coordinates.toString neighbour in
      if lessThan (Some distance) (distances search !! neighbourKey) then
        mkSearch (unvisitedNodes search)
                 (<[neighbourKey := distance]> (distances search))
                 (<[neighbourKey := current]> (previousDistances search))
      else search
  | None => search
  end.

(** [unvisitedNodes.set(key, true)]: a new key goes last. *)
Definition setUnvisited (key : string) (keys : list string) : list string :=
  if bool_decide (key ∈ keys) then keys else keys ++ [key].

(** The cells [(x, y)] in the order of the two nested [for] loops. *)
Definition gridCells (area : t) : list Coordinates.t :=
  y ← seqZ 0 (height area); x ← seqZ 0 (width area); [Coordinates.mk x y].

Definition initialSearch (area : t) (source : Coordinates.t) : Search :=
  let sourceKey := Coordinates.toString source in
  foldl
    (λ search xy,
       if isValidAgentPosition area xy && negb (Coordinates.equals source xy) then
         let key := Coordinates.toString xy in
         mkSearch (setUnvisited key (unvisitedNodes search))
                  (<[key := infinity]> (distances search))
                  (previousDistances search)
       else search)
    (mkSearch [sourceKey] {[sourceKey := zero]} ∅)
    (gridCells area).

(** The inner [while] loop: walk the predecessors, pushing each onto
    [navigated]. *)
Fixpoint tracePath {St} (fuel : nat) (previousDistances : gmap string Coordinates.t)
    (previous : option Coordinates.t) (navigated : list Coordinates.t)
    : M St (list Coordinates.t) :=
  match fuel with
  | O => stuck
  | S fuel' =>
      let previousKey := stringOf previous in
      if mapHas previousDistances (StringKey previousKey) then
        match previous with
        | Some xy =>
            tracePath fuel' previousDistances (previousDistances !! previousKey)
                      (navigated ++ [xy])
        | None => stuck
        end
      else mret navigated
  end.

(** The outer [while] loop; [fuel] bounds its iterations and
    [traceFuel] those of the inner loop. *)
Fixpoint searchLoop (fuel traceFuel : nat) (area : t) (destination : Coordinates.t)
    (getHeuristic : Coordinates.t → num) (search : Search)
    : M (gmap string Coordinates.t) (list Coordinates.t) :=
  match fuel with
  | O => stuck
  | S fuel' =>
      if (length (unvisitedNodes search) =? 0)%nat then mret []
      else
        sorted ← mapArray createCoordinatesFromString
                   (sortBy (compareDistances (distances search)) (unvisitedNodes search));
        match sorted with
        | [] => stuck
        | current :: _ =>
            let currentKey := Coordinates.toString current in
            let search :=
              mkSearch (List.filter (λ key, negb (String.eqb key currentKey))
                                    (unvisitedNodes search))
                       (distances search) (previousDistances search) in
            if Coordinates.equals current destination then
              tracePath traceFuel (previousDistances search)
                        (previousDistances search !! currentKey) []
            else
              searchLoop fuel' traceFuel area destination getHeuristic
                (foldl (updateDistance getHeuristic current) search
                       (Coordinates.getNeighbours current (allowDiagonalsInPaths area)))
        end
  end.

Definition findDijkstraPath (fuel : nat) (area : t) (source destination : Coordinates.t)
    (getHeuristic : Coordinates.t → num)
    : M (gmap string Coordinates.t) (list Coordinates.t) :=
  searchLoop fuel fuel area destination getHeuristic (initialSearch area source).

End Dijkstra.

Definition findAStarPath {number : Number} {euclidean : Euclidean number}
    (fuel : nat) (area : t) (source destination : Coordinates.t)
    : M (gmap string Coordinates.t) (list Coordinates.t) :=
  findDijkstraPath fuel area source destination
    (λ neighbour, Coordinates.magnitude (Coordinates.difference neighbour destination)).

End Area.

(** ** Utility data *)

Definition defaultAreaWidth : Z := 30.
Definition defaultAreaHeight : Z := 20.

Module Level.

Record t : Type := mk {
  layout : list string;
  agent : Coordinates.t;
  destination : Coordinates.t;
  enemies : list Coordinates.t;
}.

End Level.

Definition levels : list Level.t :=
  [Level.mk
      ["##############################";
       "#                 #     #    #";
       "#                 #     #    #";
       "##########        #     #    #";
       "#               # #     #    #";
       "#  ############## #     #    #";
       "#   #           # #     #    #";
       "#   #           # #     #    #";
       "#   #    ##########     #    #";
       "#   #                   #    #";
       "#   #                        #";
       "#   ##########               #";
       "#   #  #    #    #############";
       "#   #  #    #                #";
       "#      #    #     ############";
       "#      #    #                #";
       "#                   #        #";
       "#  ##########       #        #";
       "#           #       #        #";
       "##############################"]
      (Coordinates.mk 11 2)
      (Coordinates.mk 25 17)
      [Coordinates.mk 7 8; Coordinates.mk 27 5; Coordinates.mk 11 18];
   Level.mk
      ["##############################";
       "#                            #";
       "#     ########################";
       "#     #            #         #";
       "#     #            #         #";
       "#     #            #    #    #";
       "#     #            #    #    #";
       "#     #            #    #    #";
       "#     ####         #    #    #";
       "#           #      #    #    #";
       "#           #      #    #    #";
       "#           # ######    #    #";
       "#           #           #    #";
       "#     ####  #           #    #";
       "#     #                 #    #";
       "#     #     ########    #    #";
       "#     #            #    #    #";
       "#     #            #    #    #";
       "#                  #    #    #";
       "##############################"]
      (Coordinates.mk 2 2)
      (Coordinates.mk 27 17)
      [Coordinates.mk 2 14; Coordinates.mk 14 9];
   Level.mk
      ["##############################";
       "#   #                 #      #";
       "#   #                 #      #";
       "#   #                 #      #";
       "#   #  ############   #      #";
       "#   #                 #      #";
       "#   #                        #";
       "#         #                  #";
       "#         #       ############";
       "#         #                  #";
       "#         #                  #";
       "#         #                  #";
       "#         #    ############  #";
       "#         #                  #";
       "#                     #      #";
       "#                     #      #";
       "#   ############      #      #";
       "#                     #      #";
       "#                     #      #";
       "##############################"]
      (Coordinates.mk 2 1)
      (Coordinates.mk 25 17)
      [Coordinates.mk 2 17; Coordinates.mk 25 5; Coordinates.mk 12 10];
   Level.mk
      ["##############################";
       "#                 #          #";
       "#                 #          #";
       "#    #####        #          #";
       "#                 #          #";
       "#  ################          #";
       "#   #                        #";
       "#   #                        #";
       "#   #########    ########    #";
       "#                       #    #";
       "#                            #";
       "#   ####    ##               #";
       "#   #  #    #    #############";
       "#   #  #    #                #";
       "#      #    #     ##         #";
       "#      #    #     #          #";
       "#      #    #######          #";
       "#      ######                #";
       "#                            #";
       "##############################"]
      (Coordinates.mk 11 2)
      (Coordinates.mk 25 17)
      [Coordinates.mk 7 7; Coordinates.mk 27 7; Coordinates.mk 11 18]].

(** ** Main program: the directional-input handler *)

Definition enemyDetectionProximity : float := 6%float.

Module Main.

(** The variables of [main] the handler reads and writes, the status
    line of the page, and the module-level cache of
    [createCoordinatesFromString].  [inPursuit] is the handler's local
    variable.  [enemyPositions] is a JS array; [None] is a hole. *)
Record Game : Type := mkGame {
  area : Area.t;
  agentPosition : Coordinates.t;
  enemyPositions : list (option Coordinates.t);
  destinationPosition : Coordinates.t;
  path : option (list Coordinates.t);
  status : string;
  inPursuit : bool;
  coordinatesCache : gmap string Coordinates.t;
}.

Definition withArea {A} : M Area.t A → M Game A :=
  zoom area (λ area' game,
    mkGame area' (agentPosition game) (enemyPositions game) (destinationPosition game)
           (path game) (status game) (inPursuit game) (coordinatesCache game)).

Definition withCache {A} : M (gmap string Coordinates.t) A → M Game A :=
  zoom coordinatesCache (λ cache game,
    mkGame (area game) (agentPosition game) (enemyPositions game) (destinationPosition game)
           (path game) (status game) (inPursuit game) cache).

Definition setAgentPosition (xy : Coordinates.t) (game : Game) : Game :=
  mkGame (area game) xy (enemyPositions game) (destinationPosition game)
         (path game) (status game) (inPursuit game) (coordinatesCache game).

Definition setEnemyPosition (index : nat) (xy : Coordinates.t) (game : Game) : Game :=
  mkGame (area game) (agentPosition game) (arraySet index xy (enemyPositions game))
         (destinationPosition game) (path game) (status game) (inPursuit game)
         (coordinatesCache game).

Definition setPath (path : option (list Coordinates.t)) (game : Game) : Game :=
  mkGame (area game) (agentPosition game) (enemyPositions game) (destinationPosition game)
         path (status game) (inPursuit game) (coordinatesCache game).

Definition setStatus (status : string) (game : Game) : Game :=
  mkGame (area game) (agentPosition game) (enemyPositions game) (destinationPosition game)
         (path game) status (inPursuit game) (coordinatesCache game).

Definition setInPursuit (inPursuit : bool) (game : Game) : Game :=
  mkGame (area game) (agentPosition game) (enemyPositions game) (destinationPosition game)
         (path game) (status game) inPursuit (coordinatesCache game).

(** [array.forEach]: holes are skipped, indices still count. *)
Definition forEachElement {St A} (f : A → nat → M St unit) (xs : list (option A)) : M St unit :=
  forEach (λ x index, match x with Some x => f x index | None => mret tt end) xs.

Definition ensurePathIsCleared : M Game unit :=
  game ← getState;
  match path game with
  | Some path =>
      forEach (λ xy _, withArea (Area.drawTile xy (Some Empty))) path ;;
      modifyState (setPath None)
  | None => mret tt
  end ;;
  game ← getState;
  forEachElement (λ position _, withArea (Area.drawTile position (Some Enemy)))
                 (enemyPositions game).

Section Handler.

(** [onDeath] and [onDestinationArrival] raise an alert and rebuild the
    level from the level data; they belong to the driver and stay
    abstract. *)
Variable onDeath : M Game unit.
Variable onDestinationArrival : M Game unit.

(** The callback of [enemyPositions.forEach]. *)
Definition pursue (fuel : nat) (position : Coordinates.t) (index : nat) : M Game unit :=
  game ← getState;
  if Coordinates.equals position (agentPosition game) then onDeath
  else if Coordinates.withinProximity (agentPosition game) enemyDetectionProximity position
  then
    found ← withCache (Area.findDijkstraPath (number := float64) fuel (area game)
                                             (agentPosition game) position (constant zero));
    match head found with
    | Some newPosition =>
        let entity := Area.entityAt (area game) (ObjectKey newPosition) in
        if bool_decide (entity ≠ Some Enemy) && bool_decide (entity ≠ Some Destination)
        then
          modifyState (setEnemyPosition index newPosition) ;;
          withArea (Area.deleteEntity position) ;;
          withArea (Area.addEntity newPosition Enemy) ;;
          modifyState (setInPursuit true)
        else mret tt
    | None => mret tt
    end
  else mret tt.

Definition onDirectionalInput (fuel : nat) (direction : string) : M Game unit :=
  modifyState (setInPursuit false) ;;
  ensurePathIsCleared ;;
  game ← getState;
  forEachElement (pursue fuel) (enemyPositions game) ;;
  game ← getState;
  modifyState (setStatus (if inPursuit game then "Enemy Pursuing" else "Normal")) ;;
  newPosition ← withArea (Area.moveEntity (agentPosition game) direction);
  modifyState (setAgentPosition newPosition) ;;
  game ← getState;
  if Coordinates.equals (agentPosition game) (destinationPosition game)
  then onDestinationArrival
  else mret tt.

End Handler.

(** *** The other listeners and the level changes *)

(** The cell of a [mousedown] at page position [(baseX, baseY)] on a canvas
    at [(offsetLeft, offsetTop)], all in whole pixels: [Math.floor] of the
    quotient. *)
Definition clickedCell (baseX baseY offsetLeft offsetTop : Z) : Coordinates.t :=
  Coordinates.mk ((baseX - offsetLeft) / CanvasGrid.cellWidth)
                 ((baseY - offsetTop) / CanvasGrid.cellHeight).

Definition entityUiNames : gmap string EntityType :=
  <["Agent (Move)" := Agent]>
    (<["Destination (Move)" := Destination]>
       (<["Enemy" := Enemy]> (<["Empty" := Empty]> (<["Wall" := Wall]> ∅)))).

Definition setDestinationPosition (xy : Coordinates.t) (game : Game) : Game :=
  mkGame (area game) (agentPosition game) (enemyPositions game) xy
         (path game) (status game) (inPursuit game) (coordinatesCache game).

(** [enemyPositions.push(xy)]. *)
Definition pushEnemyPosition (xy : Coordinates.t) (game : Game) : Game :=
  mkGame (area game) (agentPosition game) (enemyPositions game ++ [Some xy])
         (destinationPosition game) (path game) (status game) (inPursuit game)
         (coordinatesCache game).

(** The [mousedown] listener of the canvas, from the selected name of
    the entity to set and the cell clicked. *)
Definition onMouseDown (uiName : string) (xy : Coordinates.t) : M Game unit :=
  let entityType := entityUiNames !! uiName in
  withArea (Area.deleteEntity xy) ;;
  match entityType with
  | Some Destination =>
      game ← getState;
      withArea (Area.deleteEntity (destinationPosition game)) ;;
      modifyState (setDestinationPosition xy)
  | Some Agent =>
      game ← getState;
      withArea (Area.deleteEntity (agentPosition game)) ;;
      modifyState (setAgentPosition xy)
  | Some Enemy => modifyState (pushEnemyPosition xy)
  | _ => mret tt
  end ;;
  withArea (Area.addEntityOf xy entityType).

(** A depth-first search called with its defaults [new Set()] and [[]],
    which no one else holds. *)
Definition withFreshTrail {A} (search : M Area.Trail A) : M Game A :=
  λ game, ((search Area.freshTrail).1, game).

Section Request.

(** [alert] belongs to the browser. *)
Variable alert : string → M Game unit.

(** The callback of [listenToPathfindingRequest]. *)
Definition onPathfindingRequest (fuel : nat) : M Game unit :=
  ensurePathIsCleared ;;
  game ← getState;
  let algorithm := Area.pathfindingAlgorithm (area game) in
  found ←
    (if String.eqb algorithm "Random Depth-First" then
       withFreshTrail
         (Area.findDepthFirstPath fuel (area game) (agentPosition game)
            (destinationPosition game) identity)
     else if String.eqb algorithm "Directional Depth-First" then
       withFreshTrail
         (Area.findDepthFirstPathDirectionally (euclidean := float64_norm) fuel (area game)
            (agentPosition game) (destinationPosition game))
     else if String.eqb algorithm "Djikstra's Algorithm" then
       withCache
         (Area.findDijkstraPath (number := float64) fuel (area game) (agentPosition game)
            (destinationPosition game) (constant zero))
     else if String.eqb algorithm "A*" then
       withCache
         (Area.findAStarPath (euclidean := float64_norm) fuel (area game) (agentPosition game)
            (destinationPosition game))
     else fail ("invalid pathfinding algorithm selected: " +:+ algorithm));
  modifyState (setPath (Some found)) ;;
  if (length found =? 0)%nat then alert "No path was found."
  else forEach (λ xy _, withArea (Area.drawTile xy (Some Navigated))) found.

End Request.

(** [resetArea], from the value of the algorithm selector and
    [currentLevelIndex]; an index outside [levels] has no outcome here (in
    JS, a [TypeError] on [level.agent]). *)
Definition resetArea (selectedAlgorithm : string) (currentLevelIndex : nat) : M Game unit :=
  match levels !! currentLevelIndex with
  | Some level =>
      modifyState (λ game,
        mkGame (Area.mk defaultAreaWidth defaultAreaHeight false selectedAlgorithm [] ∅)
               (Level.agent level) (Some <$> map identity (Level.enemies level))
               (Level.destination level)
               (path game) (status game) (inPursuit game) (coordinatesCache game)) ;;
      withArea (Area.addEntitiesFromStrings (Level.layout level)) ;;
      game ← getState;
      withArea (Area.addEntity (agentPosition game) Agent) ;;
      withArea (Area.addEntity (destinationPosition game) Destination) ;;
      forEachElement (λ position _, withArea (Area.addEntity position Enemy))
                     (enemyPositions game) ;;
      modifyState (setStatus "Normal")
  | None => stuck
  end.

(** [changeLevel]; the new [currentLevelIndex] is returned. *)
Definition changeLevel (selectedAlgorithm : string) (currentLevelIndex : Z) : M Game Z :=
  let currentLevelIndex := currentLevelIndex + 1 in
  let currentLevelIndex :=
    if Z.of_nat (length levels) <=? currentLevelIndex then 0 else currentLevelIndex in
  resetArea selectedAlgorithm (Z.to_nat currentLevelIndex) ;;
  mret currentLevelIndex.

End Main.

(** ** Auxiliary notions used by the statements *)

(** Prepend [s] to the first piece of a split. *)
Definition prefixHead (s : string) (pieces : list string) : list string :=
  match pieces with
  | piece :: pieces' => (s +:+ piece) :: pieces'
  | [] => [s]
  end.

(** The operations on the entity mapping, and the states they lead to from
    a new [Area] when every [addEntity] passes one of the entity kinds and a
    cell of the grid, and every [moveEntity] starts from an occupied cell. *)
Definition occupied (area : Area.t) (xy : Coordinates.t) : Prop :=
  ∃ kind, Area.entities area !! Coordinates.toString xy = Some (Some kind).

Inductive placed (width height : Z) : Area.t → Prop :=
  | placed_new : placed width height (Area.new width height)
  | placed_add area xy entityType outcome area' :
      placed width height area →
      Area.areCoordinatesValid area xy = true →
      Area.addEntityOf xy (Some entityType) area = (outcome, area') →
      placed width height area'
  | placed_delete area xy outcome area' :
      placed width height area →
      Area.deleteEntity xy area = (outcome, area') →
      placed width height area'
  | placed_move area xy direction outcome area' :
      placed width height area →
      occupied area xy →
      Area.moveEntity xy direction area = (outcome, area') →
      placed width height area'.

(** Every key is the key of a cell of the grid and holds a kind other than
    [Empty]. *)
Definition entitiesWithinBounds (area : Area.t) : Prop :=
  ∀ key entity,
    Area.entities area !! key = Some entity →
    (∃ xy, key = Coordinates.toString xy ∧ Area.areCoordinatesValid area xy = true)
    ∧ (∃ kind, entity = Some kind ∧ kind ≠ Empty).

Definition occupancyConflict : string :=
  "Error: an added entity cannot overlap an existing one".

(** The cache of [createCoordinatesFromString] only ever holds parses. *)
Definition cacheConsistent (cache : gmap string Coordinates.t) : Prop :=
  ∀ key xy, cache !! key = Some xy → parseCoordinates key = Some xy.

(** Laws of exact arithmetic with a greatest element [infinity]: a strict
    total order and an addition that is monotone and absorbs [infinity]. *)
Class NumberLaws (number : Number) : Prop := {
  ltb_irreflexive a : ltb a a = false;
  ltb_transitive a b c : ltb a b = true → ltb b c = true → ltb a c = true;
  ltb_connected a b : ltb a b = false → ltb b a = false → a = b;
  ltb_infinity a : ltb infinity a = false;
  zero_finite : ltb zero infinity = true;
  one_positive : ltb zero one = true;
  one_finite : ltb one infinity = true;
  add_finite a b : ltb a infinity = true → ltb b infinity = true → ltb (add a b) infinity = true;
  add_infinity a : add infinity a = infinity;
  add_increase a b : ltb a infinity = true → ltb zero b = true → ltb a (add a b) = true;
  add_nondecrease a b : ltb b zero = false → ltb (add a b) a = false;
  add_monotone a b c : ltb (add a c) (add b c) = true → ltb a b = true;
  add_monotone_r a b c : ltb (add c a) (add c b) = true → ltb a b = true;
  add_strict a b c :
    ltb a b = true → ltb c infinity = true → ltb (add a c) (add b c) = true;
}.

(** Laws of the Euclidean norm: finite, not negative, and monotone in
    both arguments. *)
Class EuclideanLaws (number : Number) (euclidean : Euclidean number) : Prop := {
  norm_nonnegative x y : ltb (norm x y) zero = false;
  norm_finite x y : ltb (norm x y) infinity = true;
  norm_monotone x y x' y' :
    0 ≤ x ≤ x' → 0 ≤ y ≤ y' → ltb (norm x' y') (norm x y) = false;
}.

Section SearchNotions.
Context {number : Number}.

(** The node the outer loop extracts: [sorted[0]]. *)
Definition selected (search : Area.Search) (current : Coordinates.t) : Prop :=
  head (sortBy (Area.compareDistances (Area.distances search)) (Area.unvisitedNodes search))
  = Some (Coordinates.toString current).

(** The search after one iteration that extracted [current]. *)
Definition advance (area : Area.t) (getHeuristic : Coordinates.t → num)
    (current : Coordinates.t) (search : Area.Search) : Area.Search :=
  foldl (Area.updateDistance getHeuristic current)
    (Area.mkSearch
       (List.filter (λ key, negb (String.eqb key (Coordinates.toString current)))
                    (Area.unvisitedNodes search))
       (Area.distances search) (Area.previousDistances search))
    (Coordinates.getNeighbours current (Area.allowDiagonalsInPaths area)).

(** Every key of [unvisitedNodes] is the key of some coordinates. *)
Definition keyed (keys : list string) : Prop :=
  ∀ key, key ∈ keys → ∃ xy, key = Coordinates.toString xy.

(** A heuristic with values in [[0, infinity)]. *)
Definition admissible (getHeuristic : Coordinates.t → num) : Prop :=
  ∀ xy, ltb (getHeuristic xy) zero = false ∧ ltb (getHeuristic xy) infinity = true.

End SearchNotions.

Section SearchInvariant.
Context {number : Number}.
Variables (area : Area.t) (source : Coordinates.t) (getHeuristic : Coordinates.t → num).

(** The nodes of the search: the source and the valid agent positions. *)
Definition node (xy : Coordinates.t) : Prop :=
  xy = source ∨ Area.isValidAgentPosition area xy = true.

(** What holds of the three maps throughout a search.  A node is visited
    once its key has left [unvisitedNodes]. *)
Record consistent (search : Area.Search) : Prop := {
  unvisited_nodes key :
    key ∈ Area.unvisitedNodes search → ∃ xy, key = Coordinates.toString xy ∧ node xy;
  distance_nodes key :
    is_Some (Area.distances search !! key) ↔ ∃ xy, key = Coordinates.toString xy ∧ node xy;
  distance_count :
    (size (Area.distances search) ≤ S (length (Area.gridCells area)))%nat;
  distance_nonnegative key d :
    Area.distances search !! key = Some d → ltb d zero = false;
  source_distance :
    Area.distances search !! Coordinates.toString source = Some zero;
  previous_edge key u :
    Area.previousDistances search !! key = Some u →
    ∃ v du,
      key = Coordinates.toString v ∧ v ≠ source
      ∧ Area.isValidAgentPosition area v = true
      ∧ v ∈ Coordinates.getNeighbours u (Area.allowDiagonalsInPaths area)
      ∧ node u
      ∧ (Coordinates.toString u ∉ Area.unvisitedNodes search)
      ∧ Area.distances search !! Coordinates.toString u = Some du
      ∧ ltb du infinity = true
      ∧ Area.distances search !! key = Some (add (add du one) (getHeuristic v));
  finite_previous key d :
    Area.distances search !! key = Some d → ltb d infinity = true →
    key ≠ Coordinates.toString source →
    is_Some (Area.previousDistances search !! key);
  settled visited unvisited dv du :
    Area.distances search !! visited = Some dv →
    Area.distances search !! unvisited = Some du →
    visited ∉ Area.unvisitedNodes search →
    unvisited ∈ Area.unvisitedNodes search →
    ltb du dv = false;
}.

(** Every edge out of a visited node has been relaxed. *)
Definition relaxed (search : Area.Search) : Prop :=
  ∀ u n du dn,
    Coordinates.toString u ∉ Area.unvisitedNodes search →
    n ∈ Coordinates.getNeighbours u (Area.allowDiagonalsInPaths area) →
    Area.distances search !! Coordinates.toString u = Some du →
    Area.distances search !! Coordinates.toString n = Some dn →
    ltb (add (add du one) (getHeuristic n)) dn = false.

(** [current] was extracted last: no visited node is farther. *)
Definition latest (search : Area.Search) (current : Coordinates.t) : Prop :=
  (Coordinates.toString current ∉ Area.unvisitedNodes search)
  ∧ node current
  ∧ ∀ visited dv dc,
      visited ∉ Area.unvisitedNodes search →
      Area.distances search !! visited = Some dv →
      Area.distances search !! Coordinates.toString current = Some dc →
      ltb dc dv = false.

End SearchInvariant.

(** The path the inner loop builds from [previous]: each cell is followed
    by its predecessor, and the walk stops before the first cell without
    one. *)
Fixpoint traced (previousDistances : gmap string Coordinates.t)
    (previous : option Coordinates.t) (path : list Coordinates.t) : Prop :=
  match path with
  | [] =>
      match previous with
      | Some xy => previousDistances !! Coordinates.toString xy = None
      | None => True
      end
  | xy :: path' =>
      previous = Some xy
      ∧ is_Some (previousDistances !! Coordinates.toString xy)
      ∧ traced previousDistances (previousDistances !! Coordinates.toString xy) path'
  end.

(** The cell after the walk: the first cell without a predecessor. *)
Fixpoint tracedEnd (previousDistances : gmap string Coordinates.t)
    (previous : option Coordinates.t) (path : list Coordinates.t) : option Coordinates.t :=
  match path with
  | [] => previous
  | xy :: path' =>
      tracedEnd previousDistances (previousDistances !! Coordinates.toString xy) path'
  end.

(** Number of recorded distances below [d]: it bounds the length of a walk
    through the predecessors. *)
Definition rank {number : Number} (distances : gmap string num) (d : num) : nat :=
  length (List.filter (λ entry : string * num, ltb entry.2 d) (map_to_list distances)).

(** Each cell of the list is a neighbour of the next one. *)
Fixpoint chained (area : Area.t) (cells : list Coordinates.t) : Prop :=
  match cells with
  | a :: (b :: _) as rest =>
      a ∈ Coordinates.getNeighbours b (Area.allowDiagonalsInPaths area) ∧ chained area rest
  | _ => True
  end.

(** One move of a search: to a neighbour that is a valid agent position. *)
Definition passable (area : Area.t) (a b : Coordinates.t) : Prop :=
  b ∈ Coordinates.getNeighbours a (Area.allowDiagonalsInPaths area)
  ∧ Area.isValidAgentPosition area b = true.

(** A route: any number of such moves. *)
Definition route (area : Area.t) : Coordinates.t → Coordinates.t → Prop :=
  rtc (passable area).

(** A small walled grid used by the examples: 4×2, walls at (2,0) and
    (2,1), so that the two right-hand cells are cut off. *)
Definition walledArea : Area.t :=
  (Area.addEntity (Coordinates.mk 2 1) Wall
     (Area.addEntity (Coordinates.mk 2 0) Wall (Area.new 4 2)).2).2.

(** Two pursuit situations on a 4×2 grid: the agent at (0,0), an enemy at
    (3,0) whose next cell toward the agent, (2,0), holds another enemy, or
    holds the destination marker. *)
Definition blockedByEnemy : Main.Game :=
  Main.mkGame
    (Area.addEntity (Coordinates.mk 2 0) Enemy
       (Area.addEntity (Coordinates.mk 3 0) Enemy
          (Area.addEntity (Coordinates.mk 0 1) Destination
             (Area.addEntity (Coordinates.mk 0 0) Agent (Area.new 4 2)).2).2).2).2
    (Coordinates.mk 0 0) [Some (Coordinates.mk 3 0); Some (Coordinates.mk 2 0)]
    (Coordinates.mk 0 1) None "Normal" false ∅.

Definition blockedByDestination : Main.Game :=
  Main.mkGame
    (Area.addEntity (Coordinates.mk 3 0) Enemy
       (Area.addEntity (Coordinates.mk 2 0) Destination
          (Area.addEntity (Coordinates.mk 0 0) Agent (Area.new 4 2)).2).2).2
    (Coordinates.mk 0 0) [Some (Coordinates.mk 3 0)]
    (Coordinates.mk 2 0) None "Normal" false ∅.

(** Two outcomes agree when, both being paths, they are the same path. *)
Definition agree (outcome1 outcome2 : result (list Coordinates.t)) : Prop :=
  ∀ path1 path2, outcome1 = Ok path1 → outcome2 = Ok path2 → path1 = path2.

(** The keys of the cells of the grid. *)
Definition cellKeys (area : Area.t) : gset string :=
  list_to_set (Coordinates.toString <$> Area.gridCells area).

(** ** Notions for the doubles of the searches *)

(** A double that is neither [NaN] nor negative, as the specification of
    binary64 renders it. *)
Definition nonnegative (x : spec_float) : Prop :=
  match x with
  | S754_zero _ | S754_finite false _ _ | S754_infinity false => True
  | _ => False
  end.

(** The place of such a double in the order: zero, then the finite ones
    by exponent and mantissa, then infinity. *)
Definition float64_place (x : spec_float) : Z * Z * Z :=
  match x with
  | S754_zero _ => (0, 0, 0)
  | S754_finite _ m e => (1, e, Zpos m)
  | S754_infinity _ => (2, 0, 0)
  | S754_nan => (3, 0, 0)
  end.

Definition float64_below (a b : Z * Z * Z) : Prop :=
  a.1.1 < b.1.1 ∨ a.1.1 = b.1.1 ∧ (a.1.2 < b.1.2 ∨ a.1.2 = b.1.2 ∧ a.2 < b.2).

(** The values the searches compute in binary64: doubles that are
    neither negative nor [NaN]. *)
Definition float64_regular (x : float) : Prop := nonnegative (Prim2SF x).

(** Laws of the order and the addition that hold of every arithmetic of
    the searches, rounding or not, on the values that arise (the [regular]
    ones): the comparison is a strict weak order and adding does not
    decrease. *)
Class OrderLaws (number : Number) (regular : num → Prop) : Prop := {
  regular_zero : regular zero;
  regular_one : regular one;
  regular_infinity : regular infinity;
  regular_add a b : regular a → regular b → regular (add a b);
  regular_asymmetric a b : regular a → regular b → ltb a b = true → ltb b a = false;
  regular_negatively_transitive a b c :
    regular a → regular b → regular c →
    ltb a b = false → ltb b c = false → ltb a c = false;
  regular_nondecrease a b : regular a → regular b → ltb (add a b) a = false;
}.

Section SearchOrder.
Context {number : Number}.
Variables (regular : num → Prop) (area : Area.t).

(** What holds of the maps of a search whatever the additions round to;
    [order] lists the keys extracted so far, the oldest first.  A
    predecessor was extracted before the node it is recorded for. *)
Record sequenced (order : list string) (search : Area.Search) : Prop := {
  sequenced_keyed : keyed (Area.unvisitedNodes search);
  sequenced_distance key :
    key ∈ Area.unvisitedNodes search → is_Some (Area.distances search !! key);
  sequenced_regular key d : Area.distances search !! key = Some d → regular d;
  sequenced_visited key : key ∈ order → key ∉ Area.unvisitedNodes search;
  sequenced_settled visited unvisited dv du :
    visited ∈ order →
    unvisited ∈ Area.unvisitedNodes search →
    Area.distances search !! visited = Some dv →
    Area.distances search !! unvisited = Some du →
    ltb du dv = false;
  sequenced_previous key u :
    Area.previousDistances search !! key = Some u →
    (∃ xy, key = Coordinates.toString xy)
    ∧ ∃ i, order !! i = Some (Coordinates.toString u)
           ∧ ∀ j, order !! j = Some key → (i < j)%nat;
  sequenced_count :
    (length order + length (Area.unvisitedNodes search) ≤ S (length (Area.gridCells area)))%nat;
}.

(** The state of one iteration, between two calls of [updateDistance]:
    [current], at distance [dc], is the last key of the order, and no key of
    the order is farther. *)
Definition relaxing (order : list string) (current : Coordinates.t) (dc : num)
    (search : Area.Search) : Prop :=
  sequenced (order ++ [Coordinates.toString current]) search
  ∧ Area.distances search !! Coordinates.toString current = Some dc
  ∧ ∀ v dv,
      v ∈ order ++ [Coordinates.toString current] →
      Area.distances search !! v = Some dv →
      ltb dc dv = false.

End SearchOrder.

(** Two areas with the same dimensions, diagonal flag and walls; their
    other entities, their canvases and their algorithm names may differ. *)
Definition sameGrid (area1 area2 : Area.t) : Prop :=
  Area.width area1 = Area.width area2
  ∧ Area.height area1 = Area.height area2
  ∧ Area.allowDiagonalsInPaths area1 = Area.allowDiagonalsInPaths area2
  ∧ ∀ xy,
      Area.entityAt area1 (StringKey (Coordinates.toString xy)) = Some Wall
      ↔ Area.entityAt area2 (StringKey (Coordinates.toString xy)) = Some Wall.

(** ** Notions for the length of the paths on an open grid *)

(** The value the search assigns to a walk that starts with value [start]:
    each cell entered adds 1 and the heuristic of the cell. *)
Definition walkCost {number : Number} (getHeuristic : Coordinates.t → num)
    (start : num) (cells : list Coordinates.t) : num :=
  foldl (λ d xy, add (add d one) (getHeuristic xy)) start cells.

(** A walk out of [from]: each cell is a passable move from the one before. *)
Fixpoint walk (area : Area.t) (from : Coordinates.t) (cells : list Coordinates.t) : Prop :=
  match cells with
  | [] => True
  | xy :: cells' => passable area from xy ∧ walk area xy cells'
  end.

Definition manhattan (a b : Coordinates.t) : Z :=
  Z.abs (Coordinates.x a - Coordinates.x b) + Z.abs (Coordinates.y a - Coordinates.y b).

(** No cell of the grid holds a wall. *)
Definition obstacleFree (area : Area.t) : Prop :=
  ∀ xy, Area.areCoordinatesValid area xy = true → Area.isValidAgentPosition area xy = true.

(** A heuristic that does not grow when a cell gets nearer to the
    destination in both coordinates. *)
Definition radial {number : Number} (destination : Coordinates.t)
    (getHeuristic : Coordinates.t → num) : Prop :=
  ∀ m n,
    Z.abs (Coordinates.x m - Coordinates.x destination)
    ≤ Z.abs (Coordinates.x n - Coordinates.x destination) →
    Z.abs (Coordinates.y m - Coordinates.y destination)
    ≤ Z.abs (Coordinates.y n - Coordinates.y destination) →
    ltb (getHeuristic n) (getHeuristic m) = false.

(** The cell at offsets [mx], [my] from the destination, on the source's
    side. *)
Definition towards (destination source : Coordinates.t) (mx my : Z) : Coordinates.t :=
  Coordinates.mk
    (Coordinates.x destination
     + Z.sgn (Coordinates.x source - Coordinates.x destination) * mx)
    (Coordinates.y destination
     + Z.sgn (Coordinates.y source - Coordinates.y destination) * my).

(** A walk cut short: it follows the least offsets from the destination
    the given walk has reached so far, and moves only when one of them
    drops. *)
Fixpoint shortcut (destination source : Coordinates.t) (mx my : Z)
    (cells : list Coordinates.t) : list Coordinates.t :=
  match cells with
  | [] => []
  | n :: cells' =>
      let mx' := Z.min mx (Z.abs (Coordinates.x n - Coordinates.x destination)) in
      let my' := Z.min my (Z.abs (Coordinates.y n - Coordinates.y destination)) in
      if (mx' =? mx) && (my' =? my) then shortcut destination source mx my cells'
      else towards destination source mx' my' :: shortcut destination source mx' my' cells'
  end.

(** ** Notions for the further properties *)

(** [Number.isSafeInteger(n)]: an integer a double holds exactly, which
    [String] writes in full and [Number.parseInt] reads back. *)
Definition safeInteger (n : Z) : Prop := - 2 ^ 53 < n < 2 ^ 53.

(** The cache of [createCoordinatesFromString] after calls on [keys], from
    the empty cache its closure starts with. *)
Definition cacheAfter (keys : list string) : gmap string Coordinates.t :=
  foldl (λ cache key, (createCoordinatesFromString key cache).2) ∅ keys.


(** The character of a layout at column [x] of row [y]. *)
Definition layoutCharacter (strings : list string) (x y : nat) : option ascii :=
  strings !! y ≫= λ string, Area.characters string !! x.

(** What [addEntitiesFromStrings] leaves under the key of cell [(x, y)]:
    nothing outside the layout and for the character of [Empty], the tile of
    the character otherwise ([undefined] for a character without a tile). *)
Definition layoutEntity (strings : list string) (x y : nat) : option (option EntityType) :=
  character ← layoutCharacter strings x y;
  let tile := characterTiles !! character in
  if decide (tile = Some Empty) then None else Some tile.

Definition chebyshev (a b : Coordinates.t) : Z :=
  Z.max (Z.abs (Coordinates.x a - Coordinates.x b)) (Z.abs (Coordinates.y a - Coordinates.y b)).

(** What [navigated] holds during a depth-first search, after its first
    element: valid agent positions other than the two endpoints. *)
Definition navigable (area : Area.t) (source destination xy : Coordinates.t) : Prop :=
  Area.isValidAgentPosition area xy = true ∧ xy ≠ source ∧ xy ≠ destination.

(** The shape of [navigated]: its first element may be the source. *)
Definition trailed (area : Area.t) (source destination : Coordinates.t)
    (navigated : list Coordinates.t) : Prop :=
  match navigated with
  | [] => True
  | first :: rest =>
      (first = source ∨ navigable area source destination first)
      ∧ Forall (navigable area source destination) rest
  end.

(** The part of the game a search may not touch: the grid and its
    entities, and the recorded positions. *)
Definition sameBoard (game game' : Main.Game) : Prop :=
  Area.width (Main.area game') = Area.width (Main.area game)
  ∧ Area.height (Main.area game') = Area.height (Main.area game)
  ∧ Area.allowDiagonalsInPaths (Main.area game') = Area.allowDiagonalsInPaths (Main.area game)
  ∧ Area.pathfindingAlgorithm (Main.area game') = Area.pathfindingAlgorithm (Main.area game)
  ∧ Area.entities (Main.area game') = Area.entities (Main.area game)
  ∧ Main.agentPosition game' = Main.agentPosition game
  ∧ Main.enemyPositions game' = Main.enemyPositions game
  ∧ Main.destinationPosition game' = Main.destinationPosition game.

(** A level as [resetArea] leaves it. *)
Definition loaded (level : Level.t) (game : Main.Game) : Prop :=
  Main.agentPosition game = Level.agent level
  ∧ Main.destinationPosition game = Level.destination level
  ∧ Main.enemyPositions game = Some <$> Level.enemies level
  ∧ Main.status game = "Normal"
  ∧ Area.width (Main.area game) = defaultAreaWidth
  ∧ Area.height (Main.area game) = defaultAreaHeight
  ∧ Area.entityAt (Main.area game) (StringKey (Coordinates.toString (Level.agent level)))
    = Some Agent
  ∧ Area.entityAt (Main.area game)
      (StringKey (Coordinates.toString (Level.destination level)))
    = Some Destination
  ∧ Forall (λ enemy, Area.entityAt (Main.area game) (StringKey (Coordinates.toString enemy))
                     = Some Enemy) (Level.enemies level)
  ∧ Forall (λ xy, Area.isValidAgentPosition (Main.area game) xy = true)
      (Level.agent level :: Level.destination level :: Level.enemies level).

(** * Properties *)

(** ** Keys: [String(xy)] and [createCoordinatesFromString] *)

Section Keys.

Lemma append_cons c (s t : string) : String c s +:+ t = String c (s +:+ t).
Proof. reflexivity. Qed.

Lemma append_empty_l (t : string) : EmptyString +:+ t = t.
Proof. reflexivity. Qed.

Lemma append_empty_r s : s +:+ EmptyString = s.
Proof. induction s as [|c s IH]; [done|]. by rewrite append_cons, IH. Qed.

Lemma append_assoc_string (s1 s2 s3 : string) : (s1 +:+ s2) +:+ s3 = s1 +:+ (s2 +:+ s3).
Proof. induction s1 as [|c s1 IH]; [done|]. by rewrite !append_cons, IH. Qed.

Lemma split_cons_other sep c s :
  Ascii.eqb c sep = false →
  split sep (String c s) = prefixHead (String c EmptyString) (split sep s).
Proof.
  intros Hc. cbn [split]. rewrite Hc.
  destruct (split sep s); reflexivity.
Qed.

Lemma split_nonempty sep s : split sep s ≠ [].
Proof.
  destruct s as [|c s]; cbn [split]; [done|].
  destruct (Ascii.eqb c sep); [done|].
  destruct (split sep s); done.
Qed.

Lemma prefixHead_prefixHead s1 s2 pieces :
  pieces ≠ [] →
  prefixHead s1 (prefixHead s2 pieces) = prefixHead (s1 +:+ s2) pieces.
Proof.
  destruct pieces as [|piece pieces]; [done|]. intros _. cbn [prefixHead].
  by rewrite append_assoc_string.
Qed.

Lemma prefixHead_empty pieces : pieces ≠ [] → prefixHead EmptyString pieces = pieces.
Proof. by destruct pieces. Qed.

(** A decimal numeral contains no comma. *)
Lemma split_digits d rest :
  split "," (NilEmpty.string_of_uint d +:+ rest)
  = prefixHead (NilEmpty.string_of_uint d) (split "," rest).
Proof.
  induction d; cbn [NilEmpty.string_of_uint];
    try (rewrite append_cons, split_cons_other by reflexivity; rewrite IHd;
         rewrite prefixHead_prefixHead by apply split_nonempty; reflexivity).
  rewrite append_empty_l. symmetry. apply prefixHead_empty, split_nonempty.
Qed.

Lemma digitsPrefix_digits d rest :
  digitsPrefix (NilEmpty.string_of_uint d +:+ rest)
  = NilEmpty.string_of_uint d +:+ digitsPrefix rest.
Proof.
  induction d; cbn [NilEmpty.string_of_uint];
    try (rewrite !append_cons; cbn [digitsPrefix];
         change (isDigit _) with true; cbn iota; by rewrite IHd).
  reflexivity.
Qed.

Lemma parseDigits_digits d :
  d ≠ Decimal.Nil →
  parseDigits (NilEmpty.string_of_uint d) = Some (Z.of_uint d).
Proof.
  intros Hd. unfold parseDigits.
  pose proof (digitsPrefix_digits d EmptyString) as E.
  rewrite !append_empty_r in E. rewrite E.
  destruct (NilEmpty.string_of_uint d) as [|c digits] eqn:Hs.
  - by destruct d.
  - by rewrite <- Hs, NilEmpty.usu.
Qed.

Lemma numberToString_pos p :
  numberToString (Z.pos p) = NilEmpty.string_of_uint (Pos.to_uint p).
Proof.
  unfold numberToString. cbn [Z.to_int NilZero.string_of_int NilZero.string_of_uint].
  pose proof (DecimalPos.Unsigned.to_uint_nonnil p) as Hn.
  by destruct (Pos.to_uint p).
Qed.

Lemma numberToString_neg p :
  numberToString (Z.neg p) = String "-" (NilEmpty.string_of_uint (Pos.to_uint p)).
Proof.
  unfold numberToString. cbn [Z.to_int NilZero.string_of_int NilZero.string_of_uint].
  pose proof (DecimalPos.Unsigned.to_uint_nonnil p) as Hn.
  by destruct (Pos.to_uint p).
Qed.

Lemma parseInt_digits d :
  d ≠ Decimal.Nil → parseInt (NilEmpty.string_of_uint d) = Some (Z.of_uint d).
Proof.
  intros Hd. rewrite <- (parseDigits_digits d Hd).
  destruct d; try done; reflexivity.
Qed.

(** [parseInt(String(n)) = n]. *)
Lemma parseInt_numberToString n : parseInt (numberToString n) = Some n.
Proof.
  destruct n as [|p|p].
  - reflexivity.
  - rewrite numberToString_pos, parseInt_digits by apply DecimalPos.Unsigned.to_uint_nonnil.
    f_equal. apply (DecimalZ.of_to (Z.pos p)).
  - rewrite numberToString_neg. cbn [parseInt].
    rewrite parseDigits_digits by apply DecimalPos.Unsigned.to_uint_nonnil.
    cbn. f_equal. apply (DecimalZ.of_to (Z.neg p)).
Qed.

Lemma split_numberToString n rest :
  split "," (numberToString n +:+ rest) = prefixHead (numberToString n) (split "," rest).
Proof.
  destruct n as [|p|p].
  - change (numberToString 0) with (NilEmpty.string_of_uint (Decimal.D0 Decimal.Nil)).
    apply split_digits.
  - rewrite numberToString_pos. apply split_digits.
  - rewrite numberToString_neg, append_cons.
    rewrite split_cons_other by reflexivity. rewrite split_digits.
    by rewrite prefixHead_prefixHead by apply split_nonempty.
Qed.

Lemma split_toString xy :
  split "," (Coordinates.toString xy)
  = [numberToString (Coordinates.x xy); numberToString (Coordinates.y xy)].
Proof.
  unfold Coordinates.toString. rewrite split_numberToString.
  rewrite append_cons, append_empty_l.
  cbn [split]. change (Ascii.eqb "," ",") with true. cbn iota.
  pose proof (split_numberToString (Coordinates.y xy) EmptyString) as E.
  rewrite append_empty_r in E. rewrite E. cbn [split prefixHead].
  by rewrite !append_empty_r.
Qed.

(** The parse inverts the key: the invariant of the data model. *)
Lemma parseCoordinates_toString xy :
  parseCoordinates (Coordinates.toString xy) = Some xy.
Proof.
  unfold parseCoordinates. rewrite split_toString, !parseInt_numberToString.
  by destruct xy.
Qed.

Lemma toString_inj xy xy' :
  Coordinates.toString xy = Coordinates.toString xy' → xy = xy'.
Proof.
  intros E. apply (f_equal parseCoordinates) in E.
  rewrite !parseCoordinates_toString in E. congruence.
Qed.

Lemma toString_not_undefined xy : Coordinates.toString xy ≠ "undefined".
Proof.
  intros E. apply (f_equal parseCoordinates) in E.
  by rewrite parseCoordinates_toString in E.
Qed.

Lemma equals_eq xy xy' : Coordinates.equals xy xy' = bool_decide (xy = xy').
Proof.
  unfold Coordinates.equals. destruct xy as [a b], xy' as [a' b']; cbn.
  destruct (Z.eqb_spec a a'), (Z.eqb_spec b b'); cbn;
    symmetry; [apply bool_decide_eq_true | apply bool_decide_eq_false ..]; congruence.
Qed.

Lemma equals_true xy xy' : Coordinates.equals xy xy' = true ↔ xy = xy'.
Proof. rewrite equals_eq. apply bool_decide_eq_true. Qed.

Lemma equals_false xy xy' : Coordinates.equals xy xy' = false ↔ xy ≠ xy'.
Proof. rewrite equals_eq. apply bool_decide_eq_false. Qed.

End Keys.

(** ** The entity mapping *)

Section EntityMapping.

Implicit Types (area : Area.t) (xy : Coordinates.t) (entityType : EntityType).

Lemma mapHas_string {V} (m : gmap string V) key :
  mapHas m (StringKey key) = bool_decide (is_Some (m !! key)).
Proof. reflexivity. Qed.

Lemma addEntity_occupied area xy entityType :
  is_Some (Area.entities area !! Coordinates.toString xy) →
  Area.addEntity xy entityType area = (Err occupancyConflict, area).
Proof.
  intros Hocc. unfold Area.addEntity, mbind, M_bind, getState.
  rewrite mapHas_string, bool_decide_eq_true_2 by done. reflexivity.
Qed.

Lemma addEntity_free area xy entityType :
  Area.entities area !! Coordinates.toString xy = None →
  Area.addEntity xy entityType area
  = (Ok tt,
     Area.mk (Area.width area) (Area.height area) (Area.allowDiagonalsInPaths area)
             (Area.pathfindingAlgorithm area)
             (Area.canvasGrid area ++ [(xy, Some entityType)])
             (if decide (entityType = Empty) then Area.entities area
              else <[Coordinates.toString xy := Some entityType]> (Area.entities area))).
Proof.
  intros Hfree. unfold Area.addEntity, mbind, M_bind, getState.
  rewrite mapHas_string, bool_decide_eq_false_2 by (rewrite Hfree; by intros [? ?]).
  cbn. destruct entityType; reflexivity.
Qed.

Lemma deleteEntity_eq area xy :
  Area.deleteEntity xy area
  = (Ok tt,
     Area.mk (Area.width area) (Area.height area) (Area.allowDiagonalsInPaths area)
             (Area.pathfindingAlgorithm area)
             (Area.canvasGrid area ++ [(xy, Some Empty)])
             (delete (Coordinates.toString xy) (Area.entities area))).
Proof. reflexivity. Qed.

(** C7: [addEntity] on a cell whose key is present throws the
    occupancy-conflict error and leaves the area as it was; on a free cell it
    returns normally, recording the kind unless it is [Empty]; and
    [deleteEntity] on a cell without an entry returns normally with the
    mapping unchanged. *)
Theorem addEntity_conflict_deleteEntity_absent area xy entityType :
  (is_Some (Area.entities area !! Coordinates.toString xy) →
   Area.addEntity xy entityType area = (Err occupancyConflict, area))
  ∧ (Area.entities area !! Coordinates.toString xy = None →
     ∃ area',
       Area.addEntity xy entityType area = (Ok tt, area')
       ∧ Area.entities area'
         = if decide (entityType = Empty) then Area.entities area
           else <[Coordinates.toString xy := Some entityType]> (Area.entities area))
  ∧ (Area.entities area !! Coordinates.toString xy = None →
     ∃ area',
       Area.deleteEntity xy area = (Ok tt, area')
       ∧ Area.entities area' = Area.entities area).
Proof.
  split; [apply addEntity_occupied|]. split; intros Hfree.
  - eexists. split; [by apply addEntity_free|]. reflexivity.
  - eexists. split; [apply deleteEntity_eq|]. cbn. by apply delete_id.
Qed.

Lemma addEntity_conflict_deleteEntity_absent_witness :
  let occupiedArea := (Area.addEntity (Coordinates.mk 0 0) Wall (Area.new 2 2)).2 in
  Area.addEntity (Coordinates.mk 0 0) Enemy occupiedArea = (Err occupancyConflict, occupiedArea)
  ∧ (∃ area',
       Area.addEntity (Coordinates.mk 1 0) Enemy occupiedArea = (Ok tt, area')
       ∧ Area.entities area'
         = <[Coordinates.toString (Coordinates.mk 1 0) := Some Enemy]>
             (Area.entities occupiedArea))
  ∧ (∃ area',
       Area.deleteEntity (Coordinates.mk 1 0) occupiedArea = (Ok tt, area')
       ∧ Area.entities area' = Area.entities occupiedArea).
Proof.
  intros occupiedArea. split; [|split].
  - apply (addEntity_conflict_deleteEntity_absent occupiedArea (Coordinates.mk 0 0) Enemy).
    exists (Some Wall). reflexivity.
  - apply (addEntity_conflict_deleteEntity_absent occupiedArea (Coordinates.mk 1 0) Enemy).
    reflexivity.
  - apply (addEntity_conflict_deleteEntity_absent occupiedArea (Coordinates.mk 1 0) Enemy).
    reflexivity.
Defined.

Lemma move_recognised {St} xy direction (s : St) :
  direction ∈ ["left"; "right"; "up"; "down"] →
  ∃ destination,
    Coordinates.move xy direction s = (Ok destination, s)
    ∧ destination ∈ Coordinates.getNeighbours xy false.
Proof.
  rewrite !elem_of_cons, elem_of_nil.
  intros [-> | [-> | [-> | [-> | []]]]]; eexists; (split; [reflexivity|]);
    cbn; rewrite !elem_of_cons; tauto.
Qed.

Lemma neighbour_neq xy xy' diagonals :
  xy' ∈ Coordinates.getNeighbours xy diagonals → xy' ≠ xy.
Proof.
  destruct xy as [a b]. unfold Coordinates.getNeighbours. cbn [Coordinates.x Coordinates.y].
  destruct diagonals; cbn; rewrite !elem_of_cons, elem_of_nil;
    intros H E; subst xy'; repeat destruct H as [H | H]; try done;
    injection H; lia.
Qed.

Lemma moveEntity_eq area xy direction destination :
  Coordinates.move xy direction area = (Ok destination, area) →
  Area.moveEntity xy direction area
  = if Area.isValidAgentPosition area destination then
      let moved :=
        delete (Coordinates.toString xy)
          (<[Coordinates.toString destination :=
               Area.entityAt area (StringKey (Coordinates.toString xy))]>
             (Area.entities area)) in
      (Ok destination,
       Area.mk (Area.width area) (Area.height area) (Area.allowDiagonalsInPaths area)
               (Area.pathfindingAlgorithm area)
               (Area.canvasGrid area
                ++ [(xy, Some Empty)]
                ++ [(destination, moved !! Coordinates.toString destination ≫= id)])
               moved)
    else (Ok xy, area).
Proof.
  intros Hmove. unfold Area.moveEntity, mbind at 1, M_bind at 1. rewrite Hmove.
  unfold mbind at 1, M_bind at 1, getState.
  destruct (Area.isValidAgentPosition area destination); [|reflexivity].
  unfold mbind, M_bind, mret, M_ret, modifyState, Area.drawTile, Area.setEntities,
    Area.entityAt, mapGet; cbn.
  by rewrite <- app_assoc.
Qed.



Lemma move_cases {St} xy direction (s : St) :
  (∃ destination,
     Coordinates.move xy direction s = (Ok destination, s)
     ∧ destination ∈ Coordinates.getNeighbours xy false)
  ∨ Coordinates.move xy direction s = (Err "Error: invalid direction", s).
Proof.
  unfold Coordinates.move.
  repeat (destruct (String.eqb direction _);
          [left; eexists; split; [reflexivity|]; cbn; rewrite !elem_of_cons; tauto|]).
  by right.
Qed.

Lemma isValidAgentPosition_within area xy :
  Area.isValidAgentPosition area xy = true → Area.areCoordinatesValid area xy = true.
Proof. unfold Area.isValidAgentPosition. by intros [? _]%andb_true_iff. Qed.

(** A call of [addEntity] with a kind, in either rendering. *)
Lemma addEntityOf_Some xy entityType area :
  Area.addEntityOf xy (Some entityType) area = Area.addEntity xy entityType area.
Proof.
  unfold Area.addEntityOf, Area.addEntity, mbind, M_bind, getState.
  destruct (mapHas _ _); [done|]. cbn. by destruct entityType.
Qed.

Lemma placed_dimensions width height area :
  placed width height area → Area.width area = width ∧ Area.height area = height.
Proof.
  induction 1 as [|area xy entityType outcome area' _ IH _ Hadd
                  |area xy outcome area' _ IH Hdel
                  |area xy direction outcome area' _ IH _ Hmove];
    [split; reflexivity|..].
  - rewrite addEntityOf_Some in Hadd.
    destruct (Area.entities area !! Coordinates.toString xy) eqn:E.
    + rewrite addEntity_occupied in Hadd by (rewrite E; eexists; reflexivity).
      simplify_eq. exact IH.
    + rewrite addEntity_free in Hadd by done. simplify_eq. exact IH.
  - rewrite deleteEntity_eq in Hdel. simplify_eq. exact IH.
  - destruct (move_cases xy direction area) as [(destination & Hstep & _) | Hfail].
    + rewrite (moveEntity_eq _ _ _ _ Hstep) in Hmove. cbv zeta in Hmove.
      destruct (Area.isValidAgentPosition area destination); simplify_eq; exact IH.
    + unfold Area.moveEntity, mbind, M_bind in Hmove. rewrite Hfail in Hmove.
      simplify_eq. exact IH.
Qed.

Lemma entitiesWithinBounds_same area area' :
  Area.width area' = Area.width area →
  Area.height area' = Area.height area →
  Area.entities area' = Area.entities area →
  entitiesWithinBounds area → entitiesWithinBounds area'.
Proof.
  intros Hw Hh He Hinv key entity. rewrite He. intros Hkey.
  destruct (Hinv key entity Hkey) as ((xy & -> & Hvalid) & Hkind).
  split; [|done]. exists xy. split; [done|].
  unfold Area.areCoordinatesValid in *. by rewrite Hw, Hh.
Qed.

(** C6, as the code has it: starting from a new [Area], after any
    sequence of [addEntity] calls that pass one of the entity kinds and a
    cell of the grid, [deleteEntity] calls and [moveEntity] calls from
    occupied cells, every key of the entity mapping is the key of a cell
    within the bounds and holds a kind other than [Empty]. *)
Theorem placed_entities_within_bounds width height area :
  placed width height area → entitiesWithinBounds area.
Proof.
  induction 1 as [|area xy entityType outcome area' Hplaced IH Hvalid Hadd
                  |area xy outcome area' Hplaced IH Hdel
                  |area xy direction outcome area' Hplaced IH Hocc Hmove].
  - intros key entity. cbn. by rewrite lookup_empty.
  - rewrite addEntityOf_Some in Hadd.
    destruct (Area.entities area !! Coordinates.toString xy) eqn:E.
    + rewrite addEntity_occupied in Hadd by (rewrite E; eexists; reflexivity).
      simplify_eq. exact IH.
    + rewrite addEntity_free in Hadd by done. simplify_eq.
      intros key entity. cbn [Area.entities].
      destruct (decide (entityType = Empty)) as [|Hkind]; [apply IH|].
      rewrite lookup_insert. case_decide as Hkey; [|apply IH].
      intros [= <-]. subst key. split; [|by eauto]. by exists xy.
  - rewrite deleteEntity_eq in Hdel. simplify_eq.
    intros key entity. cbn [Area.entities].
    rewrite lookup_delete. case_decide; [done|]. apply IH.
  - destruct (move_cases xy direction area) as [(destination & Hstep & _) | Hfail].
    + rewrite (moveEntity_eq _ _ _ _ Hstep) in Hmove. cbv zeta in Hmove.
      destruct (Area.isValidAgentPosition area destination) eqn:Hvalid;
        [|simplify_eq; exact IH].
      simplify_eq. intros key entity. cbn [Area.entities].
      rewrite lookup_delete. case_decide; [done|].
      rewrite lookup_insert. case_decide as Hkey; [|apply IH].
      intros [= <-]. subst key. split.
      * exists destination. split; [done|].
        exact (isValidAgentPosition_within area destination Hvalid).
      * destruct Hocc as [kind Hkind]. exists kind.
        unfold Area.entityAt, mapGet. rewrite Hkind. split; [done|].
        by destruct (IH _ _ Hkind) as [_ (kind' & [= <-] & ?)].
    + unfold Area.moveEntity, mbind, M_bind in Hmove. rewrite Hfail in Hmove.
      simplify_eq. exact IH.
Qed.

Lemma placed_entities_within_bounds_witness :
  entitiesWithinBounds
    (Area.moveEntity (Coordinates.mk 1 1) "left"
       (Area.addEntityOf (Coordinates.mk 1 1) (Some Agent) (Area.new 2 2)).2).2.
Proof.
  apply (placed_entities_within_bounds 2 2).
  apply (placed_move 2 2 (Area.addEntityOf (Coordinates.mk 1 1) (Some Agent) (Area.new 2 2)).2
                     (Coordinates.mk 1 1) "left" (Ok (Coordinates.mk 0 1))).
  - apply (placed_add 2 2 (Area.new 2 2) (Coordinates.mk 1 1) Agent (Ok tt));
      [apply placed_new | reflexivity | reflexivity].
  - exists Agent. reflexivity.
  - reflexivity.
Defined.

(** C6 as stated fails, in three ways, each shown on a new 2×2 area.
    [addEntity] does not check the bounds: a placement at (5,5) leaves the
    key of a cell outside the grid.  It does not check the kind either: a
    call with [undefined], which is not ["empty"], leaves a key that holds
    no kind.  And [moveEntity] stores whatever [entities.get] returned for
    the old cell: from an empty cell it leaves the key of the target with
    the value [undefined]. *)
Lemma entity_operations_counterexample :
  let outside := Area.addEntityOf (Coordinates.mk 5 5) (Some Wall) (Area.new 2 2) in
  let kindless := Area.addEntityOf (Coordinates.mk 0 0) None (Area.new 2 2) in
  let moved := Area.moveEntity (Coordinates.mk 0 0) "right" (Area.new 2 2) in
  (outside.1 = Ok tt ∧ ¬ entitiesWithinBounds outside.2)
  ∧ (kindless.1 = Ok tt ∧ ¬ entitiesWithinBounds kindless.2)
  ∧ (moved.1 = Ok (Coordinates.mk 1 0) ∧ ¬ entitiesWithinBounds moved.2).
Proof.
  intros outside kindless moved.
  split; [|split]; (split; [by vm_compute|]); intros Hinv.
  - destruct (Hinv (Coordinates.toString (Coordinates.mk 5 5)) (Some Wall))
      as ((xy & Hkey & Hvalid) & _); [by vm_compute|].
    apply toString_inj in Hkey. subst xy. discriminate Hvalid.
  - by destruct (Hinv (Coordinates.toString (Coordinates.mk 0 0)) None)
      as (_ & kind & ? & _); [by vm_compute|].
  - by destruct (Hinv (Coordinates.toString (Coordinates.mk 1 0)) None)
      as (_ & kind & ? & _); [by vm_compute|].
Qed.

End EntityMapping.

(** ** Sorting *)

Section Sorting.
Context {A : Type} (compare : A → A → Z).

Local Abbreviation before a b := (compare a b <? 0) (only parsing).

Lemma elem_of_sortInsert x sorted a :
  a ∈ sortInsert compare x sorted ↔ a = x ∨ a ∈ sorted.
Proof.
  induction sorted as [|y sorted IH]; cbn [sortInsert].
  - rewrite elem_of_cons, elem_of_nil. tauto.
  - destruct (compare y x <? 0); rewrite !elem_of_cons; [rewrite IH|]; tauto.
Qed.

Lemma elem_of_sortBy xs a : a ∈ sortBy compare xs ↔ a ∈ xs.
Proof.
  induction xs as [|x xs IH]; [done|].
  unfold sortBy in *. cbn [foldr]. rewrite elem_of_sortInsert, elem_of_cons, IH. tauto.
Qed.

Lemma head_sortInsert x sorted :
  head (sortInsert compare x sorted)
  = match head sorted with
    | Some y => if before y x then Some y else Some x
    | None => Some x
    end.
Proof. destruct sorted as [|y sorted]; [done|]. cbn. by destruct (_ <? _). Qed.

(** The first element of the sorted array is a least element, provided
    [compare] orders the elements consistently. *)
Lemma head_sortBy_least xs least :
  (∀ a b, a ∈ xs → b ∈ xs → before a b = true → before b a = false) →
  (∀ a b c, a ∈ xs → b ∈ xs → c ∈ xs →
     before a b = false → before b c = false → before a c = false) →
  head (sortBy compare xs) = Some least →
  least ∈ xs ∧ ∀ a, a ∈ xs → before a least = false.
Proof.
  revert least. induction xs as [|x xs IH]; intros least Hasym Hneg Hhead; [done|].
  unfold sortBy in Hhead. cbn [foldr] in Hhead. rewrite head_sortInsert in Hhead.
  fold (sortBy compare xs) in Hhead.
  assert (before x x = false) as Hxx.
  { destruct (before x x) eqn:E; [|done].
    rewrite <- (Hasym x x); [done| | |done]; apply elem_of_cons; by left. }
  destruct (head (sortBy compare xs)) as [y|] eqn:Hy.
  - destruct (IH y) as [Hin Hleast]; [| |done|].
    { intros a b Ha Hb. apply Hasym; apply elem_of_cons; by right. }
    { intros a b c Ha Hb Hc. apply Hneg; apply elem_of_cons; by right. }
    destruct (before y x) eqn:Hyx; simplify_eq.
    + split; [apply elem_of_cons; by right|].
      intros a [->|Ha]%elem_of_cons; [|by apply Hleast].
      apply Hasym; [apply elem_of_cons; by right | apply elem_of_cons; by left | done].
    + split; [apply elem_of_cons; by left|].
      intros a [->|Ha]%elem_of_cons; [done|].
      apply (Hneg a y least); try (apply elem_of_cons; by right);
        [apply elem_of_cons; by left | by apply Hleast | done].
  - simplify_eq. split; [apply elem_of_cons; by left|].
    intros a [->|Ha]%elem_of_cons; [done|].
    destruct xs as [|x' xs']; [by apply elem_of_nil in Ha|].
    unfold sortBy in Hy. cbn [foldr] in Hy. rewrite head_sortInsert in Hy.
    by repeat case_match.
Qed.

Lemma sortBy_nil_inv xs : sortBy compare xs = [] → xs = [].
Proof.
  destruct xs as [|x xs]; [done|]. intros E.
  assert (x ∈ sortBy compare (x :: xs)) as Hin by (apply elem_of_sortBy, elem_of_cons; by left).
  rewrite E in Hin. by apply elem_of_nil in Hin.
Qed.

End Sorting.

(** ** Numbers *)

Global Instance natInf_laws : NumberLaws natInf.
Proof.
  split; cbn.
  - intros [a|]; [apply N.ltb_irrefl | done].
  - intros [a|] [b|] [c|]; try done. rewrite !N.ltb_lt. lia.
  - intros [a|] [b|]; try done. rewrite !N.ltb_ge. intros. f_equal. lia.
  - done.
  - done.
  - done.
  - done.
  - by intros [a|] [b|].
  - done.
  - intros [a|] [b|]; try done. rewrite !N.ltb_lt. lia.
  - intros [a|] [b|]; try done. rewrite !N.ltb_ge. lia.
  - intros [a|] [b|] [c|]; try done. rewrite !N.ltb_lt. lia.
  - intros [a|] [b|] [c|]; try done. rewrite !N.ltb_lt. lia.
  - intros [a|] [b|] [c|]; try done. rewrite !N.ltb_lt. lia.
Qed.

Section NumberFacts.
Context {number : Number} {laws : NumberLaws number}.

Implicit Types a b c d h : num.

Lemma ltb_asymmetric a b : ltb a b = true → ltb b a = false.
Proof.
  intros Hab. destruct (ltb b a) eqn:Hba; [|done].
  by rewrite <- (ltb_irreflexive a), (ltb_transitive a b a).
Qed.

Lemma ltb_lt_le a b c : ltb a b = true → ltb c b = false → ltb a c = true.
Proof.
  intros Hab Hcb. destruct (ltb a c) eqn:Hac; [done|].
  destruct (ltb c a) eqn:Hca.
  - by rewrite (ltb_transitive c a b) in Hcb.
  - rewrite (ltb_connected a c) in Hab by done. congruence.
Qed.

Lemma ltb_le_lt a b c : ltb b a = false → ltb b c = true → ltb a c = true.
Proof.
  intros Hba Hbc. destruct (ltb a b) eqn:Hab.
  - by apply (ltb_transitive a b c).
  - by rewrite (ltb_connected a b).
Qed.

Lemma ltb_negatively_transitive a b c :
  ltb a b = false → ltb b c = false → ltb a c = false.
Proof.
  intros Hab Hbc. destruct (ltb a c) eqn:Hac; [|done].
  by rewrite (ltb_lt_le a c b) in Hab.
Qed.

Lemma not_finite_infinity a : ltb a infinity = false → a = infinity.
Proof. intros Ha. apply ltb_connected; [done | apply ltb_infinity]. Qed.

Lemma ltb_finite a b : ltb a b = true → ltb a infinity = true.
Proof. intros Hab. apply (ltb_lt_le a b); [done | apply ltb_infinity]. Qed.

Lemma infinity_not_finite : ltb (infinity : num) infinity = false.
Proof. apply ltb_irreflexive. Qed.

(** [distance = d + 1 + h]. *)
Lemma step_finite d h :
  ltb d infinity = true → ltb h infinity = true →
  ltb (add (add d one) h) infinity = true.
Proof. intros. apply add_finite; [apply add_finite|]; [done | apply one_finite | done]. Qed.

Lemma step_infinity h : add (add infinity one) h = infinity.
Proof. by rewrite !add_infinity. Qed.

Lemma step_increase d h :
  ltb d infinity = true → ltb h zero = false → ltb d (add (add d one) h) = true.
Proof.
  intros Hd Hh. apply (ltb_lt_le d (add d one)).
  - apply add_increase; [done | apply one_positive].
  - by apply add_nondecrease.
Qed.

Lemma step_monotone a b h :
  ltb (add (add a one) h) (add (add b one) h) = true → ltb a b = true.
Proof. intros Hlt. by do 2 apply add_monotone in Hlt. Qed.

(** An improvement can only come from a finite distance. *)
Lemma step_improves_finite d h c :
  ltb (add (add d one) h) c = true → ltb d infinity = true.
Proof.
  intros Hlt. destruct (ltb d infinity) eqn:Hd; [done|].
  apply not_finite_infinity in Hd. subst d.
  by rewrite step_infinity, ltb_infinity in Hlt.
Qed.

Lemma step_nonnegative d h :
  ltb d zero = false → ltb h zero = false → ltb (add (add d one) h) zero = false.
Proof.
  intros Hd Hh. destruct (ltb (add (add d one) h) zero) eqn:Hlt; [|done].
  pose proof (step_improves_finite _ _ _ Hlt) as Hfin.
  pose proof (step_increase d h Hfin Hh) as Hinc.
  by rewrite (ltb_transitive d (add (add d one) h) zero) in Hd.
Qed.

Lemma lessThan_Some a b : Area.lessThan (Some a) (Some b) = ltb a b.
Proof. reflexivity. Qed.

Lemma lessThan_true x y :
  Area.lessThan x y = true ↔ ∃ a b, x = Some a ∧ y = Some b ∧ ltb a b = true.
Proof.
  split.
  - destruct x as [a|], y as [b|]; try done. intros. by exists a, b.
  - by intros (a & b & -> & -> & ?).
Qed.

Lemma compareDistances_before (distances : gmap string num) key key' :
  (Area.compareDistances distances key key' <? 0)
  = Area.lessThan (distances !! key) (distances !! key').
Proof. unfold Area.compareDistances. by repeat case_match. Qed.

End NumberFacts.

(** ** The cache of parsed keys *)

Section Cache.

Implicit Types (cache : gmap string Coordinates.t) (keys : list string).

Lemma cacheConsistent_empty : cacheConsistent ∅.
Proof. intros key xy. by rewrite lookup_empty. Qed.

Lemma createCoordinatesFromString_consistent key cache :
  cacheConsistent cache →
  ∃ cache',
    createCoordinatesFromString key cache
    = (match parseCoordinates key with Some xy => Ok xy | None => Stuck end, cache')
    ∧ cacheConsistent cache'.
Proof.
  intros Hcache. unfold createCoordinatesFromString.
  destruct (cache !! key) as [xy|] eqn:Hhit.
  - exists cache. by rewrite (Hcache _ _ Hhit).
  - destruct (parseCoordinates key) as [xy|] eqn:Hparse.
    + exists (<[key := xy]> cache). split; [done|].
      intros key' xy'. rewrite lookup_insert. case_decide; [|apply Hcache].
      intros [= <-]. by subst.
    + by exists cache.
Qed.

(** The coordinates delivered do not depend on what the cache holds. *)
Lemma mapArray_create_consistent keys cache :
  cacheConsistent cache →
  ∃ cache',
    mapArray createCoordinatesFromString keys cache
    = (match mapM parseCoordinates keys with Some xys => Ok xys | None => Stuck end, cache')
    ∧ cacheConsistent cache'.
Proof.
  revert cache. induction keys as [|key keys IH]; intros cache Hcache.
  - by exists cache.
  - cbn [mapArray mapM]. unfold mbind at 1, M_bind at 1.
    destruct (createCoordinatesFromString_consistent key cache Hcache)
      as (cache1 & -> & Hcache1).
    destruct (parseCoordinates key) as [xy|]; [|by exists cache1].
    unfold mbind at 1, M_bind at 1.
    destruct (IH cache1 Hcache1) as (cache2 & -> & Hcache2).
    cbn. destruct (mapM parseCoordinates keys); by exists cache2.
Qed.

Lemma mapM_parse_keyed keys :
  keyed keys →
  ∃ xys, keys = Coordinates.toString <$> xys ∧ mapM parseCoordinates keys = Some xys.
Proof.
  induction keys as [|key keys IH]; intros Hkeyed; [by exists []|].
  destruct (Hkeyed key) as [xy ->]; [apply elem_of_cons; by left|].
  destruct IH as (xys & -> & Hparse).
  { intros key' Hin. apply Hkeyed, elem_of_cons. by right. }
  exists (xy :: xys). split; [done|].
  cbn [mapM]. rewrite parseCoordinates_toString. cbn. by rewrite Hparse.
Qed.

End Cache.

(** ** The outer loop of [findDijkstraPath] *)

Section Loop.
Context {number : Number}.

Implicit Types (search : Area.Search) (cache : gmap string Coordinates.t).

Lemma updateDistance_unvisitedNodes getHeuristic current search neighbour :
  Area.unvisitedNodes (Area.updateDistance getHeuristic current search neighbour)
  = Area.unvisitedNodes search.
Proof. unfold Area.updateDistance. by repeat case_match. Qed.

Lemma foldl_updateDistance_unvisitedNodes getHeuristic current neighbours search :
  Area.unvisitedNodes (foldl (Area.updateDistance getHeuristic current) search neighbours)
  = Area.unvisitedNodes search.
Proof.
  revert search. induction neighbours as [|n ns IH]; intros search; [done|].
  cbn [foldl]. by rewrite IH, updateDistance_unvisitedNodes.
Qed.

Lemma advance_unvisitedNodes area getHeuristic current search :
  Area.unvisitedNodes (advance area getHeuristic current search)
  = List.filter (λ key, negb (String.eqb key (Coordinates.toString current)))
      (Area.unvisitedNodes search).
Proof. unfold advance. by rewrite foldl_updateDistance_unvisitedNodes. Qed.

Lemma elem_of_remaining key current (keys : list string) :
  key ∈ List.filter (λ key, negb (String.eqb key current)) keys ↔ key ∈ keys ∧ key ≠ current.
Proof.
  rewrite !list_elem_of_In, filter_In, negb_true_iff.
  destruct (String.eqb_spec key current); intuition congruence.
Qed.

Lemma length_remaining current (keys : list string) :
  current ∈ keys →
  (length (List.filter (λ key, negb (String.eqb key current)) keys) < length keys)%nat.
Proof.
  induction keys as [|key keys IH]; [by intros ?%elem_of_nil|].
  intros Hin. cbn [List.filter].
  pose proof (filter_length_le (λ key, negb (String.eqb key current)) keys) as Hle.
  destruct (String.eqb_spec key current) as [->|Hne]; cbn [negb length]; [lia|].
  apply elem_of_cons in Hin as [->|Hin]; [done|]. specialize (IH Hin). lia.
Qed.

Lemma selected_unvisited search current :
  selected search current → Coordinates.toString current ∈ Area.unvisitedNodes search.
Proof.
  unfold selected. intros Hhead.
  apply (elem_of_sortBy (Area.compareDistances (Area.distances search))).
  destruct (sortBy _ _) as [|key keys]; [done|].
  cbn in Hhead. injection Hhead as ->. apply list_elem_of_here.
Qed.

(** One iteration, once the cache is known to be consistent. *)
Lemma searchLoop_unfold fuel traceFuel area destination getHeuristic search cache :
  cacheConsistent cache →
  keyed (Area.unvisitedNodes search) →
  Area.unvisitedNodes search ≠ [] →
  ∃ current cache',
    selected search current
    ∧ cacheConsistent cache'
    ∧ Area.searchLoop (S fuel) traceFuel area destination getHeuristic search cache
      = if Coordinates.equals current destination then
          Area.tracePath traceFuel (Area.previousDistances search)
            (Area.previousDistances search !! Coordinates.toString current) [] cache'
        else
          Area.searchLoop fuel traceFuel area destination getHeuristic
            (advance area getHeuristic current search) cache'.
Proof.
  intros Hcache Hkeyed Hnonempty. cbn [Area.searchLoop].
  destruct (length (Area.unvisitedNodes search) =? 0)%nat eqn:Hlen.
  { apply Nat.eqb_eq, length_zero_iff_nil in Hlen. done. }
  set (sorted := sortBy _ _).
  assert (keyed sorted) as Hsorted.
  { intros key Hin. apply Hkeyed. by apply elem_of_sortBy in Hin. }
  destruct (mapM_parse_keyed sorted Hsorted) as (xys & Hkeys & Hparse).
  destruct (mapArray_create_consistent sorted cache Hcache) as (cache' & Hrun & Hcache').
  rewrite Hparse in Hrun. unfold mbind, M_bind. rewrite Hrun.
  destruct xys as [|current xys].
  { cbn in Hkeys. by apply sortBy_nil_inv in Hkeys. }
  exists current, cache'. split; [|split; [done|]].
  - unfold selected. fold sorted. by rewrite Hkeys.
  - by destruct (Coordinates.equals current destination).
Qed.

(** The loop rule: what holds of the search when the destination is
    extracted, given an invariant of the iterations. *)
Lemma searchLoop_invariant (P : Area.Search → Prop) traceFuel area destination getHeuristic :
  (∀ search, P search → keyed (Area.unvisitedNodes search)) →
  (∀ search current,
     P search → selected search current → current ≠ destination →
     P (advance area getHeuristic current search)) →
  ∀ fuel search cache,
    P search → cacheConsistent cache →
    (length (Area.unvisitedNodes search) < fuel)%nat →
    ∃ cache',
      cacheConsistent cache'
      ∧ ((∃ search',
            P search' ∧ selected search' destination
            ∧ (Area.searchLoop fuel traceFuel area destination getHeuristic search cache
               = Area.tracePath traceFuel (Area.previousDistances search')
                   (Area.previousDistances search' !! Coordinates.toString destination) []
                   cache'))
         ∨ ((Coordinates.toString destination ∉ Area.unvisitedNodes search)
            ∧ (Area.searchLoop fuel traceFuel area destination getHeuristic search cache
               = (Ok [], cache')))).
Proof.
  intros Hkeyed Hstep. induction fuel as [|fuel IH]; intros search cache HP Hcache Hfuel; [lia|].
  destruct (decide (Area.unvisitedNodes search = [])) as [Hempty|Hnonempty].
  { exists cache. split; [done|]. right. rewrite Hempty. split; [apply not_elem_of_nil|].
    cbn [Area.searchLoop]. by rewrite Hempty. }
  destruct (searchLoop_unfold fuel traceFuel area destination getHeuristic search cache)
    as (current & cache1 & Hsel & Hcache1 & ->); [done|by apply Hkeyed|done|].
  destruct (Coordinates.equals current destination) eqn:Heq.
  - apply equals_true in Heq as ->. exists cache1. split; [done|]. left. by exists search.
  - apply equals_false in Heq.
    destruct (IH (advance area getHeuristic current search) cache1) as (cache2 & Hcache2 & Hcases).
    + by apply Hstep.
    + done.
    + rewrite advance_unvisitedNodes.
      pose proof (length_remaining _ _ (selected_unvisited _ _ Hsel)). lia.
    + exists cache2. split; [done|]. destruct Hcases as [Hfound|[Habsent Hrun]]; [by left|].
      right. split; [|done]. intros Hin. apply Habsent.
      rewrite advance_unvisitedNodes. apply elem_of_remaining. split; [done|].
      intros E%toString_inj. by subst.
Qed.

End Loop.

(** ** Invariants of the search *)

Section Invariants.
Context {number : Number} {laws : NumberLaws number}.
Variables (area : Area.t) (source : Coordinates.t) (getHeuristic : Coordinates.t → num).
Hypothesis heuristic_admissible : admissible getHeuristic.

Implicit Types (search : Area.Search) (current n : Coordinates.t).

Local Abbreviation consistent := (consistent area source getHeuristic).
Local Abbreviation latest := (latest area source).
Local Abbreviation relaxed := (relaxed area getHeuristic).
Local Abbreviation key xy := (Coordinates.toString xy).

Lemma unvisited_distance search k :
  consistent search → k ∈ Area.unvisitedNodes search →
  is_Some (Area.distances search !! k).
Proof. intros Hcons Hin. apply (distance_nodes _ _ _ _ Hcons), (unvisited_nodes _ _ _ _ Hcons), Hin. Qed.

(** The extracted node is nearest among the unvisited ones. *)
Lemma selected_least search current k d dc :
  consistent search → selected search current →
  k ∈ Area.unvisitedNodes search →
  Area.distances search !! k = Some d →
  Area.distances search !! key current = Some dc →
  ltb d dc = false.
Proof.
  intros Hcons Hsel Hin Hd Hdc.
  destruct (head_sortBy_least (Area.compareDistances (Area.distances search))
              (Area.unvisitedNodes search) (key current)) as [_ Hleast]; [| |done|].
  - intros a b Ha Hb. rewrite !compareDistances_before.
    destruct (unvisited_distance _ _ Hcons Ha) as [da ->].
    destruct (unvisited_distance _ _ Hcons Hb) as [db ->].
    apply ltb_asymmetric.
  - intros a b c Ha Hb Hc. rewrite !compareDistances_before.
    destruct (unvisited_distance _ _ Hcons Ha) as [da ->].
    destruct (unvisited_distance _ _ Hcons Hb) as [db ->].
    destruct (unvisited_distance _ _ Hcons Hc) as [dc' ->].
    apply ltb_negatively_transitive.
  - specialize (Hleast k Hin). by rewrite compareDistances_before, Hd, Hdc in Hleast.
Qed.

Lemma selected_node search current :
  consistent search → selected search current → node area source current.
Proof.
  intros Hcons Hsel.
  destruct (unvisited_nodes _ _ _ _ Hcons _ (selected_unvisited _ _ Hsel)) as (xy & E & Hnode).
  apply toString_inj in E. by subst.
Qed.

(** Taking the extracted node out of [unvisitedNodes]. *)
Lemma extract_consistent search current :
  consistent search → selected search current →
  let search' :=
    Area.mkSearch
      (List.filter (λ k, negb (String.eqb k (key current))) (Area.unvisitedNodes search))
      (Area.distances search) (Area.previousDistances search) in
  consistent search' ∧ latest search' current.
Proof.
  intros Hcons Hsel search'.
  assert (∀ k, k ∉ Area.unvisitedNodes search' →
               k ∉ Area.unvisitedNodes search ∨ k = key current) as Hvisited.
  { intros k Hk. destruct (decide (k = key current)); [by right|left].
    intros Hin. apply Hk. by apply elem_of_remaining. }
  split; [split|].
  - intros k [Hin _]%elem_of_remaining. by apply (unvisited_nodes _ _ _ _ Hcons).
  - apply (distance_nodes _ _ _ _ Hcons).
  - apply (distance_count _ _ _ _ Hcons).
  - apply (distance_nonnegative _ _ _ _ Hcons).
  - apply (source_distance _ _ _ _ Hcons).
  - intros k u Hprev.
    destruct (previous_edge _ _ _ _ Hcons k u Hprev)
      as (v & du & -> & ? & ? & ? & ? & Hu & ? & ? & ?).
    exists v, du. repeat (split; [done|]). split; [|done].
    intros [Hin _]%elem_of_remaining. by apply Hu.
  - apply (finite_previous _ _ _ _ Hcons).
  - intros visited unvisited dv du Hdv Hdu Hvis [Hin Hne]%elem_of_remaining.
    destruct (Hvisited _ Hvis) as [Hold | ->].
    + by apply (settled _ _ _ _ Hcons visited unvisited).
    + by apply (selected_least search current unvisited).
  - split; [|split].
    + intros [_ Hne]%elem_of_remaining. done.
    + by apply (selected_node search).
    + intros visited dv dc Hvis Hdv Hdc. cbn in Hdv, Hdc.
      destruct (Hvisited _ Hvis) as [Hold | ->].
      * apply (settled _ _ _ _ Hcons visited (key current)); try done.
        by apply selected_unvisited.
      * simplify_eq. apply ltb_irreflexive.
Qed.

Lemma updateDistance_cases current search n :
  (Area.updateDistance getHeuristic current search n = search
   ∧ ∀ dc dn,
       Area.distances search !! key current = Some dc →
       Area.distances search !! key n = Some dn →
       ltb (add (add dc one) (getHeuristic n)) dn = false)
  ∨ ∃ dc dn,
      Area.distances search !! key current = Some dc
      ∧ Area.distances search !! key n = Some dn
      ∧ ltb (add (add dc one) (getHeuristic n)) dn = true
      ∧ Area.updateDistance getHeuristic current search n
        = Area.mkSearch (Area.unvisitedNodes search)
            (<[key n := add (add dc one) (getHeuristic n)]> (Area.distances search))
            (<[key n := current]> (Area.previousDistances search)).
Proof.
  unfold Area.updateDistance.
  destruct (Area.distances search !! key current) as [dc|]; [|by left].
  destruct (Area.distances search !! key n) as [dn|] eqn:Hdn; [|by left].
  cbn. destruct (ltb _ dn) eqn:Hlt.
  - right. by exists dc, dn.
  - left. split; [done|]. by intros ? ? [= <-] [= <-].
Qed.

(** Relaxing one edge out of the node extracted last. *)
Lemma updateDistance_consistent current search n :
  consistent search → latest search current →
  n ∈ Coordinates.getNeighbours current (Area.allowDiagonalsInPaths area) →
  consistent (Area.updateDistance getHeuristic current search n)
  ∧ latest (Area.updateDistance getHeuristic current search n) current.
Proof.
  intros Hcons (Hcurrent & Hnode & Hlatest) Hn.
  destruct (updateDistance_cases current search n)
    as [[-> _] | (dc & dn & Hdc & Hdn & Hlt & ->)]; [done|].
  set (distance := add (add dc one) (getHeuristic n)) in *.
  destruct (heuristic_admissible n) as [Hh0 Hhfin].
  pose proof (step_improves_finite _ _ _ Hlt) as Hdcfin.
  pose proof (step_increase dc _ Hdcfin Hh0) as Hinc. fold distance in Hinc.
  pose proof (ltb_finite _ _ Hlt) as Hfin.
  pose proof (distance_nonnegative _ _ _ _ Hcons _ _ Hdc) as Hdc0.
  pose proof (step_nonnegative dc _ Hdc0 Hh0) as Hdist0. fold distance in Hdist0.
  assert (n ≠ source) as Hsource.
  { intros ->. rewrite (source_distance _ _ _ _ Hcons) in Hdn. simplify_eq. congruence. }
  assert (Area.isValidAgentPosition area n = true) as Hvalid.
  { destruct (proj1 (distance_nodes _ _ _ _ Hcons (key n))) as (xy & E & [->|Hv]);
      [by eexists | | ]; apply toString_inj in E; by subst. }
  assert (key n ∈ Area.unvisitedNodes search) as Hunvisited.
  { destruct (decide (key n ∈ Area.unvisitedNodes search)) as [|Hvis]; [done|].
    pose proof (Hlatest _ _ _ Hvis Hdn Hdc) as Hle.
    by rewrite (ltb_transitive dc distance dn) in Hle. }
  assert (key n ≠ key current) as Hne by congruence.
  assert (key n ≠ key source) as Hnes by (by intros ?%toString_inj).
  split; [split|]; cbn [Area.unvisitedNodes Area.distances Area.previousDistances].
  - apply (unvisited_nodes _ _ _ _ Hcons).
  - intros k. rewrite <- (distance_nodes _ _ _ _ Hcons k), lookup_insert.
    case_decide; [subst; split; by eauto|done].
  - rewrite map_size_insert_Some by eauto. apply (distance_count _ _ _ _ Hcons).
  - intros k d. rewrite lookup_insert. case_decide; [by intros [= <-]|].
    apply (distance_nonnegative _ _ _ _ Hcons).
  - rewrite lookup_insert_ne by done. apply (source_distance _ _ _ _ Hcons).
  - intros k u. rewrite lookup_insert. case_decide as Hk.
    + intros [= <-]. subst k. exists n, dc.
      rewrite lookup_insert_ne, lookup_insert_eq by done. done.
    + intros Hprev.
      destruct (previous_edge _ _ _ _ Hcons k u Hprev)
        as (v & du & -> & ? & ? & ? & ? & Hu & ? & ? & ?).
      exists v, du. rewrite !lookup_insert_ne by congruence. done.
  - intros k d. rewrite !lookup_insert. case_decide; [by eauto|].
    apply (finite_previous _ _ _ _ Hcons).
  - intros visited unvisited dv du. rewrite !lookup_insert.
    case_decide; [by subst|]. case_decide.
    + intros Hdv [= <-] Hvis _. apply ltb_asymmetric.
      apply (ltb_le_lt dv dc distance); [by apply (Hlatest visited)|done].
    + apply (settled _ _ _ _ Hcons).
  - split; [done|]. split; [done|]. cbn [Area.unvisitedNodes Area.distances].
    intros visited dv dc' Hvis. rewrite (lookup_insert_ne _ (key n) (key current)) by done.
    rewrite lookup_insert. case_decide; [by subst|]. by apply Hlatest.
Qed.

Lemma foldl_updateDistance_consistent current neighbours search :
  consistent search → latest search current →
  neighbours ⊆ Coordinates.getNeighbours current (Area.allowDiagonalsInPaths area) →
  consistent (foldl (Area.updateDistance getHeuristic current) search neighbours)
  ∧ latest (foldl (Area.updateDistance getHeuristic current) search neighbours) current.
Proof.
  revert search. induction neighbours as [|n ns IH]; intros search Hcons Hlatest Hsub; [done|].
  cbn [foldl].
  destruct (updateDistance_consistent current search n) as [Hcons' Hlatest']; [done..| |].
  { apply Hsub, list_elem_of_here. }
  apply IH; [done..|]. intros n' Hin. apply Hsub. by apply list_elem_of_further.
Qed.

(** One iteration keeps the maps consistent. *)
Lemma advance_consistent search current :
  consistent search → selected search current →
  consistent (advance area getHeuristic current search)
  ∧ latest (advance area getHeuristic current search) current.
Proof.
  intros Hcons Hsel. destruct (extract_consistent search current Hcons Hsel) as [Hcons' Hlatest].
  by apply foldl_updateDistance_consistent.
Qed.

(** Only an unvisited node other than the source is ever improved. *)
Lemma updateDistance_target current search n dc dn :
  consistent search → latest search current →
  Area.distances search !! key current = Some dc →
  Area.distances search !! key n = Some dn →
  ltb (add (add dc one) (getHeuristic n)) dn = true →
  key n ∈ Area.unvisitedNodes search.
Proof.
  intros Hcons (Hcurrent & Hnode & Hlatest) Hdc Hdn Hlt.
  destruct (heuristic_admissible n) as [Hh0 Hhfin].
  pose proof (step_increase dc _ (step_improves_finite _ _ _ Hlt) Hh0) as Hinc.
  destruct (decide (key n ∈ Area.unvisitedNodes search)) as [|Hvis]; [done|].
  pose proof (Hlatest _ _ _ Hvis Hdn Hdc) as Hle.
  by rewrite (ltb_transitive dc (add (add dc one) (getHeuristic n)) dn) in Hle.
Qed.

Lemma updateDistance_visited current search n k :
  consistent search → latest search current →
  k ∉ Area.unvisitedNodes search →
  Area.distances (Area.updateDistance getHeuristic current search n) !! k
  = Area.distances search !! k.
Proof.
  intros Hcons Hlatest Hvis.
  destruct (updateDistance_cases current search n)
    as [[-> _] | (dc & dn & Hdc & Hdn & Hlt & ->)]; [done|].
  cbn [Area.distances]. rewrite lookup_insert_ne; [done|]. intros <-.
  by apply Hvis, (updateDistance_target current search n dc dn).
Qed.

Lemma updateDistance_decrease current search n k d :
  Area.distances search !! k = Some d →
  ∃ d', Area.distances (Area.updateDistance getHeuristic current search n) !! k = Some d'
        ∧ ltb d d' = false.
Proof.
  intros Hd.
  destruct (updateDistance_cases current search n)
    as [[-> _] | (dc & dn & Hdc & Hdn & Hlt & ->)].
  - exists d. split; [done | apply ltb_irreflexive].
  - cbn [Area.distances]. rewrite lookup_insert. case_decide.
    + subst k. simplify_eq. eexists. split; [done|]. by apply ltb_asymmetric.
    + exists d. split; [done | apply ltb_irreflexive].
Qed.

Lemma foldl_updateDistance_visited current neighbours search k :
  consistent search → latest search current →
  neighbours ⊆ Coordinates.getNeighbours current (Area.allowDiagonalsInPaths area) →
  k ∉ Area.unvisitedNodes search →
  Area.distances (foldl (Area.updateDistance getHeuristic current) search neighbours) !! k
  = Area.distances search !! k.
Proof.
  revert search. induction neighbours as [|n ns IH]; intros search Hcons Hlatest Hsub Hvis; [done|].
  cbn [foldl].
  destruct (updateDistance_consistent current search n) as [Hcons' Hlatest']; [done..| |].
  { apply Hsub, list_elem_of_here. }
  rewrite IH; [by apply updateDistance_visited|done..| |].
  - intros n' Hin. apply Hsub. by apply list_elem_of_further.
  - by rewrite updateDistance_unvisitedNodes.
Qed.

Lemma foldl_updateDistance_decrease current neighbours search k d :
  Area.distances search !! k = Some d →
  ∃ d', Area.distances (foldl (Area.updateDistance getHeuristic current) search neighbours)
          !! k = Some d'
        ∧ ltb d d' = false.
Proof.
  revert search d. induction neighbours as [|n ns IH]; intros search d Hd.
  - exists d. split; [done | apply ltb_irreflexive].
  - cbn [foldl].
    destruct (updateDistance_decrease current search n k d Hd) as (d1 & Hd1 & Hle1).
    destruct (IH _ _ Hd1) as (d2 & Hd2 & Hle2).
    exists d2. split; [done|]. by apply (ltb_negatively_transitive d d1 d2).
Qed.

(** After the [forEach], every edge out of [current] is relaxed. *)
Lemma foldl_updateDistance_relaxed current neighbours search n dc dn :
  consistent search → latest search current →
  neighbours ⊆ Coordinates.getNeighbours current (Area.allowDiagonalsInPaths area) →
  n ∈ neighbours →
  let search' := foldl (Area.updateDistance getHeuristic current) search neighbours in
  Area.distances search' !! key current = Some dc →
  Area.distances search' !! key n = Some dn →
  ltb (add (add dc one) (getHeuristic n)) dn = false.
Proof.
  revert search. induction neighbours as [|n' ns IH];
    intros search Hcons Hlatest Hsub Hin search' Hdc Hdn; [by apply elem_of_nil in Hin|].
  subst search'. cbn [foldl] in Hdc, Hdn.
  destruct (updateDistance_consistent current search n') as [Hcons' Hlatest']; [done..| |].
  { apply Hsub, list_elem_of_here. }
  assert (ns ⊆ Coordinates.getNeighbours current (Area.allowDiagonalsInPaths area)) as Hsub'.
  { intros m Hm. apply Hsub. by apply list_elem_of_further. }
  destruct (decide (n ∈ ns)) as [Hns|Hns]; [by apply (IH _ Hcons' Hlatest' Hsub' Hns)|].
  apply elem_of_cons in Hin as [->|Hin]; [|done].
  set (search1 := Area.updateDistance getHeuristic current search n') in *.
  assert (Area.distances search1 !! key current = Some dc) as Hdc1.
  { rewrite <- Hdc. symmetry. apply foldl_updateDistance_visited; try done.
    apply Hlatest'. }
  assert (∃ dn1, Area.distances search1 !! key n' = Some dn1
                 ∧ ltb (add (add dc one) (getHeuristic n')) dn1 = false) as (dn1 & Hdn1 & Hle1).
  { assert (Area.distances search !! key current = Some dc) as Hdc0.
    { rewrite <- Hdc1. symmetry. apply updateDistance_visited; try done. apply Hlatest. }
    assert (is_Some (Area.distances search !! key n')) as [dn0 Hdn0].
    { apply (distance_nodes _ _ _ _ Hcons).
      destruct (foldl_updateDistance_consistent current ns _ Hcons' Hlatest' Hsub')
        as [Hcons2 _].
      apply (distance_nodes _ _ _ _ Hcons2). by eexists. }
    subst search1.
    destruct (updateDistance_cases current search n')
      as [[-> Hno] | (dc' & dn' & Hdc' & Hdn' & Hlt & ->)].
    - exists dn0. split; [done|]. by apply Hno.
    - simplify_eq. cbn [Area.distances]. rewrite lookup_insert_eq. eexists. split; [done|].
      apply ltb_irreflexive. }
  destruct (foldl_updateDistance_decrease current ns search1 _ _ Hdn1) as (dn2 & Hdn2 & Hle2).
  rewrite Hdn in Hdn2. simplify_eq.
  by apply (ltb_negatively_transitive _ dn1 dn2).
Qed.

(** One iteration keeps every edge out of a visited node relaxed. *)
Lemma advance_relaxed search current :
  consistent search → relaxed search → selected search current →
  relaxed (advance area getHeuristic current search).
Proof.
  intros Hcons Hrelaxed Hsel.
  destruct (extract_consistent search current Hcons Hsel) as [Hcons0 Hlatest0].
  destruct (advance_consistent search current Hcons Hsel) as [Hcons' Hlatest'].
  intros u n du dn Hvis Hn Hdu Hdn. rewrite advance_unvisitedNodes in Hvis.
  destruct (decide (u = current)) as [->|Hne].
  - by apply (foldl_updateDistance_relaxed current
                (Coordinates.getNeighbours current (Area.allowDiagonalsInPaths area))
                _ n du dn Hcons0 Hlatest0).
  - assert (key u ∉ Area.unvisitedNodes search) as Hold.
    { intros Hin. apply Hvis, elem_of_remaining. split; [done|]. by intros ?%toString_inj. }
    unfold advance in Hdu. rewrite foldl_updateDistance_visited in Hdu; [|done..].
    cbn [Area.distances] in Hdu.
    assert (is_Some (Area.distances search !! key n)) as [dn0 Hdn0].
    { apply (distance_nodes _ _ _ _ Hcons), (distance_nodes _ _ _ _ Hcons'). by eexists. }
    destruct (foldl_updateDistance_decrease current
                (Coordinates.getNeighbours current (Area.allowDiagonalsInPaths area))
                (Area.mkSearch
                   (List.filter (λ k, negb (String.eqb k (key current)))
                                (Area.unvisitedNodes search))
                   (Area.distances search) (Area.previousDistances search))
                (key n) dn0 Hdn0) as (dn' & Hdn' & Hle).
    unfold advance in Hdn. rewrite Hdn in Hdn'. simplify_eq.
    destruct (ltb (add (add du one) (getHeuristic n)) dn') eqn:Hlt; [|done].
    pose proof (ltb_lt_le _ _ _ Hlt Hle) as Hbad.
    by rewrite (Hrelaxed u n du dn0) in Hbad.
Qed.

End Invariants.

(** ** The initial maps *)

Local Set Warnings "-clear-no-such-hyp".

Section Initial.
Context {number : Number} {laws : NumberLaws number}.
Variables (area : Area.t) (source : Coordinates.t).

Local Abbreviation unseen xy :=
  (Area.isValidAgentPosition area xy && negb (Coordinates.equals source xy) = true).

Local Abbreviation scan :=
  (foldl
     (λ search xy,
        if Area.isValidAgentPosition area xy && negb (Coordinates.equals source xy) then
          Area.mkSearch
            (Area.setUnvisited (Coordinates.toString xy) (Area.unvisitedNodes search))
            (<[Coordinates.toString xy := infinity]> (Area.distances search))
            (Area.previousDistances search)
        else search)).

Lemma elem_of_setUnvisited k k' keys :
  k ∈ Area.setUnvisited k' keys ↔ k ∈ keys ∨ k = k'.
Proof.
  unfold Area.setUnvisited. case_bool_decide as Hin.
  - split; [by left|]. by intros [?| ->].
  - rewrite elem_of_app, list_elem_of_singleton. tauto.
Qed.

Lemma length_setUnvisited k keys :
  (length (Area.setUnvisited k keys) ≤ S (length keys))%nat.
Proof.
  unfold Area.setUnvisited. case_bool_decide; [lia|]. rewrite length_app. cbn. lia.
Qed.

Lemma scan_spec cells search0 :
  let search := scan search0 cells in
  (∀ k, k ∈ Area.unvisitedNodes search
        ↔ k ∈ Area.unvisitedNodes search0
          ∨ ∃ xy, xy ∈ cells ∧ unseen xy ∧ k = Coordinates.toString xy)
  ∧ (∀ k d, Area.distances search !! k = Some d →
            (∃ xy, xy ∈ cells ∧ unseen xy ∧ k = Coordinates.toString xy ∧ d = infinity)
            ∨ Area.distances search0 !! k = Some d)
  ∧ (∀ k, is_Some (Area.distances search0 !! k) → is_Some (Area.distances search !! k))
  ∧ (∀ xy, xy ∈ cells → unseen xy →
           is_Some (Area.distances search !! Coordinates.toString xy))
  ∧ Area.previousDistances search = Area.previousDistances search0
  ∧ (size (Area.distances search) ≤ size (Area.distances search0) + length cells)%nat
  ∧ (length (Area.unvisitedNodes search)
     ≤ length (Area.unvisitedNodes search0) + length cells)%nat.
Proof.
  revert search0. induction cells as [|cell cells IH]; intros search0 search.
  - subst search. cbn [foldl length]. repeat split; try done; try lia.
    + by left.
    + intros [?|(? & []%elem_of_nil & _)]. done.
    + by right.
    + by intros ? ?%elem_of_nil.
  - subst search. cbn [foldl].
    set (search1 := if _ && _ then _ else search0).
    destruct (IH search1) as (Hun & Hdist & Hkeep & Hnew & Hprev & Hsize & Hlen).
    assert (∀ k, k ∈ Area.unvisitedNodes search1
                 ↔ k ∈ Area.unvisitedNodes search0
                   ∨ (unseen cell ∧ k = Coordinates.toString cell)) as Hun1.
    { intros k. subst search1. destruct (_ && _); cbn [Area.unvisitedNodes].
      - rewrite elem_of_setUnvisited. naive_solver.
      - naive_solver. }
    assert (∀ k d, Area.distances search1 !! k = Some d →
                   (unseen cell ∧ k = Coordinates.toString cell ∧ d = infinity)
                   ∨ Area.distances search0 !! k = Some d) as Hdist1.
    { intros k d. subst search1. destruct (_ && _); cbn [Area.distances]; [|by right].
      rewrite lookup_insert. case_decide; [|by right]. intros [= <-]. by left. }
    assert (∀ k, is_Some (Area.distances search0 !! k)
                 → is_Some (Area.distances search1 !! k)) as Hkeep1.
    { intros k. subst search1. destruct (_ && _); cbn [Area.distances]; [|done].
      rewrite lookup_insert. case_decide; eauto. }
    assert (unseen cell → is_Some (Area.distances search1 !! Coordinates.toString cell))
      as Hnew1.
    { intros Hc. subst search1. rewrite Hc. cbn [Area.distances].
      rewrite lookup_insert_eq. eauto. }
    assert (Area.previousDistances search1 = Area.previousDistances search0) as Hprev1.
    { subst search1. by destruct (_ && _). }
    assert (size (Area.distances search1) ≤ S (size (Area.distances search0)))%nat as Hsize1.
    { subst search1. destruct (_ && _); cbn [Area.distances]; [|lia].
      destruct (Area.distances search0 !! Coordinates.toString cell) eqn:E.
      - rewrite map_size_insert_Some by eauto. lia.
      - rewrite map_size_insert_None by done. lia. }
    assert (length (Area.unvisitedNodes search1)
            ≤ S (length (Area.unvisitedNodes search0)))%nat as Hlen1.
    { subst search1. destruct (_ && _); cbn [Area.unvisitedNodes]; [|lia].
      apply length_setUnvisited. }
    split; [|split; [|split; [|split; [|split; [|split]]]]].
    + intros k. rewrite Hun, Hun1. setoid_rewrite elem_of_cons. naive_solver.
    + intros k d Hd. destruct (Hdist k d Hd) as [(xy & ? & ? & ? & ?)|Hd1].
      * left. exists xy. rewrite elem_of_cons. naive_solver.
      * destruct (Hdist1 k d Hd1) as [(? & ? & ?)|?]; [left|by right].
        exists cell. rewrite elem_of_cons. naive_solver.
    + intros k Hk. by apply Hkeep, Hkeep1.
    + intros xy [->|Hin]%elem_of_cons Hxy; [by apply Hkeep, Hnew1|by apply Hnew].
    + by rewrite Hprev.
    + cbn [length]. lia.
    + cbn [length]. lia.
Qed.

Lemma valid_in_gridCells xy :
  Area.areCoordinatesValid area xy = true → xy ∈ Area.gridCells area.
Proof.
  unfold Area.areCoordinatesValid, Area.gridCells. intros Hvalid.
  apply andb_true_iff in Hvalid as [[[Hx0 Hxw]%andb_true_iff Hy0]%andb_true_iff Hyh].
  apply Z.leb_le in Hx0, Hy0. apply Z.ltb_lt in Hxw, Hyh.
  apply list_elem_of_bind. exists (Coordinates.y xy). split; [|apply elem_of_seqZ; lia].
  apply list_elem_of_bind. exists (Coordinates.x xy). split; [|apply elem_of_seqZ; lia].
  destruct xy. apply list_elem_of_here.
Qed.

Lemma unseen_valid xy :
  unseen xy ↔ Area.isValidAgentPosition area xy = true ∧ xy ≠ source.
Proof.
  rewrite andb_true_iff, negb_true_iff, equals_false. naive_solver.
Qed.

Variable getHeuristic : Coordinates.t → num.

(** Before the first iteration the maps are consistent and no node is
    visited. *)
Lemma initialSearch_consistent :
  consistent area source getHeuristic (Area.initialSearch area source)
  ∧ relaxed area getHeuristic (Area.initialSearch area source)
  ∧ (length (Area.unvisitedNodes (Area.initialSearch area source))
     ≤ S (length (Area.gridCells area)))%nat
  ∧ (∀ k d, Area.distances (Area.initialSearch area source) !! k = Some d →
            k ∈ Area.unvisitedNodes (Area.initialSearch area source)
            ∧ (k ≠ Coordinates.toString source → d = infinity))
  ∧ Area.previousDistances (Area.initialSearch area source) = ∅.
Proof.
  unfold Area.initialSearch.
  set (search0 := Area.mkSearch [Coordinates.toString source]
                    {[Coordinates.toString source := zero]} ∅).
  destruct (scan_spec (Area.gridCells area) search0)
    as (Hun & Hdist & Hkeep & Hnew & Hprev & Hsize & Hlen).
  set (search := scan search0 (Area.gridCells area)) in *.
  assert (∀ k, is_Some (Area.distances search !! k) → k ∈ Area.unvisitedNodes search)
    as Hall.
  { intros k [d Hd]. apply Hun. destruct (Hdist k d Hd) as [(xy & ? & ? & ? & ?)|Hd0].
    - right. by exists xy.
    - left. cbn in Hd0. apply lookup_singleton_Some in Hd0 as [<- _].
      apply list_elem_of_here. }
  split; [split|split; [|split; [|split]]].
  - intros k [Hin|(xy & _ & Hxy & ->)]%Hun.
    + cbn in Hin. apply list_elem_of_singleton in Hin as ->. exists source. split; [done|by left].
    + exists xy. split; [done|]. right. by apply unseen_valid in Hxy as [? _].
  - intros k. split.
    + intros [d Hd]. destruct (Hdist k d Hd) as [(xy & _ & Hxy & -> & _)|Hd0].
      * exists xy. split; [done|]. right. by apply unseen_valid in Hxy as [? _].
      * cbn in Hd0. apply lookup_singleton_Some in Hd0 as [<- _].
        exists source. split; [done|by left].
    + intros (xy & -> & Hnode). destruct (decide (xy = source)) as [->|Hne].
      * apply Hkeep. cbn. rewrite lookup_singleton_eq. eauto.
      * destruct Hnode as [?|Hvalid]; [done|]. apply Hnew.
        -- by apply valid_in_gridCells, isValidAgentPosition_within.
        -- by apply unseen_valid.
  - cbn in Hsize. rewrite map_size_singleton in Hsize. lia.
  - intros k d Hd. destruct (Hdist k d Hd) as [(xy & _ & _ & _ & ->)|Hd0].
    + apply ltb_infinity.
    + cbn in Hd0. apply lookup_singleton_Some in Hd0 as [_ <-]. apply ltb_irreflexive.
  - destruct (Hkeep (Coordinates.toString source)) as [d Hd].
    { cbn. rewrite lookup_singleton_eq. eauto. }
    destruct (Hdist _ d Hd) as [(xy & _ & Hxy & E & _)|Hd0].
    + apply toString_inj in E. subst xy. by apply unseen_valid in Hxy as [_ ?].
    + cbn in Hd0. rewrite lookup_singleton_eq in Hd0. congruence.
  - intros k u. rewrite Hprev. cbn. by rewrite lookup_empty.
  - intros k d Hd Hfin Hne. destruct (Hdist k d Hd) as [(xy & _ & _ & _ & ->)|Hd0].
    + by rewrite infinity_not_finite in Hfin.
    + cbn in Hd0. by apply lookup_singleton_Some in Hd0 as [<- _].
  - intros visited unvisited dv du Hdv _ Hvis _. destruct Hvis. apply Hall. eauto.
  - intros u n du dn Hvis _ Hdu _. destruct Hvis. apply Hall. eauto.
  - cbn in Hlen. lia.
  - intros k d Hd. split; [apply Hall; eauto|].
    destruct (Hdist k d Hd) as [(xy & _ & _ & _ & ->)|Hd0]; [done|].
    cbn in Hd0. by apply lookup_singleton_Some in Hd0 as [<- _].
  - by rewrite Hprev.
Qed.

End Initial.

(** ** The walk through the predecessors *)

Section Trace.
Context {number : Number} {laws : NumberLaws number}.
Variables (area : Area.t) (source : Coordinates.t) (getHeuristic : Coordinates.t → num).
Hypothesis heuristic_admissible : admissible getHeuristic.

Implicit Types (search : Area.Search) (path : list Coordinates.t).

Local Abbreviation consistent := (consistent area source getHeuristic).

Lemma filter_length_lt {A} (P Q : A → bool) (xs : list A) x :
  (∀ a, P a = true → Q a = true) →
  x ∈ xs → Q x = true → P x = false →
  (length (List.filter P xs) < length (List.filter Q xs))%nat.
Proof.
  intros Himp. induction xs as [|a xs IH]; [by intros ?%elem_of_nil|].
  intros Hin HQ HP. cbn [List.filter].
  assert (length (List.filter P xs) ≤ length (List.filter Q xs))%nat as Hle.
  { clear -Himp. induction xs as [|b xs IH]; [done|]. cbn [List.filter].
    destruct (P b) eqn:HPb; [rewrite (Himp b HPb); cbn; lia|].
    destruct (Q b); cbn; lia. }
  apply elem_of_cons in Hin as [<-|Hin].
  - rewrite HQ, HP. cbn. lia.
  - specialize (IH Hin HQ HP). destruct (P a) eqn:HPa; [rewrite (Himp a HPa); cbn; lia|].
    destruct (Q a); cbn; lia.
Qed.

Lemma rank_lt (distances : gmap string num) k d d' :
  distances !! k = Some d → ltb d d' = true → (rank distances d < rank distances d')%nat.
Proof.
  intros Hk Hlt. unfold rank. apply (filter_length_lt _ _ _ (k, d)).
  - intros [k' e]. cbn. intros He. by apply (ltb_transitive e d d').
  - by apply elem_of_map_to_list.
  - done.
  - apply ltb_irreflexive.
Qed.

Lemma rank_le_size (distances : gmap string num) d : (rank distances d ≤ size distances)%nat.
Proof. unfold rank. rewrite <- length_map_to_list. apply filter_length_le. Qed.

Lemma previous_key search k :
  consistent search → is_Some (Area.previousDistances search !! k) → k ≠ "undefined".
Proof.
  intros Hcons [u Hu] ->.
  destruct (previous_edge _ _ _ _ Hcons _ _ Hu) as (v & _ & E & _).
  by apply (toString_not_undefined v).
Qed.

(** A predecessor is strictly nearer to the source. *)
Lemma previous_nearer search v u :
  consistent search →
  Area.previousDistances search !! Coordinates.toString v = Some u →
  Area.isValidAgentPosition area v = true ∧ v ≠ source
  ∧ v ∈ Coordinates.getNeighbours u (Area.allowDiagonalsInPaths area)
  ∧ ∃ du dv,
      Area.distances search !! Coordinates.toString u = Some du
      ∧ Area.distances search !! Coordinates.toString v = Some dv
      ∧ dv = add (add du one) (getHeuristic v)
      ∧ ltb du dv = true ∧ ltb dv infinity = true.
Proof.
  intros Hcons Hprev.
  destruct (previous_edge _ _ _ _ Hcons _ _ Hprev)
    as (v' & du & E & ? & ? & ? & ? & ? & ? & Hfin & ?).
  apply toString_inj in E. subst v'. destruct (heuristic_admissible v) as [Hh0 Hhfin].
  repeat (split; [done|]). exists du, (add (add du one) (getHeuristic v)).
  repeat (split; [done|]). split; [by apply step_increase | by apply step_finite].
Qed.

(** With enough fuel the inner loop returns, and what it appends to
    [navigated] is the walk through the predecessors. *)
Lemma tracePath_traced {St} search (Hcons : consistent search) fuel previous navigated (st : St) :
  (∀ xy, previous = Some xy →
         ∃ d, Area.distances search !! Coordinates.toString xy = Some d
              ∧ (rank (Area.distances search) d < fuel)%nat) →
  (0 < fuel)%nat →
  ∃ path,
    Area.tracePath fuel (Area.previousDistances search) previous navigated st
    = (Ok (navigated ++ path), st)
    ∧ traced (Area.previousDistances search) previous path.
Proof.
  revert previous navigated. induction fuel as [|fuel IH]; intros previous navigated Hrank Hfuel; [lia|].
  cbn [Area.tracePath]. rewrite mapHas_string.
  destruct previous as [xy|]; cbn [stringOf].
  - destruct (Area.previousDistances search !! Coordinates.toString xy) as [u|] eqn:Hprev.
    + rewrite bool_decide_eq_true_2 by eauto.
      destruct (previous_nearer search xy u Hcons Hprev)
        as (_ & _ & _ & du & dv & Hdu & Hdv & _ & Hlt & _).
      destruct (Hrank xy eq_refl) as (d & Hd & Hr). simplify_eq.
      pose proof (rank_lt _ _ _ _ Hdu Hlt) as Hr'.
      destruct (IH (Some u) (navigated ++ [xy])) as (path & -> & Htraced).
      { intros ? [= <-]. exists du. split; [done|lia]. }
      { lia. }
      exists (xy :: path). rewrite <- app_assoc. split; [done|].
      cbn [traced]. rewrite Hprev. eauto.
    + rewrite bool_decide_eq_false_2 by (by intros [? ?]).
      exists []. by rewrite app_nil_r.
  - rewrite bool_decide_eq_false_2.
    + exists []. by rewrite app_nil_r.
    + intros Hsome. by apply (previous_key search "undefined").
Qed.

(** Every cell of the walk is a valid agent position other than the
    source. *)
Lemma traced_valid search previous path :
  consistent search → traced (Area.previousDistances search) previous path →
  Forall (λ xy, Area.isValidAgentPosition area xy = true ∧ xy ≠ source) path.
Proof.
  intros Hcons. revert previous. induction path as [|xy path IH]; intros previous; [done|].
  cbn [traced]. intros (-> & [u Hu] & Htraced). constructor; [|by eapply IH].
  by destruct (previous_nearer search xy u Hcons Hu) as (? & ? & _).
Qed.

(** Every cell of the walk is strictly nearer than the cell it started
    from. *)
Lemma traced_nearer search from dfrom path xy :
  consistent search →
  Area.distances search !! Coordinates.toString from = Some dfrom →
  traced (Area.previousDistances search)
         (Area.previousDistances search !! Coordinates.toString from) path →
  xy ∈ path →
  ∃ d, Area.distances search !! Coordinates.toString xy = Some d ∧ ltb d dfrom = true.
Proof.
  intros Hcons. revert from dfrom. induction path as [|p path IH]; intros from dfrom Hfrom;
    [by intros _ ?%elem_of_nil|].
  cbn [traced]. intros (Hprev & _ & Htraced) Hin.
  destruct (previous_nearer search from p Hcons Hprev)
    as (_ & _ & _ & du & dv & Hdu & Hdv & _ & Hlt & _).
  simplify_eq. apply elem_of_cons in Hin as [->|Hin]; [by exists du|].
  destruct (IH p du Hdu Htraced Hin) as (d & Hd & Hlt').
  exists d. split; [done|]. by apply (ltb_transitive d du dfrom).
Qed.

(** A walk that starts at a predecessor leads, neighbour by neighbour,
    to the source. *)
Lemma traced_chained search from path :
  consistent search →
  is_Some (Area.previousDistances search !! Coordinates.toString from) →
  traced (Area.previousDistances search)
         (Area.previousDistances search !! Coordinates.toString from) path →
  chained area (from :: path ++ [source]).
Proof.
  intros Hcons. revert from. induction path as [|p path IH]; intros from [u Hu] Htraced.
  - rewrite Hu in Htraced. cbn [traced] in Htraced. cbn [app chained].
    destruct (previous_nearer search from u Hcons Hu)
      as (_ & _ & Hstep & du & dv & Hdu & Hdv & Hsum & Hlt & Hfin).
    destruct (decide (u = source)) as [->|Hne]; [done|].
    destruct (finite_previous _ _ _ _ Hcons _ _ Hdu) as [? ?];
      [by apply (ltb_finite du dv) | by intros ?%toString_inj | congruence].
  - cbn [traced] in Htraced. destruct Htraced as (Hprev & Hsome & Htraced).
    destruct (previous_nearer search from p Hcons Hprev) as (_ & _ & Hstep & _).
    cbn [app chained]. split; [done|]. by apply IH.
Qed.

End Trace.

(** ** Runs of [findDijkstraPath] *)

Section Runs.
Context {number : Number} {laws : NumberLaws number}.
Variables (area : Area.t) (source destination : Coordinates.t).
Variable getHeuristic : Coordinates.t → num.
Hypothesis heuristic_admissible : admissible getHeuristic.

Implicit Types (search : Area.Search) (cache : gmap string Coordinates.t).

Local Abbreviation consistent := (consistent area source getHeuristic).
Local Abbreviation relaxed := (relaxed area getHeuristic).

(** With a budget above the number of cells plus one, the call returns:
    either the destination was extracted, and the result is the walk
    through its predecessors in a search that satisfies the invariants (and
    any further invariant [Q] of the iterations), or the destination is no
    node and the result is empty. *)
Lemma findDijkstraPath_run (Q : Area.Search → Prop) fuel cache :
  Q (Area.initialSearch area source) →
  (∀ search current,
     consistent search → relaxed search → Q search →
     selected search current → current ≠ destination →
     Q (advance area getHeuristic current search)) →
  cacheConsistent cache →
  (S (length (Area.gridCells area)) < fuel)%nat →
  ∃ path cache',
    cacheConsistent cache'
    ∧ Area.findDijkstraPath fuel area source destination getHeuristic cache = (Ok path, cache')
    ∧ ((∃ search,
          consistent search ∧ relaxed search ∧ Q search
          ∧ selected search destination
          ∧ traced (Area.previousDistances search)
              (Area.previousDistances search !! Coordinates.toString destination) path)
       ∨ (path = [] ∧ ¬ node area source destination)).
Proof.
  intros HQ0 HQ Hcache Hfuel.
  destruct (initialSearch_consistent area source getHeuristic)
    as (Hcons0 & Hrelaxed0 & Hlen0 & Hall0 & _).
  destruct (searchLoop_invariant (λ search, consistent search ∧ relaxed search ∧ Q search)
              fuel area destination getHeuristic) with
    (fuel := fuel) (search := Area.initialSearch area source) (cache := cache)
    as (cache' & Hcache' & [(search & (Hcons & Hrelaxed & HQs) & Hsel & Hrun) | [Habsent Hrun]]).
  - intros search (Hcons & _ & _) k Hin.
    destruct (unvisited_nodes _ _ _ _ Hcons k Hin) as (xy & -> & _). by exists xy.
  - intros search current (Hcons & Hrelaxed & HQs) Hsel Hne. split; [|split].
    + by destruct (advance_consistent area source getHeuristic heuristic_admissible
                     search current Hcons Hsel).
    + by apply (advance_relaxed area source).
    + by apply HQ.
  - done.
  - done.
  - lia.
  - destruct (tracePath_traced area source getHeuristic heuristic_admissible search Hcons fuel
                (Area.previousDistances search !! Coordinates.toString destination) [] cache')
      as (path & Htrace & Htraced).
    + intros xy Hprev.
      destruct (previous_nearer area source getHeuristic heuristic_admissible
                  search destination xy Hcons Hprev)
        as (_ & _ & _ & du & dv & Hdu & _).
      exists du. split; [done|].
      pose proof (rank_le_size (Area.distances search) du).
      pose proof (distance_count _ _ _ _ Hcons). lia.
    + lia.
    + exists path, cache'. split; [done|]. split.
      * unfold Area.findDijkstraPath. by rewrite Hrun, Htrace.
      * left. by exists search.
  - exists [], cache'. split; [done|]. split; [done|]. right. split; [done|].
    intros Hnode. apply Habsent.
    destruct (proj2 (distance_nodes _ _ _ _ Hcons0 (Coordinates.toString destination)))
      as [d Hd]; [by exists destination|].
    by apply (Hall0 _ d).
Qed.

End Runs.

(** ** Results of [findDijkstraPath] *)

Section Results.
Context {number : Number} {laws : NumberLaws number}.

Implicit Types (area : Area.t) (cache : gmap string Coordinates.t).

Lemma constant_zero_admissible : admissible (constant zero : Coordinates.t → num).
Proof. intros xy. split; [apply ltb_irreflexive | apply zero_finite]. Qed.

Lemma length_gridCells area :
  length (Area.gridCells area)
  = (Z.to_nat (Area.height area) * Z.to_nat (Area.width area))%nat.
Proof.
  unfold Area.gridCells.
  rewrite <- (length_seqZ 0 (Area.height area)), <- (length_seqZ 0 (Area.width area)).
  generalize (seqZ 0 (Area.width area)) as xs. generalize (seqZ 0 (Area.height area)) as ys.
  intros ys xs.
  assert (∀ y, length (xs ≫= λ x, [Coordinates.mk x y]) = length xs) as Hrow.
  { intros y. induction xs as [|x xs IH]; [done|]. cbn. by rewrite IH. }
  induction ys as [|y ys IH]; [done|].
  cbn [mbind list_bind]. change (list_bind ?f ?l) with (l ≫= f) in *.
  rewrite length_app, IH, Hrow. done.
Qed.

(** C2: whatever the area, the source and the destination, the call
    returns (given a budget above the number of cells plus one), and every
    cell of the returned path is a valid agent position of the area
    searched: within the bounds and not a wall. *)
Theorem findDijkstraPath_cells_valid area source destination getHeuristic fuel cache :
  admissible getHeuristic →
  cacheConsistent cache →
  (S (length (Area.gridCells area)) < fuel)%nat →
  ∃ path cache',
    Area.findDijkstraPath fuel area source destination getHeuristic cache = (Ok path, cache')
    ∧ Forall (λ xy, Area.isValidAgentPosition area xy = true) path.
Proof.
  intros Hadm Hcache Hfuel.
  destruct (findDijkstraPath_run area source destination getHeuristic Hadm
              (λ _, True) fuel cache)
    as (path & cache' & _ & Hrun & [(search & Hcons & _ & _ & _ & Htraced) | [-> _]]);
    [done..| |].
  - exists path, cache'. split; [done|].
    eapply Forall_impl; [by eapply traced_valid|]. by intros xy [? _].
  - by exists [], cache'.
Qed.

(** When the destination is extracted with the source still unvisited,
    the destination is the source. *)
Lemma selected_before_source area source getHeuristic search current :
  consistent area source getHeuristic search →
  selected search current →
  Coordinates.toString source ∈ Area.unvisitedNodes search →
  (∀ k d, Area.distances search !! k = Some d →
          k ≠ Coordinates.toString source → d = infinity) →
  current = source.
Proof.
  intros Hcons Hsel Hsource Hinf.
  destruct (decide (current = source)) as [|Hne]; [done|].
  destruct (unvisited_distance area source getHeuristic search _ Hcons
              (selected_unvisited _ _ Hsel)) as [d Hd].
  assert (d = infinity) as -> by (apply (Hinf _ _ Hd); by intros ?%toString_inj).
  pose proof (selected_least area source getHeuristic search current _ _ _
                Hcons Hsel Hsource (source_distance _ _ _ _ Hcons) Hd) as Hle.
  by rewrite zero_finite in Hle.
Qed.

Lemma previous_source area source getHeuristic search :
  consistent area source getHeuristic search →
  Area.previousDistances search !! Coordinates.toString source = None.
Proof.
  intros Hcons.
  destruct (Area.previousDistances search !! Coordinates.toString source) as [u|] eqn:Hu;
    [|done].
  destruct (previous_edge _ _ _ _ Hcons _ _ Hu) as (v & _ & E & Hne & _).
  apply toString_inj in E. by subst.
Qed.

Lemma traced_without_previous previousDistances previous path :
  traced previousDistances previous path →
  (∀ xy, previous = Some xy → previousDistances !! Coordinates.toString xy = None) →
  path = [].
Proof.
  destruct path as [|xy path]; [done|]. cbn [traced].
  intros (-> & [u Hu] & _) Hnone. rewrite (Hnone xy) in Hu; done.
Qed.

(** Relaxing the edges out of [current] gives a neighbour that had no
    finite distance the predecessor [current]. *)
Lemma foldl_updateDistance_reaches getHeuristic current neighbours search n dc :
  admissible getHeuristic →
  Area.distances search !! Coordinates.toString current = Some dc →
  ltb dc infinity = true →
  (∀ n', n' ∈ neighbours → n' ≠ current) →
  (n ∈ neighbours ∧ Area.distances search !! Coordinates.toString n = Some infinity
   ∨ Area.previousDistances search !! Coordinates.toString n = Some current
     ∧ Area.distances search !! Coordinates.toString n
       = Some (add (add dc one) (getHeuristic n))) →
  Area.previousDistances (foldl (Area.updateDistance getHeuristic current) search neighbours)
    !! Coordinates.toString n = Some current.
Proof.
  intros Hadm. revert search.
  induction neighbours as [|n' ns IH]; intros search Hdc Hfin Hne Hcases.
  { destruct Hcases as [[[]%elem_of_nil _]|[? _]]. done. }
  cbn [foldl]. assert (n' ≠ current) as Hn' by apply Hne, list_elem_of_here.
  assert (Coordinates.toString n' ≠ Coordinates.toString current) as Hk'
    by (by intros ?%toString_inj).
  destruct (Hadm n) as [Hh0 Hhfin].
  apply IH; clear IH.
  - unfold Area.updateDistance. rewrite Hdc. case_match; [|done].
    cbn [Area.distances]. by rewrite lookup_insert_ne.
  - done.
  - intros m Hm. apply Hne. by apply list_elem_of_further.
  - unfold Area.updateDistance. rewrite Hdc.
    destruct (decide (n' = n)) as [->|Hnn].
    + right. destruct Hcases as [[_ Hinf]|[Hprev Hdist]].
      * rewrite Hinf. cbn. rewrite step_finite by done.
        cbn [Area.previousDistances Area.distances]. by rewrite !lookup_insert_eq.
      * rewrite Hdist. cbn. by rewrite ltb_irreflexive.
    + assert (Coordinates.toString n' ≠ Coordinates.toString n) as Hkn
        by (by intros ?%toString_inj).
      assert (∀ search',
                Area.unvisitedNodes search' = Area.unvisitedNodes search →
                Area.distances search' !! Coordinates.toString n
                = Area.distances search !! Coordinates.toString n →
                Area.previousDistances search' !! Coordinates.toString n
                = Area.previousDistances search !! Coordinates.toString n →
                n ∈ ns
                ∧ Area.distances search' !! Coordinates.toString n = Some infinity
                ∨ Area.previousDistances search' !! Coordinates.toString n = Some current
                  ∧ Area.distances search' !! Coordinates.toString n
                    = Some (add (add dc one) (getHeuristic n))) as Hsame.
      { intros search' _ -> ->. destruct Hcases as [[Hin Hinf]|?]; [left|by right].
        split; [|done]. apply elem_of_cons in Hin as [->|?]; done. }
      case_match; [|by apply Hsame].
      apply Hsame; cbn [Area.unvisitedNodes Area.distances Area.previousDistances];
        [done | by rewrite lookup_insert_ne | by rewrite lookup_insert_ne].
Qed.

(** Once the source is the predecessor of one of its neighbours, it
    stays so. *)
Lemma foldl_updateDistance_keeps area source getHeuristic current neighbours search n :
  admissible getHeuristic →
  consistent area source getHeuristic search →
  latest area source search current →
  neighbours ⊆ Coordinates.getNeighbours current (Area.allowDiagonalsInPaths area) →
  Area.previousDistances search !! Coordinates.toString n = Some source →
  Area.previousDistances (foldl (Area.updateDistance getHeuristic current) search neighbours)
    !! Coordinates.toString n = Some source.
Proof.
  intros Hadm. revert search.
  induction neighbours as [|n' ns IH]; intros search Hcons Hlatest Hsub Hprev; [done|].
  cbn [foldl].
  destruct (updateDistance_consistent area source getHeuristic Hadm current search n')
    as [Hcons' Hlatest']; [done..| |].
  { apply Hsub, list_elem_of_here. }
  apply IH; [done..| |].
  { intros m Hm. apply Hsub. by apply list_elem_of_further. }
  destruct (updateDistance_cases getHeuristic current search n')
    as [[-> _] | (dc & dn & Hdc & Hdn & Hlt & ->)]; [done|].
  cbn [Area.previousDistances]. rewrite lookup_insert_ne; [done|].
  intros E%toString_inj. subst n'.
  destruct (previous_nearer area source getHeuristic Hadm search n source Hcons Hprev)
    as (_ & _ & _ & du & dv & Hdu & Hdv & -> & _).
  rewrite (source_distance _ _ _ _ Hcons) in Hdu. simplify_eq.
  apply step_monotone in Hlt.
  by rewrite (distance_nonnegative _ _ _ _ Hcons _ _ Hdc) in Hlt.
Qed.

Lemma findDijkstraPath_same_node area source getHeuristic fuel cache :
  admissible getHeuristic →
  cacheConsistent cache →
  (S (length (Area.gridCells area)) < fuel)%nat →
  ∃ cache', Area.findDijkstraPath fuel area source source getHeuristic cache = (Ok [], cache').
Proof.
  intros Hadm Hcache Hfuel.
  destruct (findDijkstraPath_run area source source getHeuristic Hadm (λ _, True) fuel cache)
    as (path & cache' & _ & Hrun & [(search & Hcons & _ & _ & _ & Htraced) | [-> _]]);
    [done..| |by exists cache'].
  exists cache'. rewrite Hrun. do 2 f_equal.
  apply (traced_without_previous _ _ _ Htraced). intros xy Hxy.
  by rewrite (previous_source area source getHeuristic search Hcons) in Hxy.
Qed.

Lemma findDijkstraPath_not_node area source destination getHeuristic fuel cache :
  admissible getHeuristic →
  cacheConsistent cache →
  (S (length (Area.gridCells area)) < fuel)%nat →
  ¬ node area source destination →
  ∃ cache',
    Area.findDijkstraPath fuel area source destination getHeuristic cache = (Ok [], cache').
Proof.
  intros Hadm Hcache Hfuel Hnode.
  destruct (findDijkstraPath_run area source destination getHeuristic Hadm
              (λ _, True) fuel cache)
    as (path & cache' & _ & Hrun & [(search & Hcons & _ & _ & Hsel & _) | [-> _]]);
    [done..| |by exists cache'].
  destruct Hnode. by apply (selected_node area source getHeuristic search).
Qed.

(** C9: when the destination is the source, or one of its neighbours
    under the diagonal flag, the call returns the empty path, the value that
    also signifies that no route exists; the walk starts at the
    destination's predecessor, the source, and stops at once. *)
Theorem findDijkstraPath_adjacent_empty area source destination getHeuristic fuel cache :
  admissible getHeuristic →
  cacheConsistent cache →
  (S (length (Area.gridCells area)) < fuel)%nat →
  source = destination
  ∨ destination ∈ Coordinates.getNeighbours source (Area.allowDiagonalsInPaths area) →
  ∃ cache',
    Area.findDijkstraPath fuel area source destination getHeuristic cache = (Ok [], cache').
Proof.
  intros Hadm Hcache Hfuel [<-|Hstep]; [by apply findDijkstraPath_same_node|].
  assert (destination ≠ source) as Hne by (by apply neighbour_neq in Hstep).
  destruct (decide (Area.isValidAgentPosition area destination = true)) as [Hvalid|Hinvalid];
    [|apply findDijkstraPath_not_node; try done; by intros [?|?]].
  pose (Q := λ search : Area.Search,
          (Coordinates.toString source ∈ Area.unvisitedNodes search
           ∧ Area.previousDistances search = ∅
           ∧ ∀ k d, Area.distances search !! k = Some d →
                    k ≠ Coordinates.toString source → d = infinity)
          ∨ Area.previousDistances search !! Coordinates.toString destination = Some source).
  destruct (findDijkstraPath_run area source destination getHeuristic Hadm Q fuel cache)
    as (path & cache' & _ & Hrun & [(search & Hcons & _ & HQ & Hsel & Htraced) | [-> _]]);
    [| |done|done| |by exists cache'].
  - left. destruct (initialSearch_consistent area source getHeuristic)
      as (Hcons0 & _ & _ & Hall0 & Hprev0).
    split; [|split; [done|]].
    + by eapply Hall0, source_distance.
    + intros k d Hd. by apply Hall0.
  - intros search current Hcons Hrelaxed HQ Hsel Hcurrent. right.
    destruct (extract_consistent area source getHeuristic search current Hcons Hsel)
      as [Hcons0 Hlatest0].
    destruct HQ as [(Hsource & Hnone & Hinf)|Hprev].
    + assert (current = source) as ->
        by exact (selected_before_source area source getHeuristic search current
                    Hcons Hsel Hsource Hinf).
      apply (foldl_updateDistance_reaches _ _ _ _ _ zero Hadm).
      * apply (source_distance _ _ _ _ Hcons).
      * apply zero_finite.
      * intros n'. apply neighbour_neq.
      * left. split; [done|]. cbn [Area.distances].
        destruct (proj2 (distance_nodes _ _ _ _ Hcons (Coordinates.toString destination)))
          as [d Hd]; [exists destination; split; [done|by right]|].
        rewrite Hd. f_equal. apply (Hinf _ _ Hd). by intros E%toString_inj.
    + by apply (foldl_updateDistance_keeps area source getHeuristic current).
  - exists cache'. rewrite Hrun. do 2 f_equal.
    apply (traced_without_previous _ _ _ Htraced). intros xy Hxy.
    destruct HQ as [(_ & Hnone & _)|Hprev].
    + by rewrite Hnone, lookup_empty in Hxy.
    + rewrite Hprev in Hxy. simplify_eq. by eapply previous_source.
Qed.

(** When a cell that a route reaches is extracted, its distance is
    finite. *)
Lemma selected_reached_finite area source getHeuristic search destination :
  admissible getHeuristic →
  consistent area source getHeuristic search →
  relaxed area getHeuristic search →
  selected search destination →
  route area source destination →
  ∃ d, Area.distances search !! Coordinates.toString destination = Some d
       ∧ ltb d infinity = true.
Proof.
  intros Hadm Hcons Hrelaxed Hsel Hroute.
  pose proof (selected_unvisited _ _ Hsel) as Hunvisited.
  destruct (unvisited_distance area source getHeuristic search _ Hcons Hunvisited) as [dd Hdd].
  exists dd. split; [done|]. destruct (ltb dd infinity) eqn:Hfin; [done|exfalso].
  apply not_finite_infinity in Hfin. subst dd.
  pose (settledFinite := λ xy,
          (Coordinates.toString xy ∉ Area.unvisitedNodes search)
          ∧ ∃ d, Area.distances search !! Coordinates.toString xy = Some d
                 ∧ ltb d infinity = true).
  assert (∀ k d, k ∈ Area.unvisitedNodes search →
                 Area.distances search !! k = Some d → ltb d infinity = false) as Hfar.
  { intros k d Hk Hd.
    exact (selected_least area source getHeuristic search destination k d infinity
             Hcons Hsel Hk Hd Hdd). }
  assert (settledFinite source) as Hsource.
  { split; [|exists zero; split; [apply (source_distance _ _ _ _ Hcons)|apply zero_finite]].
    intros Hin. pose proof (Hfar _ _ Hin (source_distance _ _ _ _ Hcons)) as Hbad.
    by rewrite zero_finite in Hbad. }
  assert (∀ a b, route area a b → settledFinite a → settledFinite b) as Hclosed.
  { clear Hroute Hsource. intros a b Hab.
    induction Hab as [xy|xy n z [Hstep Hvalid] _ IH]; [done|].
    intros (Hvis & du & Hdu & Hdufin). apply IH. clear IH.
    destruct (proj2 (distance_nodes _ _ _ _ Hcons (Coordinates.toString n)))
      as [dn Hdn]; [exists n; split; [done|by right]|].
    destruct (Hadm n) as [Hh0 Hhfin].
    assert (ltb dn infinity = true) as Hdnfin.
    { destruct (ltb dn infinity) eqn:Hfin; [done|].
      apply not_finite_infinity in Hfin. subst dn.
      by rewrite <- (Hrelaxed xy n du infinity Hvis Hstep Hdu Hdn), step_finite. }
    split; [|exists dn; by split].
    intros Hin. by rewrite (Hfar _ _ Hin Hdn) in Hdnfin. }
  by destruct (Hclosed source destination Hroute Hsource) as [Hvisited _].
Qed.

(** C1: between distinct cells joined by a route the call returns the
    intermediate cells from the destination's side to the source's side: the
    destination is a neighbour of the first cell, each cell is a neighbour
    of the next, the last cell is a neighbour of the source, and neither
    endpoint is in the path.  (Each cell is followed by the predecessor the
    search recorded for it; see [traced].) *)
Theorem findDijkstraPath_destination_first area source destination getHeuristic fuel cache :
  admissible getHeuristic →
  cacheConsistent cache →
  (S (length (Area.gridCells area)) < fuel)%nat →
  Area.isValidAgentPosition area source = true →
  Area.isValidAgentPosition area destination = true →
  source ≠ destination →
  route area source destination →
  ∃ path cache',
    Area.findDijkstraPath fuel area source destination getHeuristic cache = (Ok path, cache')
    ∧ chained area (destination :: path ++ [source])
    ∧ (source ∉ path)
    ∧ (destination ∉ path).
Proof.
  intros Hadm Hcache Hfuel _ Hvalid Hne Hroute.
  destruct (findDijkstraPath_run area source destination getHeuristic Hadm
              (λ _, True) fuel cache)
    as (path & cache' & _ & Hrun
        & [(search & Hcons & Hrelaxed & _ & Hsel & Htraced) | [_ Hnode]]);
    [done..| |destruct Hnode; by right].
  exists path, cache'. split; [done|].
  destruct (selected_reached_finite area source getHeuristic search destination)
    as (d & Hd & Hfin); [done..|].
  split; [|split].
  - apply (traced_chained area source getHeuristic Hadm search); [done| |done].
    apply (finite_previous _ _ _ _ Hcons _ d); [done..|]. by intros ?%toString_inj.
  - intros Hin.
    pose proof (traced_valid area source getHeuristic Hadm search _ _ Hcons Htraced) as Hall.
    rewrite Forall_forall in Hall. by destruct (Hall source Hin).
  - intros Hin.
    destruct (traced_nearer area source getHeuristic Hadm search destination d path
                destination Hcons Hd Htraced Hin) as (d' & Hd' & Hlt).
    simplify_eq. by rewrite ltb_irreflexive in Hlt.
Qed.

End Results.

Lemma findDijkstraPath_cells_valid_witness :
  ∃ path cache',
    Area.findDijkstraPath (number := natInf) 10 walledArea
      (Coordinates.mk 0 0) (Coordinates.mk 1 1) (constant zero) ∅ = (Ok path, cache')
    ∧ Forall (λ xy, Area.isValidAgentPosition walledArea xy = true) path.
Proof.
  apply (findDijkstraPath_cells_valid (laws := natInf_laws) walledArea
           (Coordinates.mk 0 0) (Coordinates.mk 1 1) (constant zero) 10 ∅).
  - apply (constant_zero_admissible (laws := natInf_laws)).
  - apply cacheConsistent_empty.
  - vm_compute. lia.
Defined.

Lemma findDijkstraPath_adjacent_empty_witness :
  ∃ cache',
    Area.findDijkstraPath (number := natInf) 10 walledArea
      (Coordinates.mk 0 0) (Coordinates.mk 1 0) (constant zero) ∅ = (Ok [], cache').
Proof.
  apply (findDijkstraPath_adjacent_empty (laws := natInf_laws) walledArea
           (Coordinates.mk 0 0) (Coordinates.mk 1 0) (constant zero) 10 ∅).
  - apply (constant_zero_admissible (laws := natInf_laws)).
  - apply cacheConsistent_empty.
  - vm_compute. lia.
  - right. vm_compute. apply list_elem_of_further, list_elem_of_further, list_elem_of_here.
Defined.

Lemma findDijkstraPath_destination_first_witness :
  let corridor := Area.new 4 1 in
  let source := Coordinates.mk 0 0 in
  let destination := Coordinates.mk 3 0 in
  (∃ path cache',
     Area.findDijkstraPath (number := natInf) 10 corridor source destination
       (constant zero) ∅ = (Ok path, cache')
     ∧ chained corridor (destination :: path ++ [source])
     ∧ (source ∉ path)
     ∧ (destination ∉ path))
  ∧ (Area.findDijkstraPath (number := natInf) 10 corridor source destination
       (constant zero) ∅).1
    = Ok [Coordinates.mk 2 0; Coordinates.mk 1 0].
Proof.
  intros corridor source destination. split; [|by vm_compute].
  apply (findDijkstraPath_destination_first (laws := natInf_laws) corridor
           source destination (constant zero) 10 ∅).
  - apply (constant_zero_admissible (laws := natInf_laws)).
  - apply cacheConsistent_empty.
  - vm_compute. lia.
  - reflexivity.
  - reflexivity.
  - discriminate.
  - apply (rtc_l _ _ (Coordinates.mk 1 0)); [|apply (rtc_l _ _ (Coordinates.mk 2 0));
                                                [|apply rtc_once]];
      (split; [|reflexivity]); vm_compute;
      apply list_elem_of_further, list_elem_of_further, list_elem_of_here.
Defined.

(** ** The pursuit step *)

(** C5, where the code departs from it: the occupancy test looks the
    candidate cell up with the [Coordinates] object itself, not with its key,
    so it never finds an entity.  With another enemy (or the destination
    marker) on the candidate cell the enemy does not hold its position: its
    recorded position is overwritten, its old cell is deleted, and
    [addEntity] then throws the occupancy-conflict error, which aborts the
    whole handler. *)
Theorem pursue_onto_occupied_cell (onDeath onDestinationArrival : M Main.Game unit) :
  let enemy := Main.pursue onDeath 10 (Coordinates.mk 3 0) 0 blockedByEnemy in
  let marker :=
    Main.pursue onDeath 10 (Coordinates.mk 3 0) 0 blockedByDestination in
  Area.entityAt (Main.area blockedByEnemy) (StringKey "2,0") = Some Enemy
  ∧ enemy.1 = Err occupancyConflict
  ∧ Main.enemyPositions enemy.2 = [Some (Coordinates.mk 2 0); Some (Coordinates.mk 2 0)]
  ∧ Area.entities (Main.area enemy.2) !! "3,0" = None
  ∧ Area.entityAt (Main.area blockedByDestination) (StringKey "2,0") = Some Destination
  ∧ marker.1 = Err occupancyConflict
  ∧ Main.enemyPositions marker.2 = [Some (Coordinates.mk 2 0)]
  ∧ Area.entities (Main.area marker.2) !! "3,0" = None
  ∧ (Main.onDirectionalInput onDeath onDestinationArrival 10 "right"
       blockedByEnemy).1 = Err occupancyConflict.
Proof. vm_compute. repeat split. Qed.

(** ** Depth-first search *)

(** C4, where the code departs from it: the neighbours are filtered
    against [visitedNodes] once, before the loop over them, so a neighbour
    that an earlier sibling's recursion has visited in the meantime is entered
    again.  In the walled 4×2 grid, searching from (0,0) for the cut-off cell
    (3,1), the cell (0,1) is entered twice, with or without the directional
    ordering. *)
Theorem findDepthFirstPath_enters_twice :
  let random :=
    Area.findDepthFirstPath 10 walledArea (Coordinates.mk 0 0) (Coordinates.mk 3 1) identity
      Area.freshTrail in
  let directional :=
    Area.findDepthFirstPathDirectionally (euclidean := float64_norm) 10 walledArea
      (Coordinates.mk 0 0) (Coordinates.mk 3 1) Area.freshTrail in
  random.1 = Ok []
  ∧ Area.navigated random.2
    = [Coordinates.mk 0 0; Coordinates.mk 1 0; Coordinates.mk 1 1;
       Coordinates.mk 0 1; Coordinates.mk 0 1]
  ∧ directional.1 = Ok []
  ∧ Area.navigated directional.2
    = [Coordinates.mk 0 0; Coordinates.mk 1 0; Coordinates.mk 1 1;
       Coordinates.mk 0 1; Coordinates.mk 0 1].
Proof. vm_compute. repeat split. Qed.

(** ** Depth-first search: the visited set and the depth of the recursion *)

Section Termination.
Variables (area : Area.t) (destination : Coordinates.t).
Variable sortNeighbours : list Coordinates.t → list Coordinates.t.
Hypothesis sortNeighbours_selects : ∀ xs xy, xy ∈ sortNeighbours xs → xy ∈ xs.

Implicit Types (trail : Area.Trail) (visited : gset string).

Local Abbreviation search fuel source :=
  (Area.findDepthFirstPath fuel area source destination sortNeighbours).

Lemma firstPath_visited_grows (visit : Coordinates.t → M Area.Trail (list Coordinates.t))
    neighbours trail outcome trail' :
  (∀ n trail outcome trail',
     visit n trail = (outcome, trail') → Area.visitedNodes trail ⊆ Area.visitedNodes trail') →
  Area.firstPath visit neighbours trail = (outcome, trail') →
  Area.visitedNodes trail ⊆ Area.visitedNodes trail'.
Proof.
  intros Hvisit. revert trail. induction neighbours as [|n ns IH]; intros trail.
  - cbn. by intros [= _ <-].
  - cbn [Area.firstPath]. unfold mbind, M_bind.
    destruct (visit n trail) as [[found| |] trail1] eqn:Hn.
    + apply Hvisit in Hn. destruct (negb _).
      * cbn. intros [= _ <-]. done.
      * intros Hrest%IH. set_solver.
    + apply Hvisit in Hn. by intros [= _ <-].
    + apply Hvisit in Hn. by intros [= _ <-].
Qed.

(** The set of visited nodes only grows. *)
Lemma findDepthFirstPath_visited_grows fuel source trail outcome trail' :
  search fuel source trail = (outcome, trail') →
  Area.visitedNodes trail ⊆ Area.visitedNodes trail'.
Proof.
  revert source trail outcome trail'.
  induction fuel as [|fuel IH]; intros source trail outcome trail'.
  { cbn. by intros [= _ <-]. }
  cbn [Area.findDepthFirstPath]. unfold mbind, M_bind, modifyState, getState, mret, M_ret.
  cbn [fst snd].
  destruct (Coordinates.equals source destination).
  { cbn. by intros [= _ <-]. }
  cbn [Area.visitedNodes Area.navigated].
  destruct (length _ =? 0)%nat.
  { cbn. intros [= _ <-]. cbn. set_solver. }
  intros Hrest. apply firstPath_visited_grows in Hrest; [|intros n t o t'; apply IH].
  cbn in Hrest. set_solver.
Qed.

Lemma firstPath_returns (holds : Area.Trail → Prop)
    (visit : Coordinates.t → M Area.Trail (list Coordinates.t)) neighbours trail :
  (∀ n trail, n ∈ neighbours → holds trail →
     ∃ path trail', visit n trail = (Ok path, trail') ∧ holds trail') →
  holds trail →
  ∃ path trail', Area.firstPath visit neighbours trail = (Ok path, trail').
Proof.
  revert trail. induction neighbours as [|n ns IH]; intros trail Hvisit Hholds.
  - by exists [], trail.
  - cbn [Area.firstPath]. unfold mbind, M_bind.
    destruct (Hvisit n trail) as (found & trail1 & -> & Hholds1);
      [apply list_elem_of_here|done|].
    destruct (negb _); [by exists found, trail1|].
    apply IH; [|done]. intros m t Hm. apply Hvisit. by apply list_elem_of_further.
Qed.

(** With a budget above the number of cells not yet on the stack, the
    search returns. *)
Lemma findDepthFirstPath_returns_from fuel source trail (stack : gset string) :
  stack ⊆ Area.visitedNodes trail →
  (Coordinates.toString source ∉ stack) →
  (size (cellKeys area ∖ stack)
   + (if decide (Coordinates.toString source ∈ cellKeys area) then 0 else 1) < fuel)%nat →
  ∃ path trail', search fuel source trail = (Ok path, trail').
Proof.
  revert source trail stack.
  induction fuel as [|fuel IH]; intros source trail stack Hstack Hsource Hfuel; [lia|].
  cbn [Area.findDepthFirstPath]. unfold mbind, M_bind, modifyState, getState, mret, M_ret.
  cbn [fst snd].
  destruct (Coordinates.equals source destination); [by eexists _, _|].
  cbn [Area.visitedNodes Area.navigated].
  destruct (length _ =? 0)%nat; [by eexists _, _|].
  set (stack' := {[Coordinates.toString source]} ∪ stack).
  apply (firstPath_returns (λ trail, stack' ⊆ Area.visitedNodes trail)).
  - intros n trail1 Hn Hstack1.
    apply sortNeighbours_selects, list_elem_of_In, filter_In in Hn as [_ Hn].
    apply andb_true_iff in Hn as [Hvalid Hfresh].
    apply negb_true_iff, bool_decide_eq_false in Hfresh.
    destruct (IH n trail1 stack') as (path & trail1' & Hrun); [done| | |].
    + intros Hin. apply Hfresh. unfold stack' in Hin. set_solver.
    + assert (Coordinates.toString n ∈ cellKeys area) as Hcell.
      { unfold cellKeys. apply elem_of_list_to_set, list_elem_of_fmap. exists n. split; [done|].
        by apply valid_in_gridCells, isValidAgentPosition_within. }
      rewrite decide_True by done.
      destruct (decide (Coordinates.toString source ∈ cellKeys area)) as [Hin|Hout].
      * assert (cellKeys area ∖ stack' ⊂ cellKeys area ∖ stack) as Hless.
        { unfold stack'. set_solver. }
        apply subset_size in Hless. lia.
      * assert (cellKeys area ∖ stack' = cellKeys area ∖ stack) as ->.
        { unfold stack'. set_solver. }
        lia.
    + exists path, trail1'. split; [done|].
      apply findDepthFirstPath_visited_grows in Hrun. set_solver.
  - cbn. unfold stack'. set_solver.
Qed.

Lemma size_cellKeys : (size (cellKeys area) ≤ length (Area.gridCells area))%nat.
Proof.
  unfold cellKeys. generalize (Area.gridCells area) as cells.
  induction cells as [|xy cells IH]; [done|].
  cbn [fmap list_fmap list_to_set length].
  pose proof (size_union_alt {[Coordinates.toString xy]}
                (list_to_set (Coordinates.toString <$> cells) : gset string)) as Hsize.
  rewrite size_singleton in Hsize.
  assert (size ((list_to_set (Coordinates.toString <$> cells) : gset string)
                ∖ {[Coordinates.toString xy]})
          ≤ size (list_to_set (Coordinates.toString <$> cells) : gset string))%nat
    by (apply subseteq_size; set_solver).
  lia.
Qed.

(** A call on a fresh trail returns once the budget exceeds the number
    of cells plus one. *)
Lemma findDepthFirstPath_returns fuel source :
  (S (length (Area.gridCells area)) < fuel)%nat →
  ∃ path trail', search fuel source Area.freshTrail = (Ok path, trail').
Proof.
  intros Hfuel. apply (findDepthFirstPath_returns_from fuel source Area.freshTrail ∅).
  - set_solver.
  - set_solver.
  - pose proof size_cellKeys.
    assert (size (cellKeys area ∖ ∅) ≤ size (cellKeys area))%nat
      by (apply subseteq_size; set_solver).
    destruct (decide _); lia.
Qed.

End Termination.

(** ** Determinism *)

Section Determinism.

Implicit Types (area : Area.t) (trail : Area.Trail) (cache : gmap string Coordinates.t).

(** A larger budget does not change an outcome. *)
Lemma firstPath_budget (visit visit' : Coordinates.t → M Area.Trail (list Coordinates.t))
    neighbours trail path trail' :
  (∀ n trail path trail',
     visit n trail = (Ok path, trail') → visit' n trail = (Ok path, trail')) →
  Area.firstPath visit neighbours trail = (Ok path, trail') →
  Area.firstPath visit' neighbours trail = (Ok path, trail').
Proof.
  intros Hvisit. revert trail. induction neighbours as [|n ns IH]; intros trail; [done|].
  cbn [Area.firstPath]. unfold mbind, M_bind.
  destruct (visit n trail) as [[found| |] trail1] eqn:Hn; [|done..].
  rewrite (Hvisit _ _ _ _ Hn). destruct (negb _); [done|]. apply IH.
Qed.

Lemma findDepthFirstPath_budget fuel fuel' area source destination sortNeighbours
    trail path trail' :
  (fuel ≤ fuel')%nat →
  Area.findDepthFirstPath fuel area source destination sortNeighbours trail = (Ok path, trail') →
  Area.findDepthFirstPath fuel' area source destination sortNeighbours trail = (Ok path, trail').
Proof.
  revert fuel' source trail path trail'.
  induction fuel as [|fuel IH]; intros fuel' source trail path trail' Hle; [done|].
  destruct fuel' as [|fuel']; [lia|].
  cbn [Area.findDepthFirstPath]. unfold mbind, M_bind, modifyState, getState.
  destruct (Coordinates.equals source destination); [done|].
  destruct (length _ =? 0)%nat; [done|].
  apply firstPath_budget. intros n trail1 path1 trail1'. apply IH. lia.
Qed.

Lemma findDepthFirstPath_agree fuel1 fuel2 area source destination sortNeighbours trail :
  agree (Area.findDepthFirstPath fuel1 area source destination sortNeighbours trail).1
        (Area.findDepthFirstPath fuel2 area source destination sortNeighbours trail).1.
Proof.
  intros path1 path2 H1 H2.
  destruct (Area.findDepthFirstPath fuel1 _ _ _ _ _) as [r1 trail1] eqn:E1.
  destruct (Area.findDepthFirstPath fuel2 _ _ _ _ _) as [r2 trail2] eqn:E2.
  cbn in H1, H2. subst r1 r2.
  destruct (Nat.le_ge_cases fuel1 fuel2) as [Hle|Hle].
  - rewrite (findDepthFirstPath_budget _ _ _ _ _ _ _ _ _ Hle E1) in E2. congruence.
  - rewrite (findDepthFirstPath_budget _ _ _ _ _ _ _ _ _ Hle E2) in E1. congruence.
Qed.

(** Two runs with budgets above the number of cells plus one return the
    same path. *)
Lemma findDepthFirstPath_same fuel1 fuel2 area source destination sortNeighbours :
  (∀ xs xy, xy ∈ sortNeighbours xs → xy ∈ xs) →
  (S (length (Area.gridCells area)) < fuel1)%nat →
  (S (length (Area.gridCells area)) < fuel2)%nat →
  ∃ path,
    (Area.findDepthFirstPath fuel1 area source destination sortNeighbours Area.freshTrail).1
    = Ok path
    ∧ (Area.findDepthFirstPath fuel2 area source destination sortNeighbours Area.freshTrail).1
      = Ok path.
Proof.
  intros Hsort Hfuel1 Hfuel2.
  destruct (findDepthFirstPath_returns area destination sortNeighbours Hsort fuel1 source Hfuel1)
    as (path1 & trail1 & Hrun1).
  destruct (findDepthFirstPath_returns area destination sortNeighbours Hsort fuel2 source Hfuel2)
    as (path2 & trail2 & Hrun2).
  exists path1. rewrite Hrun1, Hrun2. split; [done|]. cbn. f_equal. symmetry.
  apply (findDepthFirstPath_agree fuel1 fuel2 area source destination sortNeighbours
           Area.freshTrail); by rewrite ?Hrun1, ?Hrun2.
Qed.

Context {number : Number}.

Lemma tracePath_agree {St St'} fuel1 fuel2 previousDistances previous navigated
    (st : St) (st' : St') :
  agree (Area.tracePath fuel1 previousDistances previous navigated st).1
        (Area.tracePath fuel2 previousDistances previous navigated st').1.
Proof.
  revert fuel2 previous navigated.
  induction fuel1 as [|fuel1 IH]; intros fuel2 previous navigated path1 path2; [done|].
  destruct fuel2 as [|fuel2]; [done|].
  cbn [Area.tracePath]. destruct (mapHas _ _); [|cbn; congruence].
  destruct previous as [xy|]; [apply IH|done].
Qed.

Lemma initialSearch_keyed area source :
  keyed (Area.unvisitedNodes (Area.initialSearch area source)).
Proof.
  intros k Hk. unfold Area.initialSearch in Hk.
  apply scan_spec in Hk as [Hk|(xy & _ & _ & ->)]; [|by exists xy].
  apply list_elem_of_singleton in Hk as ->. by exists source.
Qed.

Lemma selected_unique (search : Area.Search) current current' :
  selected search current → selected search current' → current = current'.
Proof. unfold selected. intros -> [= E]. by apply toString_inj in E. Qed.

(** The outcome of the outer loop depends neither on the contents of a
    consistent cache nor on the budget. *)
Lemma searchLoop_agree area destination getHeuristic (search : Area.Search)
    fuel1 fuel2 traceFuel1 traceFuel2 cache1 cache2 :
  keyed (Area.unvisitedNodes search) →
  cacheConsistent cache1 → cacheConsistent cache2 →
  agree (Area.searchLoop fuel1 traceFuel1 area destination getHeuristic search cache1).1
        (Area.searchLoop fuel2 traceFuel2 area destination getHeuristic search cache2).1.
Proof.
  revert fuel2 search cache1 cache2.
  induction fuel1 as [|fuel1 IH]; intros fuel2 search cache1 cache2 Hkeyed Hcache1 Hcache2;
    [by intros ? ?|].
  destruct fuel2 as [|fuel2]; [by intros ? ?|].
  destruct (decide (Area.unvisitedNodes search = [])) as [Hempty|Hnonempty].
  { cbn [Area.searchLoop]. rewrite Hempty. cbn. intros ? ?. congruence. }
  destruct (searchLoop_unfold fuel1 traceFuel1 area destination getHeuristic search cache1)
    as (current & cache1' & Hsel & Hcache1' & ->); [done..|].
  destruct (searchLoop_unfold fuel2 traceFuel2 area destination getHeuristic search cache2)
    as (current' & cache2' & Hsel' & Hcache2' & ->); [done..|].
  rewrite <- (selected_unique search current current') by done.
  destruct (Coordinates.equals current destination); [apply tracePath_agree|].
  apply IH; [|done..]. rewrite advance_unvisitedNodes.
  intros k [Hk _]%elem_of_remaining. by apply Hkeyed.
Qed.

Lemma findDijkstraPath_agree area source destination getHeuristic fuel1 fuel2 cache1 cache2 :
  cacheConsistent cache1 → cacheConsistent cache2 →
  agree (Area.findDijkstraPath fuel1 area source destination getHeuristic cache1).1
        (Area.findDijkstraPath fuel2 area source destination getHeuristic cache2).1.
Proof. intros. apply searchLoop_agree; [apply initialSearch_keyed|done..]. Qed.

End Determinism.

(** In exact arithmetic two runs of [findDijkstraPath] return, and return
    the same path. *)
Lemma findDijkstraPath_returns {number : Number} {laws : NumberLaws number}
    area source destination (getHeuristic : Coordinates.t → num) fuel1 fuel2 cache1 cache2 :
  admissible getHeuristic →
  cacheConsistent cache1 → cacheConsistent cache2 →
  (S (length (Area.gridCells area)) < fuel1)%nat →
  (S (length (Area.gridCells area)) < fuel2)%nat →
  ∃ path,
    (Area.findDijkstraPath fuel1 area source destination getHeuristic cache1).1 = Ok path
    ∧ (Area.findDijkstraPath fuel2 area source destination getHeuristic cache2).1 = Ok path.
Proof.
  intros Hadm Hcache1 Hcache2 Hfuel1 Hfuel2.
  destruct (findDijkstraPath_run area source destination getHeuristic Hadm
              (λ _, True) fuel1 cache1) as (path1 & cache1' & _ & Hrun1 & _); [done..|].
  destruct (findDijkstraPath_run area source destination getHeuristic Hadm
              (λ _, True) fuel2 cache2) as (path2 & cache2' & _ & Hrun2 & _); [done..|].
  exists path1. rewrite Hrun1, Hrun2. split; [done|]. cbn. f_equal. symmetry.
  apply (findDijkstraPath_agree area source destination getHeuristic fuel1 fuel2 cache1 cache2);
    by rewrite ?Hrun1, ?Hrun2.
Qed.

(** ** The order of extraction *)

Section Sequenced.
Context {number : Number} (regular : num → Prop) {laws : OrderLaws number regular}.
Variables (area : Area.t) (source : Coordinates.t) (getHeuristic : Coordinates.t → num).
Hypothesis heuristic_regular : ∀ xy, regular (getHeuristic xy).

Implicit Types (search : Area.Search) (order : list string) (current n : Coordinates.t).

Local Abbreviation sequenced := (sequenced regular area).
Local Abbreviation relaxing := (relaxing regular area).
Local Abbreviation key xy := (Coordinates.toString xy).

Lemma regular_irreflexive a : regular a → ltb a a = false.
Proof.
  intros Ha. destruct (ltb a a) eqn:E; [|done].
  by rewrite (regular_asymmetric a a) in E.
Qed.

(** [d + 1 + h] is not below [d]. *)
Lemma step_nondecrease d h : regular d → regular h → ltb (add (add d one) h) d = false.
Proof.
  intros Hd Hh.
  apply (regular_negatively_transitive _ (add d one)); try done.
  - apply regular_add; [apply regular_add|]; [done|apply regular_one|done].
  - apply regular_add; [done|apply regular_one].
  - apply regular_nondecrease; [|done]. apply regular_add; [done|apply regular_one].
  - apply regular_nondecrease; [done|apply regular_one].
Qed.

Lemma step_regular d h : regular d → regular h → regular (add (add d one) h).
Proof. intros. apply regular_add; [apply regular_add|]; [done|apply regular_one|done]. Qed.

Lemma initialSearch_sequenced : sequenced [] (Area.initialSearch area source).
Proof.
  unfold Area.initialSearch.
  set (search0 := Area.mkSearch [key source] {[key source := zero]} ∅).
  destruct (scan_spec area source (Area.gridCells area) search0)
    as (Hun & Hdist & Hkeep & Hnew & Hprev & _ & Hlen).
  split.
  - apply (initialSearch_keyed area source).
  - intros k [Hin|(xy & Hcell & Hxy & ->)]%Hun; [|by apply Hnew].
    apply Hkeep. cbn in Hin. apply list_elem_of_singleton in Hin as ->.
    cbn. rewrite lookup_singleton_eq. eauto.
  - intros k d Hd. destruct (Hdist k d Hd) as [(xy & _ & _ & _ & ->)|Hd0].
    + apply regular_infinity.
    + cbn in Hd0. apply lookup_singleton_Some in Hd0 as [_ <-]. apply regular_zero.
  - by intros k ?%elem_of_nil.
  - by intros v u dv du ?%elem_of_nil.
  - intros k u. rewrite Hprev. cbn. by rewrite lookup_empty.
  - cbn in Hlen. cbn [length]. lia.
Qed.

(** The node extracted is a nearest unvisited one. *)
Lemma selected_nearest order search current dc :
  sequenced order search → selected search current →
  Area.distances search !! key current = Some dc →
  ∀ k d, k ∈ Area.unvisitedNodes search → Area.distances search !! k = Some d →
         ltb d dc = false.
Proof.
  intros Hseq Hsel Hdc.
  destruct (head_sortBy_least (Area.compareDistances (Area.distances search))
              (Area.unvisitedNodes search) (key current)) as [_ Hleast]; [| |done|].
  - intros a b Ha Hb. rewrite !compareDistances_before.
    destruct (sequenced_distance _ _ _ _ Hseq a Ha) as [da Hda].
    destruct (sequenced_distance _ _ _ _ Hseq b Hb) as [db Hdb].
    rewrite Hda, Hdb. cbn [Area.lessThan].
    apply regular_asymmetric; by eapply sequenced_regular.
  - intros a b c Ha Hb Hc. rewrite !compareDistances_before.
    destruct (sequenced_distance _ _ _ _ Hseq a Ha) as [da Hda].
    destruct (sequenced_distance _ _ _ _ Hseq b Hb) as [db Hdb].
    destruct (sequenced_distance _ _ _ _ Hseq c Hc) as [dc' Hdc'].
    rewrite Hda, Hdb, Hdc'. cbn [Area.lessThan].
    apply regular_negatively_transitive; by eapply sequenced_regular.
  - intros k d Hk Hd. specialize (Hleast k Hk).
    rewrite compareDistances_before, Hd, Hdc in Hleast. done.
Qed.

Lemma updateDistance_relaxing order current dc search n :
  n ≠ current →
  relaxing order current dc search →
  relaxing order current dc (Area.updateDistance getHeuristic current search n).
Proof.
  intros Hne (Hseq & Hdc & Hnear). unfold Area.updateDistance. rewrite Hdc.
  set (distance := add (add dc one) (getHeuristic n)).
  destruct (Area.lessThan _ _) eqn:Hless; [|done].
  apply lessThan_true in Hless as (? & dn & [= <-] & Hdn & Hlt).
  assert (regular dc) as Hrdc by (by eapply sequenced_regular).
  assert (regular dn) as Hrdn by (by eapply sequenced_regular).
  assert (regular distance) as Hrd by (by apply step_regular).
  assert (ltb distance dc = false) as Hstep by (by apply step_nondecrease).
  assert (key n ∉ order ++ [key current]) as Hfresh.
  { intros Hin. specialize (Hnear _ _ Hin Hdn).
    by rewrite (regular_negatively_transitive distance dc dn) in Hlt. }
  assert (key n ≠ key current) as Hkey by (by intros ?%toString_inj).
  split; [split|split]; cbn [Area.unvisitedNodes Area.distances Area.previousDistances].
  - apply (sequenced_keyed _ _ _ _ Hseq).
  - intros k Hk. rewrite lookup_insert. case_decide; [by eexists|].
    by apply (sequenced_distance _ _ _ _ Hseq).
  - intros k d. rewrite lookup_insert. case_decide; [by intros [= <-]|].
    apply (sequenced_regular _ _ _ _ Hseq).
  - apply (sequenced_visited _ _ _ _ Hseq).
  - intros v u dv du Hv Hu. rewrite !lookup_insert.
    destruct (decide (key n = v)) as [<-|_]; [done|].
    destruct (decide (key n = u)) as [<-|_]; [|by apply (sequenced_settled _ _ _ _ Hseq)].
    intros Hdv [= <-].
    apply (regular_negatively_transitive distance dc dv); try done.
    + by eapply sequenced_regular.
    + by apply (Hnear v).
  - intros k u. rewrite lookup_insert. case_decide as Hk.
    + intros [= <-]. subst k. split; [by exists n|].
      exists (length order). split; [by rewrite lookup_app_r, Nat.sub_diag|].
      intros j Hj. destruct Hfresh. by apply list_elem_of_lookup_2 in Hj.
    + apply (sequenced_previous _ _ _ _ Hseq).
  - apply (sequenced_count _ _ _ _ Hseq).
  - by rewrite lookup_insert_ne.
  - intros v dv Hv. rewrite lookup_insert. case_decide as Hk; [by subst v|].
    by apply Hnear.
Qed.

Lemma foldl_updateDistance_relaxing order current dc ns search :
  (∀ n, n ∈ ns → n ≠ current) →
  relaxing order current dc search →
  relaxing order current dc (foldl (Area.updateDistance getHeuristic current) search ns).
Proof.
  revert search. induction ns as [|n ns IH]; intros search Hns Hrel; [done|].
  cbn [foldl]. apply IH.
  - intros n' Hn'. apply Hns, elem_of_cons. by right.
  - apply updateDistance_relaxing; [|done]. apply Hns, list_elem_of_here.
Qed.

(** One iteration keeps the invariant, with the extracted key appended. *)
Lemma advance_sequenced order search current :
  sequenced order search → selected search current →
  sequenced (order ++ [key current]) (advance area getHeuristic current search).
Proof.
  intros Hseq Hsel. pose proof (selected_unvisited _ _ Hsel) as Hin.
  destruct (sequenced_distance _ _ _ _ Hseq _ Hin) as [dc Hdc].
  pose proof (selected_nearest _ _ _ _ Hseq Hsel Hdc) as Hleast.
  unfold advance.
  apply (foldl_updateDistance_relaxing order current dc).
  { intros n. apply neighbour_neq. }
  assert (regular dc) as Hrdc by (by eapply sequenced_regular).
  split; [split|split]; cbn [Area.unvisitedNodes Area.distances Area.previousDistances].
  - intros k [Hk _]%elem_of_remaining. by apply (sequenced_keyed _ _ _ _ Hseq).
  - intros k [Hk _]%elem_of_remaining. by apply (sequenced_distance _ _ _ _ Hseq).
  - apply (sequenced_regular _ _ _ _ Hseq).
  - intros k [Hk| ->%list_elem_of_singleton]%elem_of_app [Hk' Hne]%elem_of_remaining; [|done].
    by apply (sequenced_visited _ _ _ _ Hseq k).
  - intros v u dv du [Hv| ->%list_elem_of_singleton]%elem_of_app [Hu _]%elem_of_remaining
      Hdv Hdu.
    + by apply (sequenced_settled _ _ _ _ Hseq v u).
    + simplify_eq. by apply (Hleast u).
  - intros k u Hprev.
    destruct (sequenced_previous _ _ _ _ Hseq k u Hprev) as (Hxy & i & Hi & Hlater).
    split; [done|]. exists i. pose proof (lookup_lt_Some _ _ _ Hi) as Hlt.
    split; [by rewrite lookup_app_l|].
    intros j Hj. destruct (decide (j < length order)%nat) as [Hj'|Hj'].
    + rewrite lookup_app_l in Hj by done. by apply Hlater.
    + lia.
  - rewrite length_app. cbn [length].
    pose proof (length_remaining _ _ Hin). pose proof (sequenced_count _ _ _ _ Hseq). lia.
  - done.
  - intros v dv [Hv| ->%list_elem_of_singleton]%elem_of_app Hdv.
    + by apply (sequenced_settled _ _ _ _ Hseq v (key current)).
    + simplify_eq. by apply regular_irreflexive.
Qed.

(** The walk through the predecessors ends: each one was extracted before
    the cell it is recorded for. *)
Lemma tracePath_sequenced {St} order search (st : St) :
  sequenced order search →
  ∀ fuel previous navigated,
    (0 < fuel)%nat →
    (∀ u, previous = Some u →
          ∃ i, order !! i = Some (key u) ∧ (S i < fuel)%nat) →
    ∃ path,
      Area.tracePath fuel (Area.previousDistances search) previous navigated st = (Ok path, st).
Proof.
  intros Hseq. induction fuel as [|fuel IH]; intros previous navigated Hfuel Hrank; [lia|].
  cbn [Area.tracePath]. rewrite mapHas_string.
  case_bool_decide as Hhas; [|by eexists].
  destruct Hhas as [u' Hu'].
  destruct (sequenced_previous _ _ _ _ Hseq _ _ Hu') as ((xy & Hkey) & i' & Hi' & Hlater).
  destruct previous as [u|]; [|cbn in Hkey; symmetry in Hkey; by apply toString_not_undefined in Hkey].
  cbn [stringOf] in *. destruct (Hrank u eq_refl) as (i & Hi & Hlt).
  specialize (Hlater i Hi). rewrite Hu'. apply IH; [lia|].
  intros ? [= <-]. exists i'. split; [done|lia].
Qed.

(** The call returns, whatever the additions round to. *)
Lemma findDijkstraPath_returns_regular destination fuel cache :
  cacheConsistent cache →
  (S (length (Area.gridCells area)) < fuel)%nat →
  ∃ path cache',
    Area.findDijkstraPath fuel area source destination getHeuristic cache = (Ok path, cache').
Proof.
  intros Hcache Hfuel. unfold Area.findDijkstraPath.
  pose proof initialSearch_sequenced as Hinit.
  destruct (searchLoop_invariant (λ search, ∃ order, sequenced order search)
              fuel area destination getHeuristic) with
    (fuel := fuel) (search := Area.initialSearch area source) (cache := cache)
    as (cache' & _ & [(search & [order Hseq] & Hsel & ->) | [_ ->]]).
  - intros search [order Hseq]. apply (sequenced_keyed _ _ _ _ Hseq).
  - intros search current [order Hseq] Hsel _. eexists. by apply advance_sequenced.
  - by exists [].
  - done.
  - pose proof (sequenced_count _ _ _ _ Hinit). cbn [length] in *. lia.
  - pose proof (selected_unvisited _ _ Hsel) as Hin.
    pose proof (sequenced_count _ _ _ _ Hseq) as Hcount.
    assert (0 < length (Area.unvisitedNodes search))%nat as Hpos.
    { destruct (Area.unvisitedNodes search); [by apply elem_of_nil in Hin|cbn; lia]. }
    destruct (tracePath_sequenced order search cache' Hseq fuel
                (Area.previousDistances search !! key destination) []) as [path Hpath].
    + lia.
    + intros u Hu.
      destruct (sequenced_previous _ _ _ _ Hseq _ _ Hu) as (_ & i & Hi & _).
      exists i. split; [done|]. pose proof (lookup_lt_Some _ _ _ Hi). lia.
    + by exists path, cache'.
  - by exists [], cache'.
Qed.

End Sequenced.

(** ** The doubles of the searches *)

Section Rounding.

Implicit Types (m e n : Z) (p : positive) (r : shr_record) (l : location).

Lemma fexp_eq e : fexp prec emax e = Z.max (e - 53) (-1074).
Proof. reflexivity. Qed.

Lemma Zdigits2_log2 m : 0 < m → Zdigits2 m = Z.log2 m + 1.
Proof.
  destruct m as [|p|p]; [lia| |lia]. intros _. cbn [Zdigits2].
  assert (∀ q, digits2_pos q = Pos.size q) as Hsize by (induction q; cbn; congruence).
  rewrite Hsize. destruct p; cbn; lia.
Qed.

Lemma shr_1_m r : 0 ≤ shr_m r → shr_m (shr_1 r) = shr_m r / 2.
Proof.
  destruct r as [m b s]. cbn [shr_m]. intros Hm.
  destruct m as [|[q|q|]|q]; cbn [shr_1 shr_m]; Z.div_mod_to_equations; lia.
Qed.

Lemma pow2_xO p : 2 ^ Zpos p~0 = 2 ^ Zpos p * 2 ^ Zpos p.
Proof. rewrite <- Z.pow_add_r by lia. f_equal. lia. Qed.

Lemma pow2_xI p : 2 ^ Zpos p~1 = 2 * (2 ^ Zpos p * 2 ^ Zpos p).
Proof.
  rewrite <- Z.pow_add_r by lia. rewrite <- (Z.pow_succ_r 2) by lia. f_equal. lia.
Qed.

Lemma iter_shr_1_m p r :
  0 ≤ shr_m r → shr_m (SpecFloat.iter_pos shr_1 p r) = shr_m r / 2 ^ Zpos p.
Proof.
  revert r. induction p as [p IH|p IH|]; intros r Hr; cbn [SpecFloat.iter_pos].
  - assert (0 ≤ shr_m (shr_1 r)) as H1
      by (rewrite shr_1_m by done; apply Z.div_pos; lia).
    assert (0 ≤ shr_m (SpecFloat.iter_pos shr_1 p (shr_1 r))) as H2
      by (rewrite IH by done; apply Z.div_pos; lia).
    rewrite IH, IH, shr_1_m by done.
    rewrite !Z.div_div by lia. by rewrite pow2_xI.
  - assert (0 ≤ shr_m (SpecFloat.iter_pos shr_1 p r)) as H2
      by (rewrite IH by done; apply Z.div_pos; lia).
    rewrite IH, IH by done. rewrite Z.div_div by lia. by rewrite pow2_xO.
  - by rewrite shr_1_m.
Qed.

Lemma shr_spec r e n :
  0 ≤ shr_m r →
  shr_m (shr r e n).1 = shr_m r / 2 ^ Z.max 0 n ∧ (shr r e n).2 = e + Z.max 0 n.
Proof.
  intros Hr. destruct n as [|p|p]; cbn [shr fst snd].
  - rewrite Z.div_1_r. lia.
  - rewrite iter_shr_1_m by done. rewrite Z.max_r by lia. done.
  - rewrite Z.max_l by lia. rewrite Z.div_1_r. lia.
Qed.

Lemma shr_fexp_spec m e l :
  0 ≤ m →
  let n := Z.max 0 (fexp prec emax (Zdigits2 m + e) - e) in
  shr_m (shr_fexp prec emax m e l).1 = m / 2 ^ n ∧ (shr_fexp prec emax m e l).2 = e + n.
Proof.
  intros Hm n. unfold shr_fexp.
  destruct (shr_spec (shr_record_of_loc m l) e (fexp prec emax (Zdigits2 m + e) - e))
    as [H1 H2].
  { by destruct l as [|[]]. }
  rewrite H1, H2. split; [|done]. by destruct l as [|[]].
Qed.

Lemma round_nearest_even_bounds m l : m ≤ round_nearest_even m l ≤ m + 1.
Proof. destruct l as [|[]]; cbn; try lia. destruct (Z.even m); lia. Qed.

(** The shape of a rounded result: the mantissa is cut to the exponent of
    its magnitude, moved up by at most one, and cut once more. *)
Lemma binary_round_aux_spec m e l :
  0 ≤ m →
  let n1 := Z.max 0 (fexp prec emax (Zdigits2 m + e) - e) in
  ∃ m2,
    m / 2 ^ n1 ≤ m2 ≤ m / 2 ^ n1 + 1
    ∧ let n2 := Z.max 0 (fexp prec emax (Zdigits2 m2 + (e + n1)) - (e + n1)) in
      binary_round_aux prec emax false m e l
      = match m2 / 2 ^ n2 with
        | Z0 => S754_zero false
        | Zpos q =>
            if e + n1 + n2 <=? emax - prec then S754_finite false q (e + n1 + n2)
            else S754_infinity false
        | Zneg _ => S754_nan
        end.
Proof.
  intros Hm n1. unfold binary_round_aux.
  destruct (shr_fexp_spec m e l Hm) as [H1 H2]. fold n1 in H1, H2.
  destruct (shr_fexp prec emax m e l) as [mrs' e'] eqn:E1. cbn [fst snd] in H1, H2. subst e'.
  set (m2 := round_nearest_even (shr_m mrs') (loc_of_shr_record mrs')).
  pose proof (round_nearest_even_bounds (shr_m mrs') (loc_of_shr_record mrs')) as Hm2.
  fold m2 in Hm2. rewrite H1 in Hm2.
  assert (0 ≤ m / 2 ^ n1) as Hpos by (apply Z.div_pos; lia).
  exists m2. split; [done|]. cbv zeta.
  destruct (shr_fexp_spec m2 (e + n1) loc_Exact) as [H3 H4]; [lia|].
  destruct (shr_fexp prec emax m2 (e + n1) loc_Exact) as [mrs'' e''] eqn:E2.
  cbn [fst snd] in H3, H4. subst e''. rewrite H3. done.
Qed.

Lemma binary_round_aux_nonnegative m e l :
  0 ≤ m → nonnegative (binary_round_aux prec emax false m e l).
Proof.
  intros Hm. destruct (binary_round_aux_spec m e l Hm) as (m2 & Hm2 & ->).
  assert (0 ≤ m / 2 ^ Z.max 0 (fexp prec emax (Zdigits2 m + e) - e)) by (apply Z.div_pos; lia).
  match goal with |- nonnegative (match ?q with _ => _ end) =>
    assert (0 ≤ q) by (apply Z.div_pos; lia); destruct q end; [done| |lia].
  by destruct (_ <=? _).
Qed.

Lemma iter_xO (m d : positive) : Zpos (Pos.iter xO m d) = Zpos m * 2 ^ Zpos d.
Proof.
  induction d as [|d IH] using Pos.peano_ind.
  - cbn [Pos.iter]. lia.
  - rewrite Pos.iter_succ, Pos2Z.inj_xO, IH, Pos2Z.inj_succ, Z.pow_succ_r by lia. lia.
Qed.

Lemma shl_align_spec mx ex ex' :
  (shl_align mx ex ex').2 = Z.min ex ex'
  ∧ Zpos (shl_align mx ex ex').1 = Zpos mx * 2 ^ (ex - Z.min ex ex').
Proof.
  unfold shl_align. destruct (ex' - ex) as [|d|d] eqn:E; cbn [fst snd].
  - rewrite Z.min_l by lia. rewrite Z.sub_diag. lia.
  - rewrite Z.min_l by lia. rewrite Z.sub_diag. lia.
  - rewrite Z.min_r by lia. split; [done|]. rewrite iter_xO. do 2 f_equal. lia.
Qed.

Lemma pow2_le_log2 m n : 0 < m → 0 ≤ n ≤ Z.log2 m → 2 ^ n ≤ m.
Proof.
  intros Hm Hn. pose proof (Z.log2_spec m Hm) as [Hlow _].
  pose proof (Z.pow_le_mono_r 2 n (Z.log2 m)). lia.
Qed.

(** Rounding a sum that is at least [mx * 2 ^ ex] does not fall below the
    double [mx * 2 ^ ex]. *)
Lemma binary_round_lower (mx M : positive) ex ez :
  bounded prec emax mx ex = true →
  ez ≤ ex →
  Zpos mx * 2 ^ (ex - ez) ≤ Zpos M →
  nonnegative (binary_round prec emax false M ez)
  ∧ SFltb (binary_round prec emax false M ez) (S754_finite false mx ex) = false.
Proof.
  intros Hbounded Hez HM. unfold binary_round.
  set (E := fexp prec emax (Zpos (digits2_pos M) + ez)).
  destruct (shl_align_spec M ez E) as [He1 Hmz].
  destruct (shl_align M ez E) as [mz e1]. cbn [fst snd] in He1, Hmz.
  rewrite <- He1 in Hmz.
  split; [by apply binary_round_aux_nonnegative|].
  destruct (binary_round_aux_spec (Zpos mz) e1 loc_Exact) as (m2 & Hm2 & ->); [lia|].
  (* magnitudes *)
  apply andb_true_iff in Hbounded as [Hcanonical _].
  unfold canonical_mantissa in Hcanonical. apply Z.eqb_eq in Hcanonical.
  change (Zpos (digits2_pos mx)) with (Zdigits2 (Zpos mx)) in Hcanonical.
  change (Zpos (digits2_pos M)) with (Zdigits2 (Zpos M)) in E.
  rewrite Zdigits2_log2 in Hcanonical by lia.
  assert (0 < 2 ^ (ex - ez)) as Hpow by (apply Z.pow_pos_nonneg; lia).
  assert (Z.log2 (Zpos mx) + (ex - ez) ≤ Z.log2 (Zpos M)) as Hlog.
  { rewrite <- (Z.add_comm (ex - ez)), <- Z.log2_mul_pow2 by lia. by apply Z.log2_le_mono. }
  assert (Zdigits2 (Zpos mz) + e1 = Zdigits2 (Zpos M) + ez) as Hmag.
  { rewrite !Zdigits2_log2 by lia. rewrite Hmz, Z.log2_mul_pow2 by lia. lia. }
  rewrite Hmag in *. fold E in Hm2 |- *.
  assert (ex ≤ E) as HE.
  { unfold E. rewrite Zdigits2_log2 by lia. rewrite fexp_eq in *. lia. }
  assert (Z.max 0 (E - e1) = E - e1) as Hn1 by lia. rewrite Hn1 in *.
  replace (e1 + (E - e1)) with E in * by lia.
  set (m1 := Zpos mz / 2 ^ (E - e1)) in *.
  assert (1 ≤ m1 ∧ (E = ex → Zpos mx ≤ m1)) as [Hm1 Hm1x].
  { assert (E = ex → Zpos mx ≤ m1) as Hx.
    { intros HEx. unfold m1. apply Z.div_le_lower_bound; [apply Z.pow_pos_nonneg; lia|].
      replace e1 with ez in * by lia. rewrite Z.sub_diag, Z.mul_1_r in Hmz.
      rewrite Hmz, HEx. lia. }
    split; [|done].
    destruct (decide (E = ex)) as [HEx|HEx]; [specialize (Hx HEx); lia|].
    unfold m1. apply Z.div_le_lower_bound; [apply Z.pow_pos_nonneg; lia|].
    rewrite Z.mul_1_r. destruct (decide (E ≤ ez)) as [Hle|Hgt].
    - replace (E - e1) with 0 by lia. lia.
    - replace e1 with ez in * by lia. rewrite Z.sub_diag, Z.mul_1_r in Hmz. rewrite Hmz.
      apply pow2_le_log2; [lia|].
      unfold E in *. rewrite Zdigits2_log2 in * by lia. rewrite fexp_eq in *. lia. }
  set (n2 := Z.max 0 (fexp prec emax (Zdigits2 m2 + E) - E)).
  assert (1 ≤ m2 / 2 ^ n2 ∧ (n2 = 0 → m2 / 2 ^ n2 = m2)) as [Hm3 Hm3x].
  { split; [|intros ->; by rewrite Z.div_1_r].
    apply Z.div_le_lower_bound; [apply Z.pow_pos_nonneg; lia|]. rewrite Z.mul_1_r.
    apply pow2_le_log2; [lia|].
    unfold n2. rewrite Zdigits2_log2 by lia. rewrite fexp_eq.
    unfold E in HE |- *. rewrite fexp_eq in *.
    pose proof (Z.log2_nonneg m2). lia. }
  destruct (m2 / 2 ^ n2) as [|q|q] eqn:Hq; [lia| |lia].
  destruct (E + n2 <=? emax - prec); [|done].
  unfold SFltb, SFcompare.
  destruct (E + n2 ?= ex) eqn:Hcmp.
  - apply Z.compare_eq_iff in Hcmp.
    assert (n2 = 0 ∧ E = ex) as [Hn2 HEx] by (unfold n2 in *; lia).
    specialize (Hm3x Hn2). specialize (Hm1x HEx).
    change (Pos.compare_cont Eq q mx) with (Pos.compare q mx).
    destruct (Pos.compare_spec q mx); [done|lia|done].
  - rewrite Z.compare_lt_iff in Hcmp. unfold n2 in *. lia.
  - done.
Qed.

End Rounding.

Section Float64Order.

Implicit Types (x y z : spec_float).

Lemma SFltb_place x y :
  nonnegative x → nonnegative y → SFltb x y = true ↔ float64_below (float64_place x) (float64_place y).
Proof.
  unfold float64_below.
  destruct x as [sx|[]| |[] mx ex], y as [sy|[]| |[] my ey]; try done; intros _ _;
    unfold SFltb, SFcompare; cbn [float64_place fst snd]; try (split; [done|lia]);
    try (split; [lia|done]); try (split; [intros _; lia|done]).
  change (Pos.compare_cont Eq mx my) with (Pos.compare mx my).
  destruct (Z.compare_spec ex ey); [destruct (Pos.compare_spec mx my)|..];
    split; try done; lia.
Qed.

Lemma SFltb_asymmetric x y :
  nonnegative x → nonnegative y → SFltb x y = true → SFltb y x = false.
Proof.
  intros Hx Hy Hlt. apply (SFltb_place x y Hx Hy) in Hlt.
  destruct (SFltb y x) eqn:E; [|done]. apply (SFltb_place y x Hy Hx) in E.
  unfold float64_below in *. lia.
Qed.

Lemma SFltb_negatively_transitive x y z :
  nonnegative x → nonnegative y → nonnegative z →
  SFltb x y = false → SFltb y z = false → SFltb x z = false.
Proof.
  intros Hx Hy Hz Hxy Hyz.
  destruct (SFltb x z) eqn:E; [|done]. apply (SFltb_place x z Hx Hz) in E.
  assert (¬ float64_below (float64_place x) (float64_place y)) as Hxy'
    by (intros H; apply (SFltb_place x y Hx Hy) in H; congruence).
  assert (¬ float64_below (float64_place y) (float64_place z)) as Hyz'
    by (intros H; apply (SFltb_place y z Hy Hz) in H; congruence).
  unfold float64_below in *. lia.
Qed.

(** The sum of two such doubles is one of them too, and not below the
    first operand. *)
Lemma SFadd_nondecrease x y :
  valid_binary x = true → nonnegative x → nonnegative y →
  nonnegative (SF64add x y) ∧ SFltb (SF64add x y) x = false.
Proof.
  intros Hvalid Hx Hy.
  destruct x as [sx|[]| |[] mx ex], y as [sy|[]| |[] my ey]; try done;
    try (split; [done|]; unfold SFltb, SFcompare; cbn; by rewrite ?Z.compare_refl, ?Pos.compare_cont_refl).
  - split; [by destruct sx, sy|]. by destruct sx, sy.
  - unfold SF64add, SFadd. cbn [cond_Zopp]. cbv zeta.
    set (ez := Z.min ex ey).
    destruct (shl_align_spec mx ex ez) as [_ Hx'].
    destruct (shl_align_spec my ey ez) as [_ Hy'].
    replace (Z.min ex ez) with ez in Hx' by lia.
    replace (Z.min ey ez) with ez in Hy' by lia.
    set (mx' := (shl_align mx ex ez).1) in *. set (my' := (shl_align my ey ez).1) in *.
    change (Zpos mx' + Zpos my') with (Zpos (mx' + my')). cbn [binary_normalize].
    apply binary_round_lower; [done|lia|lia].
Qed.

Lemma SFmul_square x : x ≠ S754_nan → nonnegative (SF64mul x x).
Proof.
  intros Hx. destruct x as [s|s| |s m e]; try done.
  - by destruct s.
  - unfold SF64mul, SFmul. rewrite xorb_nilpotent. by apply binary_round_aux_nonnegative.
Qed.

Lemma SFsqrt_nonnegative x : nonnegative x → nonnegative (SF64sqrt x).
Proof.
  intros Hx. destruct x as [s|[]| |[] m e]; try done.
  unfold SF64sqrt, SFsqrt, SFsqrt_core_binary.
  set (m' := match _ - _ with Z0 => _ | Zpos _ => _ | Zneg _ => _ end).
  pose proof (Z.sqrtrem_sqrt m') as Hq.
  destruct (Z.sqrtrem m') as [q r]. cbn [fst] in Hq.
  apply binary_round_aux_nonnegative. rewrite Hq. apply Z.sqrt_nonneg.
Qed.

Lemma binary_normalize_nonnegative n :
  0 ≤ n → nonnegative (binary_normalize prec emax n 0 false).
Proof.
  intros Hn. destruct n as [|m|m]; [done| |lia].
  unfold binary_normalize, binary_round.
  destruct (shl_align _ _ _) as [mz ez]. by apply binary_round_aux_nonnegative.
Qed.

End Float64Order.

Section Float64Laws.

Lemma nonnegative_not_nan x : nonnegative x → x ≠ S754_nan.
Proof. by destruct x. Qed.

Global Instance float64_order_laws : OrderLaws float64 float64_regular.
Proof.
  unfold float64_regular. split; cbn [num zero one infinity add ltb float64].
  - by vm_compute.
  - by vm_compute.
  - by vm_compute.
  - intros a b Ha Hb. rewrite FloatAxioms.add_spec.
    by apply SFadd_nondecrease; [apply Prim2SF_valid|..].
  - intros a b Ha Hb. rewrite !FloatAxioms.ltb_spec. by apply SFltb_asymmetric.
  - intros a b c Ha Hb Hc. rewrite !FloatAxioms.ltb_spec. by apply SFltb_negatively_transitive.
  - intros a b Ha Hb. rewrite FloatAxioms.ltb_spec, FloatAxioms.add_spec.
    by apply SFadd_nondecrease; [apply Prim2SF_valid|..].
Qed.

Lemma numberOfZ_not_nan n : Prim2SF (numberOfZ n) ≠ S754_nan.
Proof.
  unfold numberOfZ. destruct (n <? 0).
  - rewrite FloatAxioms.opp_spec, of_uint63_spec.
    pose proof (binary_normalize_nonnegative (to_Z (of_Z (- n)))) as H.
    destruct (binary_normalize _ _ _ _ _) as [|[]| |[]]; try done;
      exfalso; apply H; apply to_Z_bounded.
  - rewrite of_uint63_spec. apply nonnegative_not_nan, binary_normalize_nonnegative.
    apply to_Z_bounded.
Qed.

(** The Euclidean heuristic is such a value at every cell. *)
Lemma float64_norm_regular x y : float64_regular (norm (Euclidean := float64_norm) x y).
Proof.
  unfold float64_regular. cbn [norm float64_norm]. cbv zeta.
  rewrite FloatAxioms.sqrt_spec, FloatAxioms.add_spec, !FloatAxioms.mul_spec. apply SFsqrt_nonnegative.
  apply SFadd_nondecrease.
  - rewrite <- FloatAxioms.mul_spec. apply Prim2SF_valid.
  - apply SFmul_square, numberOfZ_not_nan.
  - apply SFmul_square, numberOfZ_not_nan.
Qed.

End Float64Laws.

(** In binary64 too, [findDijkstraPath] and [findAStarPath] return. *)
Lemma findDijkstraPath_returns_float64 area source destination fuel cache :
  cacheConsistent cache →
  (S (length (Area.gridCells area)) < fuel)%nat →
  (∃ path cache',
     Area.findDijkstraPath (number := float64) fuel area source destination (constant zero) cache
     = (Ok path, cache'))
  ∧ (∃ path cache',
       Area.findAStarPath (euclidean := float64_norm) fuel area source destination cache
       = (Ok path, cache')).
Proof.
  intros Hcache Hfuel. split.
  - apply (findDijkstraPath_returns_regular (number := float64) float64_regular); [|done..].
    intros xy. apply (regular_zero (number := float64)).
  - apply (findDijkstraPath_returns_regular (number := float64) float64_regular); [|done..].
    intros xy. apply float64_norm_regular.
Qed.

(** ** Areas with the same grid *)

Section SameGrid.
Variables area1 area2 : Area.t.
Hypothesis same : sameGrid area1 area2.

Lemma sameGrid_valid xy :
  Area.isValidAgentPosition area1 xy = Area.isValidAgentPosition area2 xy.
Proof.
  destruct same as (Hw & Hh & _ & Hwalls).
  unfold Area.isValidAgentPosition, Area.areCoordinatesValid. rewrite Hw, Hh. f_equal. f_equal.
  apply bool_decide_ext, Hwalls.
Qed.

Lemma sameGrid_cells : Area.gridCells area1 = Area.gridCells area2.
Proof. destruct same as (Hw & Hh & _). unfold Area.gridCells. by rewrite Hw, Hh. Qed.

Lemma firstPath_ext (visit visit' : Coordinates.t → M Area.Trail (list Coordinates.t))
    neighbours trail :
  (∀ n trail, visit n trail = visit' n trail) →
  Area.firstPath visit neighbours trail = Area.firstPath visit' neighbours trail.
Proof.
  intros Hvisit. revert trail. induction neighbours as [|n ns IH]; intros trail; [done|].
  cbn [Area.firstPath]. unfold mbind, M_bind. rewrite Hvisit.
  destruct (visit' n trail) as [[path| |] trail']; [|done..].
  destruct (negb _); [done|apply IH].
Qed.

(** The searches read an area through its dimensions, its flag and its
    walls only. *)
Lemma findDepthFirstPath_sameGrid fuel source destination sortNeighbours trail :
  Area.findDepthFirstPath fuel area1 source destination sortNeighbours trail
  = Area.findDepthFirstPath fuel area2 source destination sortNeighbours trail.
Proof.
  revert source trail. induction fuel as [|fuel IH]; intros source trail; [done|].
  cbn [Area.findDepthFirstPath]. unfold mbind, M_bind, modifyState, getState.
  destruct (Coordinates.equals source destination); [done|].
  destruct same as (_ & _ & Hflag & _). rewrite Hflag.
  rewrite (List.filter_ext _ (λ neighbour,
             Area.isValidAgentPosition area2 neighbour
             && negb (bool_decide (Coordinates.toString neighbour
                                   ∈ {[Coordinates.toString source]}
                                     ∪ Area.visitedNodes
                                         (Area.mkTrail (Area.visitedNodes trail)
                                            (Area.navigated trail ++ [source]))))))
    by (intros n; by rewrite sameGrid_valid).
  destruct (length _ =? 0)%nat; [done|]. by apply firstPath_ext.
Qed.

Context {number : Number}.

Lemma initialSearch_sameGrid source :
  Area.initialSearch area1 source = Area.initialSearch area2 source.
Proof.
  unfold Area.initialSearch. rewrite sameGrid_cells.
  generalize (Area.mkSearch [Coordinates.toString source]
                {[Coordinates.toString source := zero]} ∅).
  induction (Area.gridCells area2) as [|cell cells IH]; intros search; [done|].
  cbn [foldl]. by rewrite sameGrid_valid, IH.
Qed.

Lemma searchLoop_sameGrid fuel traceFuel destination getHeuristic (search : Area.Search) cache :
  Area.searchLoop fuel traceFuel area1 destination getHeuristic search cache
  = Area.searchLoop fuel traceFuel area2 destination getHeuristic search cache.
Proof.
  revert search cache. induction fuel as [|fuel IH]; intros search cache; [done|].
  cbn [Area.searchLoop]. destruct (length _ =? 0)%nat; [done|].
  unfold mbind, M_bind. destruct (mapArray _ _ _) as [[[|current sorted]| |] cache']; try done.
  destruct (Coordinates.equals current destination); [done|].
  destruct same as (_ & _ & Hflag & _). rewrite Hflag. apply IH.
Qed.

Lemma findDijkstraPath_sameGrid fuel source destination getHeuristic cache :
  Area.findDijkstraPath fuel area1 source destination getHeuristic cache
  = Area.findDijkstraPath fuel area2 source destination getHeuristic cache.
Proof.
  unfold Area.findDijkstraPath. rewrite initialSearch_sameGrid. apply searchLoop_sameGrid.
Qed.

End SameGrid.

(** C10: the four routines are deterministic.  Two calls of the same
    routine with the same source and destination, on areas with the same
    dimensions, diagonal flag and walls, both return, and return the same
    path: whatever else the two areas hold (agent, enemies, destination
    marker, what the canvas shows), whatever the cache of parsed keys holds
    at either call, and whatever the step budgets of the embedding.  The
    numbers are the doubles of the code. *)
Theorem pathfinding_deterministic area1 area2 source destination fuel1 fuel2 cache1 cache2 :
  sameGrid area1 area2 →
  cacheConsistent cache1 → cacheConsistent cache2 →
  (S (length (Area.gridCells area1)) < fuel1)%nat →
  (S (length (Area.gridCells area1)) < fuel2)%nat →
  (∃ path,
     (Area.findDepthFirstPath fuel1 area1 source destination identity Area.freshTrail).1
     = Ok path
     ∧ (Area.findDepthFirstPath fuel2 area2 source destination identity Area.freshTrail).1
       = Ok path)
  ∧ (∃ path,
       (Area.findDepthFirstPathDirectionally (euclidean := float64_norm)
          fuel1 area1 source destination Area.freshTrail).1 = Ok path
       ∧ (Area.findDepthFirstPathDirectionally (euclidean := float64_norm)
            fuel2 area2 source destination Area.freshTrail).1 = Ok path)
  ∧ (∃ path,
       (Area.findDijkstraPath (number := float64) fuel1 area1 source destination
          (constant zero) cache1).1 = Ok path
       ∧ (Area.findDijkstraPath (number := float64) fuel2 area2 source destination
            (constant zero) cache2).1 = Ok path)
  ∧ (∃ path,
       (Area.findAStarPath (euclidean := float64_norm) fuel1 area1 source destination
          cache1).1 = Ok path
       ∧ (Area.findAStarPath (euclidean := float64_norm) fuel2 area2 source destination
            cache2).1 = Ok path).
Proof.
  intros Hsame Hcache1 Hcache2 Hfuel1 Hfuel2.
  destruct (findDijkstraPath_returns_float64 area1 source destination fuel1 cache1)
    as [(dijkstra1 & ? & Hd1) (star1 & ? & Hs1)]; [done..|].
  destruct (findDijkstraPath_returns_float64 area1 source destination fuel2 cache2)
    as [(dijkstra2 & ? & Hd2) (star2 & ? & Hs2)]; [done..|].
  split; [|split; [|split]].
  - rewrite <- (findDepthFirstPath_sameGrid area1 area2 Hsame).
    by apply findDepthFirstPath_same.
  - unfold Area.findDepthFirstPathDirectionally.
    rewrite <- (findDepthFirstPath_sameGrid area1 area2 Hsame).
    apply findDepthFirstPath_same; [|done..]. intros xs xy. by rewrite elem_of_sortBy.
  - rewrite <- (findDijkstraPath_sameGrid area1 area2 Hsame).
    exists dijkstra1. rewrite Hd1, Hd2. split; [done|]. cbn. f_equal. symmetry.
    apply (findDijkstraPath_agree (number := float64) area1 source destination
             (constant zero) fuel1 fuel2 cache1 cache2); by rewrite ?Hd1, ?Hd2.
  - unfold Area.findAStarPath in *.
    rewrite <- (findDijkstraPath_sameGrid area1 area2 Hsame).
    exists star1. rewrite Hs1, Hs2. split; [done|]. cbn. f_equal. symmetry.
    eapply (findDijkstraPath_agree (number := float64) area1 source destination _
              fuel1 fuel2 cache1 cache2); by rewrite ?Hs1, ?Hs2.
Qed.

Lemma pathfinding_deterministic_witness :
  let source := Coordinates.mk 0 0 in
  let destination := Coordinates.mk 1 1 in
  let guarded := (Area.addEntity (Coordinates.mk 1 0) Enemy walledArea).2 in
  let cache := <["0,0" := Coordinates.mk 0 0]> (∅ : gmap string Coordinates.t) in
  (∃ path,
     (Area.findDepthFirstPath 10 walledArea source destination identity Area.freshTrail).1
     = Ok path
     ∧ (Area.findDepthFirstPath 20 guarded source destination identity Area.freshTrail).1
       = Ok path)
  ∧ (∃ path,
       (Area.findDepthFirstPathDirectionally (euclidean := float64_norm)
          10 walledArea source destination Area.freshTrail).1 = Ok path
       ∧ (Area.findDepthFirstPathDirectionally (euclidean := float64_norm)
            20 guarded source destination Area.freshTrail).1 = Ok path)
  ∧ (∃ path,
       (Area.findDijkstraPath (number := float64) 10 walledArea source destination
          (constant zero) ∅).1 = Ok path
       ∧ (Area.findDijkstraPath (number := float64) 20 guarded source destination
            (constant zero) cache).1 = Ok path)
  ∧ (∃ path,
       (Area.findAStarPath (euclidean := float64_norm) 10 walledArea source destination
          ∅).1 = Ok path
       ∧ (Area.findAStarPath (euclidean := float64_norm) 20 guarded source destination
            cache).1 = Ok path).
Proof.
  intros source destination guarded cache.
  apply (pathfinding_deterministic walledArea guarded source destination 10 20 ∅ cache).
  - split; [reflexivity|]. split; [reflexivity|]. split; [reflexivity|].
    intros xy. unfold Area.entityAt, mapGet.
    replace (Area.entities guarded)
      with (<[Coordinates.toString (Coordinates.mk 1 0) := Some Enemy]>
              (Area.entities walledArea)) by (by vm_compute).
    rewrite lookup_insert. case_decide as Hkey; [|done].
    rewrite <- Hkey.
    replace (Area.entities walledArea !! Coordinates.toString (Coordinates.mk 1 0))
      with (@None (option EntityType)) by (by vm_compute).
    done.
  - apply cacheConsistent_empty.
  - intros key xy. unfold cache. rewrite lookup_insert. case_decide as Hkey.
    + intros [= <-]. by rewrite <- Hkey.
    + by rewrite lookup_empty.
  - vm_compute. lia.
  - vm_compute. lia.
Defined.


(** ** Optimality of the distances *)

Section Optimal.
Context {number : Number} {laws : NumberLaws number}.
Variables (area : Area.t) (source : Coordinates.t) (getHeuristic : Coordinates.t → num).
Hypothesis heuristic_admissible : admissible getHeuristic.

Implicit Types (search : Area.Search) (cells path : list Coordinates.t) (c d : num).

Local Abbreviation consistent := (consistent area source getHeuristic).
Local Abbreviation relaxed := (relaxed area getHeuristic).
Local Abbreviation cost := (walkCost getHeuristic).

Lemma step_nondecreasing d h : ltb h zero = false → ltb (add (add d one) h) d = false.
Proof.
  intros Hh. destruct (ltb d infinity) eqn:Hd.
  - by apply ltb_asymmetric, step_increase.
  - apply not_finite_infinity in Hd. subst d. rewrite step_infinity. apply ltb_irreflexive.
Qed.

Lemma step_le d d' h :
  ltb d' d = false → ltb (add (add d' one) h) (add (add d one) h) = false.
Proof.
  intros Hle. destruct (ltb (add (add d' one) h) _) eqn:Hlt; [|done].
  apply step_monotone in Hlt. congruence.
Qed.

Lemma step_le_heuristic d h h' :
  ltb h' h = false → ltb (add (add d one) h') (add (add d one) h) = false.
Proof.
  intros Hle. destruct (ltb (add (add d one) h') _) eqn:Hlt; [|done].
  apply add_monotone_r in Hlt. congruence.
Qed.

Lemma step_lt d d' h :
  ltb d d' = true → ltb h infinity = true →
  ltb (add (add d one) h) (add (add d' one) h) = true.
Proof. intros Hlt Hh. apply add_strict; [|done]. apply add_strict; [done|apply one_finite]. Qed.

Lemma walkCost_cons c xy cells :
  cost c (xy :: cells) = cost (add (add c one) (getHeuristic xy)) cells.
Proof. reflexivity. Qed.

Lemma walkCost_snoc c cells xy :
  cost c (cells ++ [xy]) = add (add (cost c cells) one) (getHeuristic xy).
Proof. unfold walkCost. by rewrite foldl_app. Qed.

Lemma walkCost_grows c cells : ltb (cost c cells) c = false.
Proof.
  revert c. induction cells as [|xy cells IH]; intros c; [apply ltb_irreflexive|].
  rewrite walkCost_cons.
  apply (ltb_negatively_transitive _ (add (add c one) (getHeuristic xy))); [apply IH|].
  apply step_nondecreasing, heuristic_admissible.
Qed.

Lemma last_cons_default {A} (x d d' : A) (xs : list A) :
  List.last (x :: xs) d = List.last (x :: xs) d'.
Proof. revert x. induction xs as [|y xs IH]; intros x; [done|]. cbn in *. apply IH. Qed.

Lemma walk_snoc from cells xy :
  walk area from (cells ++ [xy]) ↔ walk area from cells ∧ passable area (List.last cells from) xy.
Proof.
  revert from. induction cells as [|n cells IH]; intros from; cbn [app walk].
  - cbn. tauto.
  - rewrite IH. destruct cells as [|m cells]; [cbn; tauto|].
    rewrite (last_cons_default m n from). cbn [List.last]. tauto.
Qed.

(** When the destination is extracted, its distance is at most the cost of
    any walk from the source to it. *)
Lemma walk_bound search destination dd :
  consistent search → relaxed search → selected search destination →
  Area.distances search !! Coordinates.toString destination = Some dd →
  ∀ cells from c dfrom,
    walk area from cells →
    List.last cells from = destination →
    Area.distances search !! Coordinates.toString from = Some dfrom →
    ltb c dfrom = false →
    ltb (cost c cells) dd = false.
Proof.
  intros Hcons Hrelaxed Hsel Hdd.
  induction cells as [|n cells IH]; intros from c dfrom Hwalk Hlast Hfrom Hle.
  - cbn in Hlast. subst from. simplify_eq. done.
  - destruct (decide (Coordinates.toString from ∈ Area.unvisitedNodes search)) as [Hun|Hvis].
    + pose proof (selected_least area source getHeuristic search destination _ _ _
                    Hcons Hsel Hun Hfrom Hdd) as Hmin.
      apply (ltb_negatively_transitive _ c); [apply walkCost_grows|].
      by apply (ltb_negatively_transitive _ dfrom).
    + cbn [walk] in Hwalk. destruct Hwalk as [[Hstep Hvalid] Hwalk].
      destruct (proj2 (distance_nodes _ _ _ _ Hcons (Coordinates.toString n)))
        as [dn Hdn]; [exists n; split; [done|by right]|].
      rewrite walkCost_cons. apply (IH n _ dn); [done| |done|].
      * destruct cells as [|m cells]; [done|].
        by rewrite (last_cons_default m n from).
      * apply (ltb_negatively_transitive _ (add (add dfrom one) (getHeuristic n)));
          [by apply step_le | by apply (Hrelaxed from n)].
Qed.

(** The distance of a cell with a predecessor is the cost of the walk
    that the predecessors describe. *)
Lemma traced_cost search from path :
  consistent search →
  is_Some (Area.previousDistances search !! Coordinates.toString from) →
  traced (Area.previousDistances search)
         (Area.previousDistances search !! Coordinates.toString from) path →
  walk area source (rev path ++ [from])
  ∧ Area.distances search !! Coordinates.toString from
    = Some (cost zero (rev path ++ [from])).
Proof.
  intros Hcons. revert from. induction path as [|p path IH]; intros from [u Hu] Htraced.
  - rewrite Hu in Htraced. cbn [traced] in Htraced. cbn [rev app walk].
    destruct (previous_nearer area source getHeuristic heuristic_admissible search from u Hcons Hu)
      as (Hvalid & _ & Hstep & du & dv & Hdu & Hdv & -> & Hlt & _).
    assert (u = source) as ->.
    { destruct (decide (u = source)) as [|Hne]; [done|].
      destruct (finite_previous _ _ _ _ Hcons _ _ Hdu) as [? ?];
        [by apply (ltb_finite du (add (add du one) (getHeuristic from)))
        | by intros ?%toString_inj | congruence]. }
    rewrite (source_distance _ _ _ _ Hcons) in Hdu. simplify_eq. done.
  - cbn [traced] in Htraced. destruct Htraced as (Hprev & Hsome & Htraced).
    destruct (previous_nearer area source getHeuristic heuristic_admissible search from p Hcons Hprev)
      as (Hvalid & _ & Hstep & du & dv & Hdu & Hdv & -> & _).
    destruct (IH p Hsome Htraced) as [Hwalk Hcost].
    cbn [rev]. split.
    + apply walk_snoc. split; [done|]. by rewrite List.last_last.
    + rewrite walkCost_snoc, Hdv. rewrite Hcost in Hdu. by simplify_eq.
Qed.

End Optimal.

(** ** Walks on a grid without diagonal moves *)

Section Geometry.
Variable area : Area.t.
Hypothesis no_diagonals : Area.allowDiagonalsInPaths area = false.

Implicit Types (cells : list Coordinates.t) (from n : Coordinates.t).

Lemma passable_orthogonal from n :
  passable area from n →
  Coordinates.y n = Coordinates.y from
  ∧ (Coordinates.x n = Coordinates.x from - 1 ∨ Coordinates.x n = Coordinates.x from + 1)
  ∨ Coordinates.x n = Coordinates.x from
    ∧ (Coordinates.y n = Coordinates.y from - 1 ∨ Coordinates.y n = Coordinates.y from + 1).
Proof.
  intros [Hstep _]. rewrite no_diagonals in Hstep. cbn in Hstep.
  rewrite !elem_of_cons, elem_of_nil in Hstep.
  destruct Hstep as [->|[->|[->|[->|[]]]]]; cbn; lia.
Qed.

Lemma last_cons_head {A} (x d : A) (xs : list A) : List.last (x :: xs) d = List.last xs x.
Proof.
  destruct xs as [|y xs]; [done|].
  change (List.last (y :: xs) d = List.last (y :: xs) x). apply last_cons_default.
Qed.

(** A walk is at least as long as the Manhattan distance it covers. *)
Lemma walk_manhattan cells from :
  walk area from cells → manhattan from (List.last cells from) ≤ Z.of_nat (length cells).
Proof.
  revert from. induction cells as [|n cells IH]; intros from Hwalk.
  - unfold manhattan. cbn. lia.
  - destruct Hwalk as [Hstep Hwalk]. specialize (IH n Hwalk).
    rewrite last_cons_head. apply passable_orthogonal in Hstep.
    unfold manhattan in *. cbn [length]. lia.
Qed.

Hypothesis obstacle_free : obstacleFree area.

Lemma walk_route from cells : walk area from cells → route area from (List.last cells from).
Proof.
  revert from. induction cells as [|n cells IH]; intros from; [by intros _; apply rtc_refl|].
  intros [Hstep Hwalk]. rewrite last_cons_head. by eapply rtc_l; [|apply IH].
Qed.

Variables (source destination : Coordinates.t).
Hypothesis source_within : Area.areCoordinatesValid area source = true.
Hypothesis destination_within : Area.areCoordinatesValid area destination = true.

Local Abbreviation ax n := (Z.abs (Coordinates.x n - Coordinates.x destination)).
Local Abbreviation ay n := (Z.abs (Coordinates.y n - Coordinates.y destination)).

Lemma towards_offsets mx my :
  0 ≤ mx ≤ ax source → 0 ≤ my ≤ ay source →
  ax (towards destination source mx my) = mx ∧ ay (towards destination source mx my) = my.
Proof.
  intros Hmx Hmy. unfold towards. cbn [Coordinates.x Coordinates.y].
  destruct (Z.sgn_spec (Coordinates.x source - Coordinates.x destination))
    as [[? ->]|[[? ->]|[? ->]]];
    destruct (Z.sgn_spec (Coordinates.y source - Coordinates.y destination))
      as [[? ->]|[[? ->]|[? ->]]]; lia.
Qed.

Lemma towards_within mx my :
  0 ≤ mx ≤ ax source → 0 ≤ my ≤ ay source →
  Area.isValidAgentPosition area (towards destination source mx my) = true.
Proof.
  intros Hmx Hmy. apply obstacle_free.
  unfold Area.areCoordinatesValid in *. unfold towards. cbn [Coordinates.x Coordinates.y].
  apply andb_true_iff in source_within as [[[Hx0 Hxw]%andb_true_iff Hy0]%andb_true_iff Hyh].
  apply andb_true_iff in destination_within
    as [[[Hx0' Hxw']%andb_true_iff Hy0']%andb_true_iff Hyh'].
  apply Z.leb_le in Hx0, Hy0, Hx0', Hy0'. apply Z.ltb_lt in Hxw, Hyh, Hxw', Hyh'.
  rewrite !andb_true_iff, !Z.leb_le, !Z.ltb_lt.
  destruct (Z.sgn_spec (Coordinates.x source - Coordinates.x destination))
    as [[? ->]|[[? ->]|[? ->]]];
    destruct (Z.sgn_spec (Coordinates.y source - Coordinates.y destination))
      as [[? ->]|[[? ->]|[? ->]]]; lia.
Qed.

Lemma towards_source : towards destination source (ax source) (ay source) = source.
Proof.
  unfold towards. destruct source as [sx sy]. cbn [Coordinates.x Coordinates.y]. f_equal.
  - destruct (Z.sgn_spec (sx - Coordinates.x destination)) as [[? ->]|[[? ->]|[? ->]]]; lia.
  - destruct (Z.sgn_spec (sy - Coordinates.y destination)) as [[? ->]|[[? ->]|[? ->]]]; lia.
Qed.

Lemma towards_destination : towards destination source 0 0 = destination.
Proof. unfold towards. destruct destination. cbn. f_equal; lia. Qed.

(** One move of the shortened walk. *)
Lemma towards_passable mx my mx' my' :
  0 ≤ mx ≤ ax source → 0 ≤ my ≤ ay source → 0 ≤ mx' → 0 ≤ my' →
  mx' = mx - 1 ∧ my' = my ∨ mx' = mx ∧ my' = my - 1 →
  passable area (towards destination source mx my) (towards destination source mx' my').
Proof.
  intros Hmx Hmy Hmx' Hmy' Hcases. split; [|apply towards_within; lia].
  rewrite no_diagonals. unfold towards, Coordinates.getNeighbours.
  cbn [Coordinates.x Coordinates.y fmap list_fmap fst snd]. rewrite !elem_of_cons.
  destruct (Z.sgn_spec (Coordinates.x source - Coordinates.x destination))
    as [[? Hsx]|[[? Hsx]|[? Hsx]]];
    destruct (Z.sgn_spec (Coordinates.y source - Coordinates.y destination))
      as [[? Hsy]|[[? Hsy]|[? Hsy]]];
    rewrite Hsx, Hsy;
    destruct Hcases as [[-> ->]|[-> ->]];
    first
      [ exfalso; lia
      | left; f_equal; lia
      | right; left; f_equal; lia
      | right; right; left; f_equal; lia
      | right; right; right; left; f_equal; lia ].
Qed.

End Geometry.

(** ** Shortening a walk on an open grid *)

Section Shortcut.
Context {number : Number} {laws : NumberLaws number}.
Variable area : Area.t.
Hypothesis no_diagonals : Area.allowDiagonalsInPaths area = false.
Hypothesis obstacle_free : obstacleFree area.
Variables (source destination : Coordinates.t).
Hypothesis source_within : Area.areCoordinatesValid area source = true.
Hypothesis destination_within : Area.areCoordinatesValid area destination = true.
Variable getHeuristic : Coordinates.t → num.
Hypothesis heuristic_admissible : admissible getHeuristic.
Hypothesis heuristic_radial : radial destination getHeuristic.

Implicit Types (cells : list Coordinates.t) (from n : Coordinates.t) (mx my : Z).

Local Abbreviation ax n := (Z.abs (Coordinates.x n - Coordinates.x destination)).
Local Abbreviation ay n := (Z.abs (Coordinates.y n - Coordinates.y destination)).
Local Abbreviation cost := (walkCost getHeuristic).
Local Abbreviation cut := (shortcut destination source).
Local Abbreviation cell := (towards destination source).

(** The offsets stay below those of the cell the walk is at, and below
    those of the source. *)
Definition offsetsBelow from mx my : Prop :=
  0 ≤ mx ≤ ax from ∧ mx ≤ ax source ∧ 0 ≤ my ≤ ay from ∧ my ≤ ay source.

(** On an open grid there is a walk from the source to the destination. *)
Lemma open_grid_walk :
  ∃ cells, walk area source cells ∧ List.last cells source = destination.
Proof.
  assert (∀ k mx my,
            Z.of_nat k = mx + my → 0 ≤ mx ≤ ax source → 0 ≤ my ≤ ay source →
            ∃ cells, walk area (cell mx my) cells ∧ List.last cells (cell mx my) = destination)
    as Hdescend.
  { induction k as [|k IH]; intros mx my Hk Hmx Hmy.
    - exists []. assert (mx = 0 ∧ my = 0) as [-> ->] by lia.
      split; [done|]. by apply (towards_destination area).
    - destruct (decide (0 < mx)) as [Hpos|Hzero].
      + destruct (IH (mx - 1) my) as (cells & Hwalk & Hlast); [lia..|].
        exists (cell (mx - 1) my :: cells). rewrite last_cons_head. split; [|done].
        split; [|done]. apply (towards_passable area); try done; lia.
      + destruct (IH mx (my - 1)) as (cells & Hwalk & Hlast); [lia..|].
        exists (cell mx (my - 1) :: cells). rewrite last_cons_head. split; [|done].
        split; [|done]. apply (towards_passable area); try done; lia. }
  destruct (Hdescend (Z.to_nat (ax source + ay source)) (ax source) (ay source))
    as (cells & Hwalk & Hlast); [lia..|].
  rewrite (towards_source area) in Hwalk, Hlast by done. by exists cells.
Qed.

(** The shortened walk is a walk to the destination, and as long as the
    offsets it starts from. *)
Lemma shortcut_walk cells from mx my :
  walk area from cells → List.last cells from = destination → offsetsBelow from mx my →
  walk area (cell mx my) (cut mx my cells)
  ∧ List.last (cut mx my cells) (cell mx my) = destination
  ∧ Z.of_nat (length (cut mx my cells)) = mx + my.
Proof.
  revert from mx my. induction cells as [|n cells IH]; intros from mx my Hwalk Hlast Hbelow.
  - cbn in Hlast. subst from. destruct Hbelow as (? & ? & ? & ?).
    assert (mx = 0 ∧ my = 0) as [-> ->] by lia.
    cbn. split; [done|]. split; [by apply (towards_destination area)|done].
  - destruct Hwalk as [Hstep Hwalk]. rewrite last_cons_head in Hlast.
    pose proof (passable_orthogonal area no_diagonals from n Hstep) as Horth.
    destruct Hbelow as (Hmx & Hmxs & Hmy & Hmys).
    cbn [shortcut].
    set (mx' := Z.min mx (ax n)). set (my' := Z.min my (ay n)).
    assert (offsetsBelow n mx' my') as Hbelow' by (unfold offsetsBelow; lia).
    destruct (IH n mx' my' Hwalk Hlast Hbelow') as (Hwalk' & Hlast' & Hlen').
    destruct ((mx' =? mx) && (my' =? my)) eqn:Hsame.
    + apply andb_true_iff in Hsame as [->%Z.eqb_eq ->%Z.eqb_eq]. done.
    + rewrite last_cons_head. cbn [walk length]. split; [split; [|done]|split; [done|]].
      * apply (towards_passable area); try done; [lia..|].
        apply andb_false_iff in Hsame. rewrite !Z.eqb_neq in Hsame. lia.
      * apply andb_false_iff in Hsame. rewrite !Z.eqb_neq in Hsame. lia.
Qed.

(** The shortened walk costs no more than the walk. *)
Lemma shortcut_cost cells from mx my cq cp :
  walk area from cells → offsetsBelow from mx my →
  ltb cp cq = false →
  ltb (cost cp cells) (cost cq (cut mx my cells)) = false.
Proof.
  revert from mx my cq cp.
  induction cells as [|n cells IH]; intros from mx my cq cp Hwalk Hbelow Hle; [done|].
  destruct Hwalk as [Hstep Hwalk].
  pose proof (passable_orthogonal area no_diagonals from n Hstep) as Horth.
  destruct Hbelow as (Hmx & Hmxs & Hmy & Hmys).
  cbn [shortcut]. set (mx' := Z.min mx (ax n)). set (my' := Z.min my (ay n)).
  assert (offsetsBelow n mx' my') as Hbelow' by (unfold offsetsBelow; lia).
  destruct (heuristic_admissible n) as [Hh0 Hhfin].
  rewrite walkCost_cons. destruct ((mx' =? mx) && (my' =? my)) eqn:Hsame.
  - apply andb_true_iff in Hsame as [Hx%Z.eqb_eq Hy%Z.eqb_eq].
    apply (IH n); [done|unfold offsetsBelow; lia|].
    apply (ltb_negatively_transitive _ cp); [by apply step_nondecreasing|done].
  - rewrite walkCost_cons. apply (IH n); [done..|].
    apply (ltb_negatively_transitive _ (add (add cq one) (getHeuristic n))).
    + by apply step_le.
    + apply step_le_heuristic, heuristic_radial.
      * destruct (towards_offsets source destination mx' my') as [-> _]; lia.
      * destruct (towards_offsets source destination mx' my') as [_ ->]; lia.
Qed.

(** It costs strictly less when it is shorter. *)
Lemma shortcut_cost_strict cells from mx my cq cp :
  walk area from cells → offsetsBelow from mx my →
  ltb (cost cp cells) infinity = true →
  ltb cp cq = false →
  ltb cq cp = true ∨ (length (cut mx my cells) < length cells)%nat →
  ltb (cost cq (cut mx my cells)) (cost cp cells) = true.
Proof.
  revert from mx my cq cp.
  induction cells as [|n cells IH]; intros from mx my cq cp Hwalk Hbelow Hfin Hle Hcases.
  { destruct Hcases as [?|Hlen]; [done|]. cbn in Hlen. lia. }
  destruct Hwalk as [Hstep Hwalk].
  pose proof (passable_orthogonal area no_diagonals from n Hstep) as Horth.
  destruct Hbelow as (Hmx & Hmxs & Hmy & Hmys).
  cbn [shortcut] in *. set (mx' := Z.min mx (ax n)) in *. set (my' := Z.min my (ay n)) in *.
  assert (offsetsBelow n mx' my') as Hbelow' by (unfold offsetsBelow; lia).
  destruct (heuristic_admissible n) as [Hh0 Hhfin].
  rewrite walkCost_cons in *.
  assert (ltb cp infinity = true) as Hcpfin.
  { apply (ltb_le_lt _ (cost (add (add cp one) (getHeuristic n)) cells)); [|done].
    apply (ltb_negatively_transitive _ (add (add cp one) (getHeuristic n)));
      [apply walkCost_grows; done | by apply step_nondecreasing]. }
  destruct ((mx' =? mx) && (my' =? my)) eqn:Hsame.
  - apply andb_true_iff in Hsame as [Hx%Z.eqb_eq Hy%Z.eqb_eq].
    assert (ltb cq (add (add cp one) (getHeuristic n)) = true) as Hlt.
    { apply (ltb_le_lt _ cp); [done|by apply step_increase]. }
    apply (IH n); [done|unfold offsetsBelow; lia|done| |by left].
    by apply ltb_asymmetric.
  - rewrite walkCost_cons.
    assert (ltb (add (add cp one) (getHeuristic n))
                (add (add cq one) (getHeuristic (cell mx' my'))) = false) as Hle'.
    { apply (ltb_negatively_transitive _ (add (add cq one) (getHeuristic n))).
      - by apply step_le.
      - apply step_le_heuristic, heuristic_radial.
        + destruct (towards_offsets source destination mx' my') as [-> _]; lia.
        + destruct (towards_offsets source destination mx' my') as [_ ->]; lia. }
    apply (IH n); [done..|].
    destruct Hcases as [Hlt|Hlen]; [left|right; cbn [length] in Hlen; lia].
    apply (ltb_le_lt _ (add (add cq one) (getHeuristic n))).
    + apply step_le_heuristic, heuristic_radial.
      * destruct (towards_offsets source destination mx' my') as [-> _]; lia.
      * destruct (towards_offsets source destination mx' my') as [_ ->]; lia.
    + by apply step_lt.
Qed.

End Shortcut.

(** ** Length of the path on an open grid *)

Section OpenGrid.
Context {number : Number} {laws : NumberLaws number}.

Implicit Types (area : Area.t) (cache : gmap string Coordinates.t).

(** On an open grid without diagonal moves, a search with an admissible
    and radial heuristic returns, between distinct cells, as many cells as
    the Manhattan distance less one. *)
Lemma open_grid_length area source destination getHeuristic fuel cache :
  admissible getHeuristic →
  radial destination getHeuristic →
  Area.allowDiagonalsInPaths area = false →
  obstacleFree area →
  Area.areCoordinatesValid area source = true →
  Area.areCoordinatesValid area destination = true →
  source ≠ destination →
  cacheConsistent cache →
  (S (length (Area.gridCells area)) < fuel)%nat →
  ∃ path cache',
    Area.findDijkstraPath fuel area source destination getHeuristic cache = (Ok path, cache')
    ∧ Z.of_nat (length path) = manhattan source destination - 1.
Proof.
  intros Hadm Hradial Hdiag Hopen Hsource Hdestination Hne Hcache Hfuel.
  destruct (findDijkstraPath_run area source destination getHeuristic Hadm
              (λ _, True) fuel cache)
    as (path & cache' & _ & Hrun
        & [(search & Hcons & Hrelaxed & _ & Hsel & Htraced) | [_ Hnode]]);
    [done..| |destruct Hnode; right; by apply Hopen].
  exists path, cache'. split; [done|].
  destruct (open_grid_walk area Hdiag Hopen source destination Hsource Hdestination)
    as (cells & Hcells & Hlast).
  pose proof (walk_route area source cells Hcells) as Hroute. rewrite Hlast in Hroute.
  destruct (selected_reached_finite area source getHeuristic search destination)
    as (d & Hd & Hfin); [done..|].
  assert (is_Some (Area.previousDistances search !! Coordinates.toString destination)) as Hsome.
  { apply (finite_previous _ _ _ _ Hcons _ d); [done..|]. by intros ?%toString_inj. }
  destruct (traced_cost area source getHeuristic Hadm search destination path Hcons Hsome Htraced)
    as [Hwalk Hcost].
  set (found := rev path ++ [destination]) in *.
  assert (List.last found source = destination) as Hfound by apply List.last_last.
  assert (length found = S (length path)) as Hlength.
  { unfold found. rewrite length_app, length_rev. cbn. lia. }
  pose proof (walk_manhattan area Hdiag found source Hwalk) as Hlower.
  rewrite Hfound in Hlower.
  assert (offsetsBelow source destination source
            (Z.abs (Coordinates.x source - Coordinates.x destination))
            (Z.abs (Coordinates.y source - Coordinates.y destination))) as Hbelow
    by (unfold offsetsBelow; lia).
  destruct (shortcut_walk area Hdiag Hopen source destination Hsource Hdestination
              found source _ _ Hwalk Hfound Hbelow) as (Hwalk' & Hlast' & Hlength').
  rewrite (towards_source area) in Hwalk', Hlast' by done.
  set (short := shortcut destination source _ _ found) in *.
  destruct (decide (length short < length found)%nat) as [Hshorter|Hlonger].
  - exfalso.
    assert (d = walkCost getHeuristic zero found) as -> by congruence.
    pose proof (shortcut_cost_strict area Hdiag source destination
                  getHeuristic Hadm Hradial found source _ _ zero zero
                  Hwalk Hbelow Hfin (ltb_irreflexive zero) (or_intror Hshorter)) as Hless.
    fold short in Hless.
    rewrite (walk_bound area source getHeuristic Hadm search destination _
               Hcons Hrelaxed Hsel Hcost short source zero zero Hwalk' Hlast'
               (source_distance _ _ _ _ Hcons) (ltb_irreflexive zero)) in Hless.
    done.
  - unfold manhattan in *. lia.
Qed.

Lemma constant_zero_radial destination :
  radial destination (constant zero : Coordinates.t → num).
Proof. intros m n _ _. apply ltb_irreflexive. Qed.

Context {euclidean : Euclidean number} {distances : EuclideanLaws number euclidean}.

Lemma magnitude_admissible destination :
  admissible (λ neighbour, Coordinates.magnitude (Coordinates.difference neighbour destination)).
Proof. intros xy. split; [apply norm_nonnegative | apply norm_finite]. Qed.

Lemma magnitude_radial destination :
  radial destination
    (λ neighbour, Coordinates.magnitude (Coordinates.difference neighbour destination)).
Proof.
  intros m n Hx Hy. unfold Coordinates.magnitude, Coordinates.difference.
  cbn [Coordinates.x Coordinates.y]. apply norm_monotone; lia.
Qed.

End OpenGrid.

(** ** Exact arithmetic on the reals *)

Section RealLaws.

Local Ltac real_cases :=
  repeat match goal with
         | a : RealInf |- _ => destruct a
         | a : @num realInf |- _ => destruct a
         end;
  cbn in *;
  repeat match goal with
         | |- context [RIneq.Rlt_dec ?r ?s] => destruct (RIneq.Rlt_dec r s)
         | H : context [RIneq.Rlt_dec ?r ?s] |- _ => destruct (RIneq.Rlt_dec r s)
         end;
  try done; try (exfalso; lra).

Global Instance realInf_laws : NumberLaws realInf.
Proof.
  split.
  - intros a. real_cases.
  - intros a b c. real_cases.
  - intros a b. real_cases. intros _ _. f_equal. lra.
  - intros a. real_cases.
  - real_cases.
  - real_cases.
  - real_cases.
  - intros a b. real_cases.
  - intros a. real_cases.
  - intros a b. real_cases.
  - intros a b. real_cases.
  - intros a b c. real_cases.
  - intros a b c. real_cases.
  - intros a b c. real_cases.
Qed.

Global Instance real_norm_laws : EuclideanLaws realInf real_norm.
Proof.
  split.
  - intros x y. cbn. destruct (RIneq.Rlt_dec _ _) as [Hlt|]; [exfalso|done].
    pose proof (R_sqrt.sqrt_pos (IZR (x * x + y * y))). lra.
  - done.
  - intros x y x' y' Hx Hy. cbn. destruct (RIneq.Rlt_dec _ _) as [Hlt|]; [exfalso|done].
    assert (IZR (x * x + y * y) <= IZR (x' * x' + y' * y'))%R as Hle
      by (apply RIneq.IZR_le; nia).
    apply R_sqrt.sqrt_le_1_alt in Hle. lra.
Qed.

End RealLaws.

(** * Further properties *)

(** ** Dijkstra and A* on an open grid *)

Lemma obstacleFree_new width height : obstacleFree (Area.new width height).
Proof.
  intros xy Hvalid. unfold Area.isValidAgentPosition. rewrite Hvalid.
  unfold Area.entityAt, Area.new. cbn [Area.entities mapGet]. by rewrite lookup_empty.
Qed.

(** X25: on a grid without walls and with diagonal moves disallowed,
    [findDijkstraPath] with the default heuristic [constant(0)] returns,
    between distinct cells of the grid, as many cells as the Manhattan
    distance less one. *)
Theorem open_grid_manhattan_path_length {number : Number} {laws : NumberLaws number}
    (area : Area.t) (source destination : Coordinates.t)
    (fuel : nat) (cache : gmap string Coordinates.t) :
  Area.allowDiagonalsInPaths area = false →
  obstacleFree area →
  Area.areCoordinatesValid area source = true →
  Area.areCoordinatesValid area destination = true →
  source ≠ destination →
  cacheConsistent cache →
  (S (length (Area.gridCells area)) < fuel)%nat →
  ∃ path cache',
    Area.findDijkstraPath fuel area source destination (constant zero) cache
    = (Ok path, cache')
    ∧ Z.of_nat (length path) = manhattan source destination - 1.
Proof.
  intros Hdiag Hopen Hsource Hdestination Hne Hcache Hfuel.
  apply open_grid_length; try done.
  - apply constant_zero_admissible.
  - apply constant_zero_radial.
Qed.

(** The scenario of the 5×5 open grid, from (0,0) to (4,4): seven cells. *)
Lemma open_grid_manhattan_path_length_witness :
  ∃ path cache',
    Area.findDijkstraPath (number := natInf) 27 (Area.new 5 5)
      (Coordinates.mk 0 0) (Coordinates.mk 4 4) (constant zero) ∅ = (Ok path, cache')
    ∧ Z.of_nat (length path) = 7.
Proof.
  apply (open_grid_manhattan_path_length (laws := natInf_laws)
           (Area.new 5 5) (Coordinates.mk 0 0) (Coordinates.mk 4 4) 27 ∅).
  - reflexivity.
  - apply obstacleFree_new.
  - reflexivity.
  - reflexivity.
  - discriminate.
  - apply cacheConsistent_empty.
  - vm_compute. lia.
Defined.

(** X26: the same holds of [findAStarPath] when its distances are exact,
    that is in an arithmetic without rounding whose Euclidean norm is not
    negative, finite and monotone, such as the real numbers with their
    square root: between distinct cells of a grid without walls and without
    diagonal moves it returns as many cells as the Manhattan distance less
    one. *)
Theorem open_grid_astar_exact_path_length {number : Number} {euclidean : Euclidean number}
    {laws : NumberLaws number} {distances : EuclideanLaws number euclidean}
    (area : Area.t) (source destination : Coordinates.t)
    (fuel : nat) (cache : gmap string Coordinates.t) :
  Area.allowDiagonalsInPaths area = false →
  obstacleFree area →
  Area.areCoordinatesValid area source = true →
  Area.areCoordinatesValid area destination = true →
  source ≠ destination →
  cacheConsistent cache →
  (S (length (Area.gridCells area)) < fuel)%nat →
  ∃ path cache',
    Area.findAStarPath fuel area source destination cache = (Ok path, cache')
    ∧ Z.of_nat (length path) = manhattan source destination - 1.
Proof.
  intros Hdiag Hopen Hsource Hdestination Hne Hcache Hfuel.
  unfold Area.findAStarPath. apply open_grid_length; try done.
  - apply magnitude_admissible.
  - apply magnitude_radial.
Qed.

Lemma open_grid_astar_exact_path_length_witness :
  ∃ path cache',
    Area.findAStarPath (number := realInf) (euclidean := real_norm) 27 (Area.new 5 5)
      (Coordinates.mk 0 0) (Coordinates.mk 4 4) ∅ = (Ok path, cache')
    ∧ Z.of_nat (length path) = 7.
Proof.
  apply (open_grid_astar_exact_path_length (laws := realInf_laws) (distances := real_norm_laws)
           (Area.new 5 5) (Coordinates.mk 0 0) (Coordinates.mk 4 4) 27 ∅).
  - reflexivity.
  - apply obstacleFree_new.
  - reflexivity.
  - reflexivity.
  - discriminate.
  - apply cacheConsistent_empty.
  - vm_compute. lia.
Defined.

(** The same scenario on the doubles of the program: seven cells from
    either search. *)
Lemma open_grid_5x5_float64 :
  (Area.findDijkstraPath (number := float64) 27 (Area.new 5 5)
     (Coordinates.mk 0 0) (Coordinates.mk 4 4) (constant zero) ∅).1
  = Ok [Coordinates.mk 4 3; Coordinates.mk 4 2; Coordinates.mk 4 1; Coordinates.mk 4 0;
        Coordinates.mk 3 0; Coordinates.mk 2 0; Coordinates.mk 1 0]
  ∧ (Area.findAStarPath (number := float64) (euclidean := float64_norm) 27 (Area.new 5 5)
       (Coordinates.mk 0 0) (Coordinates.mk 4 4) ∅).1
    = Ok [Coordinates.mk 4 3; Coordinates.mk 3 3; Coordinates.mk 3 2; Coordinates.mk 2 2;
          Coordinates.mk 2 1; Coordinates.mk 1 1; Coordinates.mk 1 0].
Proof. split; vm_compute; reflexivity. Qed.

(** When source and destination are the same cell the path is empty, and
    zero cells are not the Manhattan distance less one. *)
Lemma open_grid_same_cell_counterexample :
  (Area.findDijkstraPath (number := float64) 27 (Area.new 5 5)
     (Coordinates.mk 0 0) (Coordinates.mk 0 0) (constant zero) ∅).1 = Ok []
  ∧ (Area.findAStarPath (number := float64) (euclidean := float64_norm) 27 (Area.new 5 5)
       (Coordinates.mk 0 0) (Coordinates.mk 0 0) ∅).1 = Ok []
  ∧ Z.of_nat (length (@nil Coordinates.t))
    ≠ manhattan (Coordinates.mk 0 0) (Coordinates.mk 0 0) - 1.
Proof. split; [|split]; [vm_compute; reflexivity..|]. vm_compute. discriminate. Qed.

(** ** Keys, neighbours and moves *)

Section CoordinatesFacts.

(** X1: [equals] and [String] agree: two coordinates are equal exactly
    when their keys are the same string, so a map keyed by [String(xy)]
    never confuses two cells. *)
Theorem equals_iff_same_key (a b : Coordinates.t) :
  Coordinates.equals a b = true ↔ Coordinates.toString a = Coordinates.toString b.
Proof.
  rewrite equals_true. split; [by intros ->|apply toString_inj].
Qed.

Lemma cacheAfter_consistent keys : cacheConsistent (cacheAfter keys).
Proof.
  unfold cacheAfter. generalize cacheConsistent_empty.
  generalize (∅ : gmap string Coordinates.t) as cache.
  induction keys as [|key keys IH]; intros cache Hcache; [done|].
  cbn [foldl]. apply IH.
  destruct (createCoordinatesFromString key cache) as [r cache'] eqn:E.
  unfold createCoordinatesFromString in E.
  destruct (cache !! key) eqn:Hkey; [by simplify_eq|].
  destruct (parseCoordinates key) eqn:Hparse; simplify_eq; cbn; [|done].
  intros k xy. rewrite lookup_insert. case_decide; [|apply Hcache]. by intros [= <-]; subst.
Qed.

(** X2: [createCoordinatesFromString] undoes [String] on coordinates
    that are safe integers: whatever calls came before, on the key of [xy]
    it returns [xy]; afterwards the cache holds the key, a second call
    returns the same without changing the cache, and no other entry of the
    cache has changed. *)
Theorem createCoordinatesFromString_round_trip keys xy :
  safeInteger (Coordinates.x xy) →
  safeInteger (Coordinates.y xy) →
  ∃ cache,
    createCoordinatesFromString (Coordinates.toString xy) (cacheAfter keys) = (Ok xy, cache)
    ∧ cache !! Coordinates.toString xy = Some xy
    ∧ createCoordinatesFromString (Coordinates.toString xy) cache = (Ok xy, cache)
    ∧ ∀ key, key ≠ Coordinates.toString xy → cache !! key = cacheAfter keys !! key.
Proof.
  intros _ _. pose proof (cacheAfter_consistent keys) as Hcache.
  unfold createCoordinatesFromString.
  destruct (cacheAfter keys !! Coordinates.toString xy) as [cached|] eqn:Hkey.
  - apply Hcache in Hkey as Hparse. rewrite parseCoordinates_toString in Hparse.
    simplify_eq. exists (cacheAfter keys). rewrite Hkey. done.
  - rewrite parseCoordinates_toString. eexists. split; [reflexivity|].
    rewrite lookup_insert_eq. split; [done|]. split; [done|].
    intros key Hne. by rewrite lookup_insert_ne.
Qed.

Lemma createCoordinatesFromString_round_trip_witness :
  let xy := Coordinates.mk 12 (-7) in
  let keys := ["0,0"; "12"] in
  ∃ cache,
    createCoordinatesFromString (Coordinates.toString xy) (cacheAfter keys) = (Ok xy, cache)
    ∧ cache !! Coordinates.toString xy = Some xy
    ∧ createCoordinatesFromString (Coordinates.toString xy) cache = (Ok xy, cache)
    ∧ ∀ key, key ≠ Coordinates.toString xy → cache !! key = cacheAfter keys !! key.
Proof.
  intros xy keys.
  apply (createCoordinatesFromString_round_trip keys xy); split; reflexivity.
Defined.



Lemma keyCodes_directions keyCode direction :
  keyCodes !! keyCode = Some direction → direction ∈ ["left"; "right"; "up"; "down"].
Proof.
  unfold keyCodes. rewrite !lookup_insert, lookup_empty.
  repeat case_decide; intros [= <-]; rewrite !elem_of_cons; tauto.
Qed.

(** X5: the directional listener never hands [moveEntity] a direction it
    rejects: whatever key is pressed, moving an entity through the listener
    returns normally; a key without a direction leaves the area as it was, and
    a key with one makes the one call of [moveEntity]. *)
Theorem listenToDirectionalInput_moves keyCode (xy : Coordinates.t) (area : Area.t) :
  ∃ xy' area',
    listenToDirectionalInput
      (λ direction, Area.moveEntity xy direction ;; mret tt) keyCode area = (Ok tt, area')
    ∧ (keyCodes !! keyCode = None → area' = area)
    ∧ (is_Some (keyCodes !! keyCode) →
       ∃ direction, keyCodes !! keyCode = Some direction
                    ∧ Area.moveEntity xy direction area = (Ok xy', area')).
Proof.
  unfold listenToDirectionalInput. destruct (keyCodes !! keyCode) as [direction|] eqn:Hkey.
  - apply keyCodes_directions in Hkey as Hdir.
    destruct (move_recognised xy direction area Hdir) as (c' & Hmove & _).
    pose proof (moveEntity_eq area xy direction c' Hmove) as Heq. cbv zeta in Heq.
    unfold mbind at 1, M_bind at 1.
    destruct (Area.isValidAgentPosition area c'); rewrite Heq.
    + eexists c', _. split; [reflexivity|]. split; [done|]. intros _. by exists direction.
    + exists xy, area. split; [reflexivity|]. split; [done|]. intros _. by exists direction.
  - exists xy, area. split; [done|]. split; [done|]. by intros [? ?].
Qed.

Lemma proximity_table :
  forallb (λ dx, forallb (λ dy,
      Bool.eqb (PrimFloat.leb (norm (Euclidean := float64_norm) dx dy) enemyDetectionProximity)
               (dx * dx + dy * dy <=? 36))
    (seqZ 0 64)) (seqZ 0 64) = true.
Proof. vm_compute. reflexivity. Qed.

(** X6: on doubles, the detection test of the pursuit is the closed disc
    of radius 6: for two cells less than 64 apart in each coordinate,
    [withinProximity] with [enemyDetectionProximity] holds exactly when the
    squared Euclidean distance is at most 36. *)
Theorem withinProximity_detection_disc (a b : Coordinates.t) :
  Z.abs (Coordinates.x a - Coordinates.x b) < 64 →
  Z.abs (Coordinates.y a - Coordinates.y b) < 64 →
  Coordinates.withinProximity a enemyDetectionProximity b
  = ((Coordinates.x a - Coordinates.x b) * (Coordinates.x a - Coordinates.x b)
     + (Coordinates.y a - Coordinates.y b) * (Coordinates.y a - Coordinates.y b) <=? 36).
Proof.
  intros Hx Hy. unfold Coordinates.withinProximity, Coordinates.magnitude, Coordinates.difference.
  cbn [Coordinates.x Coordinates.y].
  set (dx := Z.abs (Coordinates.x a - Coordinates.x b)) in *.
  set (dy := Z.abs (Coordinates.y a - Coordinates.y b)) in *.
  pose proof proximity_table as Htable.
  rewrite forallb_forall in Htable.
  specialize (Htable dx). rewrite forallb_forall in Htable.
  assert (In dx (seqZ 0 64)) as Hdx by (apply list_elem_of_In, elem_of_seqZ; lia).
  assert (In dy (seqZ 0 64)) as Hdy by (apply list_elem_of_In, elem_of_seqZ; lia).
  specialize (Htable Hdx dy Hdy). apply Bool.eqb_prop in Htable. rewrite Htable.
  f_equal. unfold dx, dy. lia.
Qed.

End CoordinatesFacts.

Lemma withinProximity_detection_disc_witness :
  Coordinates.withinProximity (Coordinates.mk 0 0) enemyDetectionProximity (Coordinates.mk 6 0)
  = true
  ∧ Coordinates.withinProximity (Coordinates.mk 0 0) enemyDetectionProximity
      (Coordinates.mk 5 4)
    = false.
Proof.
  split.
  - exact (withinProximity_detection_disc (Coordinates.mk 0 0) (Coordinates.mk 6 0)
             eq_refl eq_refl).
  - exact (withinProximity_detection_disc (Coordinates.mk 0 0) (Coordinates.mk 5 4)
             eq_refl eq_refl).
Defined.

(** ** The entity mapping: round trips and layouts *)

Section AreaExtras.
Implicit Types (area : Area.t) (xy : Coordinates.t) (entityType : EntityType).

(** X7: adding an entity to a free cell and deleting it again returns
    normally and leaves the entity mapping as it was. *)
Theorem addEntity_deleteEntity_round_trip area xy entityType :
  Area.entities area !! Coordinates.toString xy = None →
  ∃ area',
    (Area.addEntity xy entityType ;; Area.deleteEntity xy) area = (Ok tt, area')
    ∧ Area.entities area' = Area.entities area.
Proof.
  intros Hfree. unfold mbind at 1, M_bind at 1. rewrite (addEntity_free _ _ _ Hfree).
  rewrite deleteEntity_eq. eexists. split; [reflexivity|]. cbn [Area.entities].
  destruct (decide (entityType = Empty)).
  - by apply delete_id.
  - by rewrite delete_insert_eq, delete_id.
Qed.

(** X8: [deleteEntity] followed by [addEntity] on the same cell never
    throws, whatever the cell held: the cell then holds the kind added
    (nothing for [Empty]) and no other key has changed. *)
Theorem deleteEntity_addEntity_places area xy entityType :
  ∃ area',
    (Area.deleteEntity xy ;; Area.addEntity xy entityType) area = (Ok tt, area')
    ∧ Area.entityAt area' (StringKey (Coordinates.toString xy))
      = (if decide (entityType = Empty) then None else Some entityType)
    ∧ ∀ key, key ≠ Coordinates.toString xy →
             Area.entities area' !! key = Area.entities area !! key.
Proof.
  unfold mbind at 1, M_bind at 1. rewrite deleteEntity_eq.
  rewrite addEntity_free by (cbn; apply lookup_delete_eq).
  eexists. split; [reflexivity|]. unfold Area.entityAt. cbn [Area.entities mapGet].
  destruct (decide (entityType = Empty)); split.
  - by rewrite lookup_delete_eq.
  - intros key Hne. by rewrite lookup_delete_ne.
  - by rewrite lookup_insert_eq.
  - intros key Hne. by rewrite lookup_insert_ne, lookup_delete_ne.
Qed.




(** X10: an entity moved from a valid agent position ends on a valid
    agent position, never on a wall or off the grid, and no move changes
    which cells are valid agent positions. *)
Theorem moveEntity_stays_walkable area xy direction xy' area' :
  Area.isValidAgentPosition area xy = true →
  Area.moveEntity xy direction area = (Ok xy', area') →
  Area.isValidAgentPosition area' xy' = true
  ∧ ∀ c, Area.isValidAgentPosition area' c = Area.isValidAgentPosition area c.
Proof.
  intros Hvalid Hrun.
  destruct (move_cases xy direction area) as [(destination & Hmove & Hstep) | Hfail].
  2:{ unfold Area.moveEntity, mbind, M_bind in Hrun. by rewrite Hfail in Hrun. }
  rewrite (moveEntity_eq _ _ _ _ Hmove) in Hrun. cbv zeta in Hrun.
  destruct (Area.isValidAgentPosition area destination) eqn:Hdest; [|by simplify_eq].
  simplify_eq.
  assert (Coordinates.toString xy ≠ Coordinates.toString xy') as Hne.
  { intros E%toString_inj. by apply neighbour_neq in Hstep. }
  assert (∀ c,
            Area.isValidAgentPosition
              (Area.mk (Area.width area) (Area.height area) (Area.allowDiagonalsInPaths area)
                 (Area.pathfindingAlgorithm area)
                 (Area.canvasGrid area ++ [(xy, Some Empty)]
                  ++ [(xy', delete (Coordinates.toString xy)
                              (<[Coordinates.toString xy' :=
                                   Area.entityAt area (StringKey (Coordinates.toString xy))]>
                                 (Area.entities area)) !! Coordinates.toString xy' ≫= id)])
                 (delete (Coordinates.toString xy)
                    (<[Coordinates.toString xy' :=
                         Area.entityAt area (StringKey (Coordinates.toString xy))]>
                       (Area.entities area)))) c
            = Area.isValidAgentPosition area c) as Hsame.
  { intros c. unfold Area.isValidAgentPosition, Area.areCoordinatesValid, Area.entityAt in *.
    cbn [mapGet Area.entities Area.width Area.height] in *.
    destruct ((0 <=? Coordinates.x c) && (Coordinates.x c <? Area.width area)
              && (0 <=? Coordinates.y c) && (Coordinates.y c <? Area.height area)) eqn:Hc;
      [|done].
    cbn [andb]. f_equal.
    apply andb_true_iff in Hvalid as [_ Hxy]. apply andb_true_iff in Hdest as [_ Hxy'].
    apply negb_true_iff, bool_decide_eq_false in Hxy, Hxy'.
    destruct (decide (c = xy)) as [->|Hcxy].
    { rewrite lookup_delete_eq. cbn.
      rewrite !bool_decide_eq_false_2; done. }
    destruct (decide (c = xy')) as [->|Hcxy'].
    { rewrite lookup_delete_ne, lookup_insert_eq by done. cbn.
      rewrite !bool_decide_eq_false_2; done. }
    rewrite lookup_delete_ne, lookup_insert_ne; [done|..]; by intros ?%toString_inj. }
  split; [|done]. by rewrite Hsame.
Qed.

End AreaExtras.

Section Layout.
Implicit Types (area : Area.t) (xy : Coordinates.t).

Local Abbreviation cell x y := (Coordinates.toString (Coordinates.mk (Z.of_nat x) (Z.of_nat y))).

Lemma addEntityOf_free xy tile area :
  Area.entities area !! Coordinates.toString xy = None →
  Area.addEntityOf xy tile area
  = (Ok tt,
     Area.mk (Area.width area) (Area.height area) (Area.allowDiagonalsInPaths area)
             (Area.pathfindingAlgorithm area)
             (Area.canvasGrid area ++ [(xy, tile)])
             (if decide (tile = Some Empty) then Area.entities area
              else <[Coordinates.toString xy := tile]> (Area.entities area))).
Proof.
  intros Hfree. unfold Area.addEntityOf, mbind, M_bind, getState.
  rewrite mapHas_string, bool_decide_eq_false_2 by (rewrite Hfree; by intros [? ?]).
  cbn. destruct (decide (tile = Some Empty)) as [->|Hne].
  - reflexivity.
  - destruct (decide (tile ≠ Some Empty)); [reflexivity|done].
Qed.

Lemma cell_inj x y x' y' : cell x y = cell x' y' → x = x' ∧ y = y'.
Proof. intros E%toString_inj. injection E. lia. Qed.

Lemma row_spec (y : nat) chars :
  ∀ (x0 : nat) area,
    (∀ x, (x0 ≤ x)%nat → Area.entities area !! cell x y = None) →
    ∃ area',
      forEachFrom (λ character x,
          Area.addEntityOf (Coordinates.mk (Z.of_nat x) (Z.of_nat y))
            (characterTiles !! character)) x0 chars area
      = (Ok tt, area')
      ∧ (∀ x, (x0 ≤ x)%nat →
           Area.entities area' !! cell x y
           = character ← chars !! (x - x0)%nat;
             if decide (characterTiles !! character = Some Empty) then None
             else Some (characterTiles !! character))
      ∧ (∀ key, (∀ x, (x0 ≤ x)%nat → key ≠ cell x y) →
           Area.entities area' !! key = Area.entities area !! key)
      ∧ (∀ key, is_Some (Area.entities area' !! key) →
           is_Some (Area.entities area !! key) ∨ ∃ x, key = cell x y).
Proof.
  induction chars as [|character chars IH]; intros x0 area Hfree.
  - exists area. split; [done|]. split; [|by split; [|left]].
    intros x Hx. rewrite Hfree by done. done.
  - cbn [forEachFrom]. unfold mbind at 1, M_bind at 1.
    rewrite addEntityOf_free by (apply Hfree; lia).
    set (area1 := Area.mk _ _ _ _ _ _).
    destruct (IH (S x0) area1) as (area' & Hrun & Hcells & Hframe & Hsupport).
    { intros x Hx. subst area1. cbn [Area.entities].
      destruct (decide _); [apply Hfree; lia|].
      rewrite lookup_insert_ne; [apply Hfree; lia|]. intros [? _]%cell_inj. lia. }
    exists area'. split; [done|]. split; [|split].
    + intros x Hx. destruct (decide (x = x0)) as [->|Hne].
      * rewrite Hframe by (intros x Hx' [? _]%cell_inj; lia).
        replace (x0 - x0)%nat with 0%nat by lia. cbn.
        subst area1. cbn [Area.entities].
        destruct (decide _); [apply Hfree; lia|]. by rewrite lookup_insert_eq.
      * rewrite Hcells by lia.
        replace (x - x0)%nat with (S (x - S x0)) by lia. done.
    + intros key Hkey. rewrite Hframe by (intros x Hx; apply Hkey; lia).
      subst area1. cbn [Area.entities]. destruct (decide _); [done|].
      rewrite lookup_insert_ne; [done|]. intros E. by apply (Hkey x0).
    + intros key Hsome. destruct (Hsupport key Hsome) as [Hold|?]; [|by right].
      subst area1. cbn [Area.entities] in Hold. destruct (decide _); [by left|].
      rewrite lookup_insert in Hold. case_decide as Hkey; [right; by exists x0|by left].
Qed.

Lemma rows_spec strings :
  ∀ (y0 : nat) area,
    (∀ x y, (y0 ≤ y)%nat → Area.entities area !! cell x y = None) →
    ∃ area',
      forEachFrom (λ string y,
          forEach (λ character x,
              Area.addEntityOf (Coordinates.mk (Z.of_nat x) (Z.of_nat y))
                (characterTiles !! character))
            (Area.characters string)) y0 strings area
      = (Ok tt, area')
      ∧ (∀ x y, (y0 ≤ y)%nat →
           Area.entities area' !! cell x y = layoutEntity strings x (y - y0))
      ∧ (∀ key, (∀ x y, (y0 ≤ y)%nat → key ≠ cell x y) →
           Area.entities area' !! key = Area.entities area !! key)
      ∧ (∀ key, is_Some (Area.entities area' !! key) →
           is_Some (Area.entities area !! key) ∨ ∃ x y, key = cell x y).
Proof.
  induction strings as [|string strings IH]; intros y0 area Hfree.
  - exists area. split; [done|]. split; [|by split; [|left]].
    intros x y Hy. rewrite Hfree by done. done.
  - cbn [forEachFrom]. unfold mbind at 1, M_bind at 1, forEach.
    destruct (row_spec y0 (Area.characters string) 0%nat area)
      as (area1 & -> & Hcells1 & Hframe1 & Hsupport1).
    { intros x _. by apply Hfree. }
    destruct (IH (S y0) area1) as (area' & Hrun & Hcells & Hframe & Hsupport).
    { intros x y Hy. rewrite Hframe1 by (intros x' _ [_ ?]%cell_inj; lia). apply Hfree. lia. }
    exists area'. split; [done|]. split; [|split].
    + intros x y Hy. destruct (decide (y = y0)) as [->|Hne].
      * rewrite Hframe by (intros x' y' Hy' [_ ?]%cell_inj; lia).
        rewrite Hcells1 by lia. unfold layoutEntity.
        replace (y0 - y0)%nat with 0%nat by lia. cbn.
        by replace (x - 0)%nat with x by lia.
      * rewrite Hcells by lia. unfold layoutEntity.
        replace (y - y0)%nat with (S (y - S y0)) by lia. done.
    + intros key Hkey. rewrite Hframe by (intros x y Hy; apply Hkey; lia).
      apply Hframe1. intros x _. by apply Hkey.
    + intros key Hsome. destruct (Hsupport key Hsome) as [Hold|?]; [|by right].
      destruct (Hsupport1 key Hold) as [?|[x ->]]; [by left|right; by exists x, y0].
Qed.

(** X11: a layout read into an area without entities can be read back:
    [addEntitiesFromStrings] returns normally, the key of cell [(x, y)] then
    holds the tile of the character at column [x] of row [y] (nothing for a
    space, nothing outside the layout), and no other key is present. *)
Theorem addEntitiesFromStrings_layout strings area :
  Area.entities area = ∅ →
  ∃ area',
    Area.addEntitiesFromStrings strings area = (Ok tt, area')
    ∧ (∀ x y : nat,
         Area.entities area' !! Coordinates.toString (Coordinates.mk (Z.of_nat x) (Z.of_nat y))
         = layoutEntity strings x y)
    ∧ (∀ key, is_Some (Area.entities area' !! key) →
         ∃ x y : nat, key = Coordinates.toString (Coordinates.mk (Z.of_nat x) (Z.of_nat y))).
Proof.
  intros Hempty. unfold Area.addEntitiesFromStrings, forEach.
  destruct (rows_spec strings 0%nat area) as (area' & Hrun & Hcells & _ & Hsupport).
  { intros x y _. by rewrite Hempty, lookup_empty. }
  exists area'. split; [done|]. split.
  - intros x y. rewrite Hcells by lia. by replace (y - 0)%nat with y by lia.
  - intros key Hsome. destruct (Hsupport key Hsome) as [Hold|?]; [|done].
    rewrite Hempty, lookup_empty in Hold. by destruct Hold.
Qed.

Lemma addEntityOf_occupied xy tile area :
  is_Some (Area.entities area !! Coordinates.toString xy) →
  Area.addEntityOf xy tile area = (Err occupancyConflict, area).
Proof.
  intros Hocc. unfold Area.addEntityOf, mbind, M_bind, getState.
  rewrite mapHas_string, bool_decide_eq_true_2 by done. reflexivity.
Qed.

Lemma row_outcome (y : nat) chars :
  ∀ (x0 : nat) area outcome area',
    forEachFrom (λ character x,
        Area.addEntityOf (Coordinates.mk (Z.of_nat x) (Z.of_nat y))
          (characterTiles !! character)) x0 chars area
    = (outcome, area') →
    (outcome = Ok tt ∨ outcome = Err occupancyConflict)
    ∧ (∀ key, is_Some (Area.entities area !! key) → is_Some (Area.entities area' !! key))
    ∧ (outcome = Ok tt →
       ∀ x, (x0 ≤ x < x0 + length chars)%nat → Area.entities area !! cell x y = None).
Proof.
  induction chars as [|character chars IH]; intros x0 area outcome area' Hrun.
  - cbn in Hrun. unfold mret, M_ret in Hrun. simplify_eq. split; [by left|]. split; [done|]. intros _ x Hx. cbn in Hx. lia.
  - cbn [forEachFrom] in Hrun. unfold mbind at 1, M_bind at 1 in Hrun.
    destruct (Area.entities area !! cell x0 y) as [entity|] eqn:Hcell.
    + rewrite addEntityOf_occupied in Hrun by (rewrite Hcell; by eexists).
      simplify_eq. split; [by right|]. split; [done|]. done.
    + rewrite addEntityOf_free in Hrun by done.
      apply IH in Hrun as (Hcases & Hgrows & Hfree).
      split; [done|]. split.
      * intros key Hsome. apply Hgrows. cbn [Area.entities].
        destruct (decide _); [done|]. rewrite lookup_insert. by case_decide.
      * intros Hok x Hx. cbn [length] in Hx. destruct (decide (x = x0)) as [->|Hne]; [done|].
        specialize (Hfree Hok x). cbn [Area.entities length] in Hfree.
        destruct (decide _); [apply Hfree; lia|].
        rewrite lookup_insert_ne in Hfree; [apply Hfree; lia|].
        intros [? _]%cell_inj. lia.
Qed.

Lemma rows_outcome strings :
  ∀ (y0 : nat) area outcome area',
    forEachFrom (λ string y,
        forEach (λ character x,
            Area.addEntityOf (Coordinates.mk (Z.of_nat x) (Z.of_nat y))
              (characterTiles !! character))
          (Area.characters string)) y0 strings area
    = (outcome, area') →
    (outcome = Ok tt ∨ outcome = Err occupancyConflict)
    ∧ (∀ key, is_Some (Area.entities area !! key) → is_Some (Area.entities area' !! key))
    ∧ (outcome = Ok tt →
       ∀ x y, (y0 ≤ y)%nat → is_Some (layoutCharacter strings x (y - y0)) →
              Area.entities area !! cell x y = None).
Proof.
  induction strings as [|string strings IH]; intros y0 area outcome area' Hrun.
  - cbn in Hrun. unfold mret, M_ret in Hrun. simplify_eq. split; [by left|]. split; [done|].
    intros _ x y _ [c Hc]. unfold layoutCharacter in Hc. by rewrite lookup_nil in Hc.
  - cbn [forEachFrom] in Hrun. unfold mbind at 1, M_bind at 1, forEach in Hrun.
    destruct (forEachFrom _ 0%nat (Area.characters string) area) as [outcome1 area1] eqn:Hrow.
    apply row_outcome in Hrow as (Hcases1 & Hgrows1 & Hfree1).
    destruct outcome1 as [[]|msg|].
    + apply IH in Hrun as (Hcases & Hgrows & Hfree).
      split; [done|]. split; [by intros key ?%Hgrows1%Hgrows|].
      intros Hok x y Hy Hchar. destruct (decide (y = y0)) as [->|Hne].
      * apply Hfree1; [done|]. replace (y0 - y0)%nat with 0%nat in Hchar by lia.
        unfold layoutCharacter in Hchar. cbn in Hchar.
        apply lookup_lt_is_Some in Hchar. lia.
      * destruct (Area.entities area !! cell x y) eqn:Hcell; [exfalso|done].
        assert (is_Some (Area.entities area1 !! cell x y)) as Hsome
          by (apply Hgrows1; rewrite Hcell; by eexists).
        rewrite (Hfree Hok x y) in Hsome; [by destruct Hsome|lia|].
        by replace (y - y0)%nat with (S (y - S y0)) in Hchar by lia.
    + simplify_eq. split; [done|]. split; [done|]. by destruct Hcases1.
    + by destruct Hcases1.
Qed.

(** X12: [addEntitiesFromStrings] throws the occupancy-conflict error as
    soon as a cell of the layout is already occupied, even where the layout
    has a space; what was there before is still there. *)
Theorem addEntitiesFromStrings_conflict strings area (x y : nat) :
  is_Some (layoutCharacter strings x y) →
  is_Some (Area.entities area
           !! Coordinates.toString (Coordinates.mk (Z.of_nat x) (Z.of_nat y))) →
  ∃ area',
    Area.addEntitiesFromStrings strings area = (Err occupancyConflict, area')
    ∧ ∀ key, is_Some (Area.entities area !! key) → is_Some (Area.entities area' !! key).
Proof.
  intros Hchar Hocc. unfold Area.addEntitiesFromStrings, forEach.
  destruct (forEachFrom _ 0%nat strings area) as [outcome area'] eqn:Hrun.
  apply rows_outcome in Hrun as (Hcases & Hgrows & Hfree).
  exists area'. split; [|done]. f_equal.
  destruct Hcases as [Hok| ->]; [exfalso|done].
  rewrite (Hfree Hok x y) in Hocc; [by destruct Hocc|lia|].
  by replace (y - 0)%nat with y by lia.
Qed.

End Layout.

Lemma addEntity_deleteEntity_round_trip_witness :
  ∃ area',
    (Area.addEntity (Coordinates.mk 0 0) Wall ;; Area.deleteEntity (Coordinates.mk 0 0))
      (Area.new 2 2) = (Ok tt, area')
    ∧ Area.entities area' = Area.entities (Area.new 2 2).
Proof.
  apply (addEntity_deleteEntity_round_trip (Area.new 2 2) (Coordinates.mk 0 0) Wall).
  reflexivity.
Defined.


Lemma moveEntity_stays_walkable_witness :
  let area := (Area.addEntity (Coordinates.mk 1 1) Agent (Area.new 2 2)).2 in
  let area' := (Area.moveEntity (Coordinates.mk 1 1) "left" area).2 in
  Area.isValidAgentPosition area' (Coordinates.mk 0 1) = true
  ∧ ∀ c, Area.isValidAgentPosition area' c = Area.isValidAgentPosition area c.
Proof.
  intros area area'.
  apply (moveEntity_stays_walkable area (Coordinates.mk 1 1) "left" (Coordinates.mk 0 1) area').
  - reflexivity.
  - reflexivity.
Defined.

Lemma addEntitiesFromStrings_layout_witness :
  ∃ area',
    Area.addEntitiesFromStrings ["# "; " O"] (Area.new 2 2) = (Ok tt, area')
    ∧ (∀ x y : nat,
         Area.entities area' !! Coordinates.toString (Coordinates.mk (Z.of_nat x) (Z.of_nat y))
         = layoutEntity ["# "; " O"] x y)
    ∧ (∀ key, is_Some (Area.entities area' !! key) →
         ∃ x y : nat, key = Coordinates.toString (Coordinates.mk (Z.of_nat x) (Z.of_nat y))).
Proof.
  apply (addEntitiesFromStrings_layout ["# "; " O"] (Area.new 2 2)). reflexivity.
Defined.

Lemma addEntitiesFromStrings_conflict_witness :
  let area := (Area.addEntity (Coordinates.mk 1 0) Enemy (Area.new 2 2)).2 in
  ∃ area',
    Area.addEntitiesFromStrings ["# "] area = (Err occupancyConflict, area')
    ∧ ∀ key, is_Some (Area.entities area !! key) → is_Some (Area.entities area' !! key).
Proof.
  intros area. apply (addEntitiesFromStrings_conflict ["# "] area 1 0).
  - exists " "%char. reflexivity.
  - exists (Some Enemy). reflexivity.
Defined.

(** ** Dijkstra's algorithm: what the path minimises *)

Section Found.
Context {number : Number} {laws : NumberLaws number}.
Variables (area : Area.t) (source destination : Coordinates.t).
Variable getHeuristic : Coordinates.t → num.
Hypothesis heuristic_admissible : admissible getHeuristic.

Implicit Types (cache : gmap string Coordinates.t) (cells path : list Coordinates.t).

Local Abbreviation cost := (walkCost getHeuristic).

(** The result between distinct cells joined by a route: the walk
    through the predecessors, whose cost is the distance of the
    destination, a least one. *)
Lemma findDijkstraPath_found fuel cache :
  cacheConsistent cache →
  (S (length (Area.gridCells area)) < fuel)%nat →
  source ≠ destination →
  route area source destination →
  ∃ path cache' search,
    Area.findDijkstraPath fuel area source destination getHeuristic cache = (Ok path, cache')
    ∧ consistent area source getHeuristic search
    ∧ traced (Area.previousDistances search)
        (Area.previousDistances search !! Coordinates.toString destination) path
    ∧ walk area source (rev path ++ [destination])
    ∧ ltb (cost zero (rev path ++ [destination])) infinity = true
    ∧ Area.distances search !! Coordinates.toString destination
      = Some (cost zero (rev path ++ [destination]))
    ∧ ∀ cells, walk area source cells → List.last cells source = destination →
               ltb (cost zero cells) (cost zero (rev path ++ [destination])) = false.
Proof.
  intros Hcache Hfuel Hne Hroute.
  destruct (findDijkstraPath_run area source destination getHeuristic heuristic_admissible
              (λ _, True) fuel cache)
    as (path & cache' & _ & Hrun
        & [(search & Hcons & Hrelaxed & _ & Hsel & Htraced) | [_ Hnode]]); [done..| |].
  - exists path, cache', search. split; [done|]. split; [done|]. split; [done|].
    destruct (selected_reached_finite area source getHeuristic search destination)
      as (d & Hd & Hfin); [done..|].
    assert (is_Some (Area.previousDistances search !! Coordinates.toString destination))
      as Hsome.
    { apply (finite_previous _ _ _ _ Hcons _ d); [done..|]. by intros ?%toString_inj. }
    destruct (traced_cost area source getHeuristic heuristic_admissible search destination path
                Hcons Hsome Htraced) as [Hwalk Hcost].
    assert (d = cost zero (rev path ++ [destination])) as -> by congruence.
    split; [done|]. split; [done|]. split; [done|].
    intros cells Hcells Hlast.
    apply (walk_bound area source getHeuristic heuristic_admissible search destination _
             Hcons Hrelaxed Hsel Hcost cells source zero zero Hcells Hlast
             (source_distance _ _ _ _ Hcons) (ltb_irreflexive zero)).
  - exfalso. apply Hnode. apply rtc_inv_r in Hroute as [->|(xy & _ & [_ Hvalid])]; [done|].
    by right.
Qed.

End Found.

Section Diagonal.
Variable area : Area.t.

Implicit Types (cells : list Coordinates.t) (from n : Coordinates.t).

Lemma passable_adjacent from n :
  passable area from n →
  Z.abs (Coordinates.x n - Coordinates.x from) ≤ 1
  ∧ Z.abs (Coordinates.y n - Coordinates.y from) ≤ 1.
Proof.
  intros [Hstep _]. unfold Coordinates.getNeighbours in Hstep.
  destruct (Area.allowDiagonalsInPaths area); cbn in Hstep;
    rewrite !elem_of_cons, elem_of_nil in Hstep;
    repeat destruct Hstep as [Hstep|Hstep]; try done; subst n; cbn; lia.
Qed.

(** A walk is at least as long as the Chebyshev distance it covers. *)
Lemma walk_chebyshev cells from :
  walk area from cells → chebyshev from (List.last cells from) ≤ Z.of_nat (length cells).
Proof.
  revert from. induction cells as [|n cells IH]; intros from Hwalk.
  - unfold chebyshev. cbn. lia.
  - destruct Hwalk as [Hstep Hwalk]. specialize (IH n Hwalk).
    rewrite last_cons_head. apply passable_adjacent in Hstep.
    unfold chebyshev in *. cbn [length]. lia.
Qed.

Hypothesis diagonals : Area.allowDiagonalsInPaths area = true.
Hypothesis obstacle_free : obstacleFree area.
Variables (source destination : Coordinates.t).
Hypothesis source_within : Area.areCoordinatesValid area source = true.
Hypothesis destination_within : Area.areCoordinatesValid area destination = true.

Local Abbreviation ax n := (Z.abs (Coordinates.x n - Coordinates.x destination)).
Local Abbreviation ay n := (Z.abs (Coordinates.y n - Coordinates.y destination)).
Local Abbreviation cell := (towards destination source).

Lemma towards_passable_diagonally mx my mx' my' :
  0 ≤ mx ≤ ax source → 0 ≤ my ≤ ay source → 0 ≤ mx' → 0 ≤ my' →
  mx - 1 ≤ mx' ≤ mx → my - 1 ≤ my' ≤ my → mx' + my' < mx + my →
  passable area (cell mx my) (cell mx' my').
Proof.
  intros Hmx Hmy Hmx' Hmy' Hx Hy Hless.
  split; [|apply (towards_within area); try done; lia].
  rewrite diagonals. unfold towards, Coordinates.getNeighbours.
  cbn [Coordinates.x Coordinates.y fmap list_fmap fst snd app]. rewrite !elem_of_cons.
  assert (mx' = mx - 1 ∨ mx' = mx) as Hcx by lia.
  assert (my' = my - 1 ∨ my' = my) as Hcy by lia.
  destruct (Z.sgn_spec (Coordinates.x source - Coordinates.x destination))
    as [[? ->]|[[? ->]|[? ->]]];
    destruct (Z.sgn_spec (Coordinates.y source - Coordinates.y destination))
      as [[? ->]|[[? ->]|[? ->]]];
    destruct Hcx as [-> | ->]; destruct Hcy as [-> | ->];
    first [ exfalso; lia
          | left; f_equal; lia
          | right; left; f_equal; lia
          | right; right; left; f_equal; lia
          | right; right; right; left; f_equal; lia
          | right; right; right; right; left; f_equal; lia
          | right; right; right; right; right; left; f_equal; lia
          | right; right; right; right; right; right; left; f_equal; lia
          | right; right; right; right; right; right; right; left; f_equal; lia ].
Qed.

(** With diagonal moves an open grid has a walk as long as the Chebyshev
    distance. *)
Lemma open_grid_walk_diagonally :
  ∃ cells,
    walk area source cells ∧ List.last cells source = destination
    ∧ Z.of_nat (length cells) = chebyshev source destination.
Proof.
  assert (∀ k mx my,
            Z.of_nat k = Z.max mx my → 0 ≤ mx ≤ ax source → 0 ≤ my ≤ ay source →
            ∃ cells, walk area (cell mx my) cells
                     ∧ List.last cells (cell mx my) = destination
                     ∧ length cells = k) as Hdescend.
  { induction k as [|k IH]; intros mx my Hk Hmx Hmy.
    - exists []. assert (mx = 0 ∧ my = 0) as [-> ->] by lia.
      split; [done|]. split; [|done]. by apply (towards_destination area).
    - destruct (IH (Z.max 0 (mx - 1)) (Z.max 0 (my - 1))) as (cells & Hwalk & Hlast & Hlen);
        [lia..|].
      exists (cell (Z.max 0 (mx - 1)) (Z.max 0 (my - 1)) :: cells).
      rewrite last_cons_head. split; [|split; [done|cbn; lia]].
      split; [|done]. apply towards_passable_diagonally; lia. }
  destruct (Hdescend (Z.to_nat (Z.max (ax source) (ay source))) (ax source) (ay source))
    as (cells & Hwalk & Hlast & Hlen); [lia..|].
  rewrite (towards_source area) in Hwalk, Hlast by done.
  exists cells. split; [done|]. split; [done|]. unfold chebyshev. lia.
Qed.

End Diagonal.

Section DijkstraExtras.
Context {number : Number} {laws : NumberLaws number}.

Implicit Types (area : Area.t) (cache : gmap string Coordinates.t)
  (cells path : list Coordinates.t).

(** X13: what [findDijkstraPath] minimises, for any heuristic with
    values in [[0, infinity)] and so for [findAStarPath] too: between
    distinct cells joined by a route, the path, reversed and completed by the
    destination, is a walk from the source whose accumulated cost (1 plus the
    heuristic for each cell entered) no walk from the source to the
    destination undercuts. *)
Theorem findDijkstraPath_least_cost area source destination getHeuristic fuel cache :
  admissible getHeuristic →
  cacheConsistent cache →
  (S (length (Area.gridCells area)) < fuel)%nat →
  source ≠ destination →
  route area source destination →
  ∃ path cache',
    Area.findDijkstraPath fuel area source destination getHeuristic cache = (Ok path, cache')
    ∧ walk area source (rev path ++ [destination])
    ∧ ∀ cells, walk area source cells → List.last cells source = destination →
               ltb (walkCost getHeuristic zero cells)
                   (walkCost getHeuristic zero (rev path ++ [destination])) = false.
Proof.
  intros Hadm Hcache Hfuel Hne Hroute.
  destruct (findDijkstraPath_found area source destination getHeuristic Hadm fuel cache)
    as (path & cache' & search & Hrun & _ & _ & Hwalk & _ & _ & Hleast); [done..|].
  by exists path, cache'.
Qed.

(** With the heuristic [constant(0)] a longer walk costs more. *)
Lemma walkCost_length (c : num) cells cells' :
  (length cells' < length cells)%nat →
  ltb (walkCost (constant zero) c cells) infinity = true →
  ltb (walkCost (constant zero) c cells') (walkCost (constant zero) c cells) = true.
Proof.
  revert c cells. induction cells' as [|q cells' IH]; intros c cells Hlen Hfin.
  - destruct cells as [|p cells]; [cbn in Hlen; lia|].
    rewrite walkCost_cons in *. cbn [walkCost foldl].
    assert (ltb c infinity = true) as Hc.
    { apply (ltb_le_lt _ (walkCost (constant zero) (add (add c one) (constant zero p)) cells));
        [|done].
      apply (ltb_negatively_transitive _ (add (add c one) (constant zero p))).
      - apply walkCost_grows, constant_zero_admissible.
      - apply step_nondecreasing, ltb_irreflexive. }
    apply (ltb_lt_le _ (add (add c one) (constant zero p))).
    + apply step_increase; [done|apply ltb_irreflexive].
    + apply walkCost_grows, constant_zero_admissible.
  - destruct cells as [|p cells]; [cbn in Hlen; lia|].
    rewrite !walkCost_cons in *. apply IH; [cbn in Hlen; lia|done].
Qed.

(** X14: with the default heuristic [constant(0)], [findDijkstraPath]
    returns a shortest route, on any grid, with or without diagonal moves:
    the path, reversed and completed by the destination, is a walk from the
    source, and no walk from the source to the destination has fewer
    cells. *)
Theorem findDijkstraPath_shortest area source destination fuel cache cells :
  cacheConsistent cache →
  (S (length (Area.gridCells area)) < fuel)%nat →
  source ≠ destination →
  walk area source cells →
  List.last cells source = destination →
  ∃ path cache',
    Area.findDijkstraPath fuel area source destination (constant zero) cache
    = (Ok path, cache')
    ∧ walk area source (rev path ++ [destination])
    ∧ (S (length path) ≤ length cells)%nat.
Proof.
  intros Hcache Hfuel Hne Hcells Hlast.
  pose proof (walk_route area source cells Hcells) as Hroute. rewrite Hlast in Hroute.
  destruct (findDijkstraPath_found area source destination (constant zero)
              constant_zero_admissible fuel cache)
    as (path & cache' & search & Hrun & _ & _ & Hwalk & Hfin & _ & Hleast); [done..|].
  exists path, cache'. split; [done|]. split; [done|].
  destruct (decide (S (length path) ≤ length cells)%nat) as [|Hlonger]; [done|exfalso].
  pose proof (walkCost_length zero (rev path ++ [destination]) cells) as Hless.
  rewrite (Hleast cells Hcells Hlast) in Hless.
  assert (false = true) as Hbad; [|done].
  apply Hless; [|done]. rewrite length_app, length_rev. cbn. lia.
Qed.

(** X15: when no route leads from the source to the destination (it is
    walled off, a wall itself, or outside the grid), the call returns the
    empty path. *)
Theorem findDijkstraPath_no_route area source destination getHeuristic fuel cache :
  admissible getHeuristic →
  cacheConsistent cache →
  (S (length (Area.gridCells area)) < fuel)%nat →
  ¬ route area source destination →
  ∃ cache',
    Area.findDijkstraPath fuel area source destination getHeuristic cache = (Ok [], cache').
Proof.
  intros Hadm Hcache Hfuel Hnone.
  destruct (findDijkstraPath_run area source destination getHeuristic Hadm
              (λ _, True) fuel cache)
    as (path & cache' & _ & Hrun
        & [(search & Hcons & Hrelaxed & _ & Hsel & Htraced) | [-> _]]);
    [done..| |by exists cache'].
  exists cache'. rewrite Hrun. do 2 f_equal.
  destruct (Area.previousDistances search !! Coordinates.toString destination)
    as [u|] eqn:Hprev.
  - exfalso. apply Hnone.
    destruct (traced_cost area source getHeuristic Hadm search destination path Hcons)
      as [Hwalk _]; [by rewrite Hprev|by rewrite Hprev|].
    apply walk_route in Hwalk. by rewrite List.last_last in Hwalk.
  - destruct path as [|p path]; [done|]. cbn [traced] in Htraced. by destruct Htraced.
Qed.

(** X16: between distinct cells joined by a route the empty path means
    one thing only: the path is empty exactly when the destination is a
    neighbour of the source. *)
Theorem findDijkstraPath_empty_iff_adjacent area source destination getHeuristic fuel cache :
  admissible getHeuristic →
  cacheConsistent cache →
  (S (length (Area.gridCells area)) < fuel)%nat →
  source ≠ destination →
  route area source destination →
  ∃ path cache',
    Area.findDijkstraPath fuel area source destination getHeuristic cache = (Ok path, cache')
    ∧ (path = [] ↔
       destination ∈ Coordinates.getNeighbours source (Area.allowDiagonalsInPaths area)).
Proof.
  intros Hadm Hcache Hfuel Hne Hroute.
  destruct (findDijkstraPath_found area source destination getHeuristic Hadm fuel cache)
    as (path & cache' & search & Hrun & Hcons & Htraced & Hwalk & Hfin & Hcost & Hleast);
    [done..|].
  exists path, cache'. split; [done|]. split.
  - intros ->. cbn in Hwalk. by destruct Hwalk as [[Hstep _] _].
  - intros Hstep. destruct path as [|p path]; [done|exfalso].
    assert (Area.isValidAgentPosition area destination = true) as Hvalid.
    { apply rtc_inv_r in Hroute as [->|(xy & _ & [_ Hvalid])]; done. }
    assert (walk area source [destination]) as Hdirect by (split; [by split|done]).
    pose proof (Hleast [destination] Hdirect eq_refl) as Hle.
    rewrite walkCost_snoc in Hle, Hfin. cbn [walkCost foldl] in Hle.
    destruct (Hadm destination) as [Hh0 Hhfin].
    assert (ltb (walkCost getHeuristic zero (rev (p :: path))) infinity = true) as Hfin'.
    { apply (ltb_le_lt _ (add (add (walkCost getHeuristic zero (rev (p :: path))) one)
                              (getHeuristic destination))); [|done].
      by apply step_nondecreasing. }
    rewrite step_lt in Hle; [done| |done].
    cbn [rev]. rewrite walkCost_snoc.
    destruct (Hadm p) as [Hp0 _].
    apply (ltb_le_lt _ (walkCost getHeuristic zero (rev path))).
    + by apply walkCost_grows.
    + apply step_increase; [|done].
      cbn [rev] in Hfin'. rewrite walkCost_snoc in Hfin'.
      apply (ltb_le_lt _ (add (add (walkCost getHeuristic zero (rev path)) one)
                              (getHeuristic p))); [|done].
      by apply step_nondecreasing.
Qed.

Lemma traced_NoDup area source getHeuristic search from path :
  admissible getHeuristic →
  consistent area source getHeuristic search →
  traced (Area.previousDistances search)
    (Area.previousDistances search !! Coordinates.toString from) path →
  NoDup path.
Proof.
  intros Hadm Hcons. revert from.
  induction path as [|p path IH]; intros from Htraced; [apply NoDup_nil_2|].
  cbn [traced] in Htraced. destruct Htraced as (Hprev & Hsome & Htraced).
  apply NoDup_cons. split; [|by apply (IH p)].
  intros Hin.
  destruct (previous_nearer area source getHeuristic Hadm search from p Hcons Hprev)
    as (_ & _ & _ & dp & _ & Hdp & _).
  destruct (traced_nearer area source getHeuristic Hadm search p dp path p Hcons Hdp Htraced Hin)
    as (d & Hd & Hlt).
  simplify_eq. by rewrite ltb_irreflexive in Hlt.
Qed.

(** X17: the call returns, and the path never holds a cell twice; it
    is no longer than the number of cells of the grid. *)
Theorem findDijkstraPath_simple_path area source destination getHeuristic fuel cache :
  admissible getHeuristic →
  cacheConsistent cache →
  (S (length (Area.gridCells area)) < fuel)%nat →
  ∃ path cache',
    Area.findDijkstraPath fuel area source destination getHeuristic cache = (Ok path, cache')
    ∧ NoDup path
    ∧ (length path ≤ length (Area.gridCells area))%nat.
Proof.
  intros Hadm Hcache Hfuel.
  destruct (findDijkstraPath_run area source destination getHeuristic Hadm
              (λ _, True) fuel cache)
    as (path & cache' & _ & Hrun
        & [(search & Hcons & Hrelaxed & _ & Hsel & Htraced) | [-> _]]); [done..| |].
  - exists path, cache'. split; [done|].
    pose proof (traced_NoDup area source getHeuristic search destination path
                  Hadm Hcons Htraced) as Hnodup.
    split; [done|].
    pose proof (traced_valid area source getHeuristic Hadm search _ _ Hcons Htraced) as Hall.
    apply submseteq_length, NoDup_submseteq; [done|].
    intros xy Hin. rewrite Forall_forall in Hall. destruct (Hall xy Hin) as [Hvalid _].
    by apply valid_in_gridCells, isValidAgentPosition_within.
  - exists [], cache'. split; [done|]. split; [apply NoDup_nil_2|cbn; lia].
Qed.

(** X18: on a grid without walls and with diagonal moves allowed,
    [findDijkstraPath] with [constant(0)] returns, between distinct cells of
    the grid, as many cells as the Chebyshev distance less one. *)
Theorem open_grid_diagonal_path_length area source destination fuel cache :
  Area.allowDiagonalsInPaths area = true →
  obstacleFree area →
  Area.areCoordinatesValid area source = true →
  Area.areCoordinatesValid area destination = true →
  source ≠ destination →
  cacheConsistent cache →
  (S (length (Area.gridCells area)) < fuel)%nat →
  ∃ path cache',
    Area.findDijkstraPath fuel area source destination (constant zero) cache
    = (Ok path, cache')
    ∧ Z.of_nat (length path) = chebyshev source destination - 1.
Proof.
  intros Hdiagonals Hopen Hsource Hdestination Hne Hcache Hfuel.
  destruct (open_grid_walk_diagonally area Hdiagonals Hopen source destination
              Hsource Hdestination) as (cells & Hcells & Hlast & Hlength).
  pose proof (walk_route area source cells Hcells) as Hroute. rewrite Hlast in Hroute.
  destruct (findDijkstraPath_found area source destination (constant zero)
              constant_zero_admissible fuel cache)
    as (path & cache' & search & Hrun & _ & _ & Hwalk & Hfin & _ & Hleast); [done..|].
  exists path, cache'. split; [done|].
  pose proof (walk_chebyshev area _ _ Hwalk) as Hlower.
  rewrite List.last_last, length_app, length_rev in Hlower. cbn [length] in Hlower.
  destruct (decide (S (length path) ≤ length cells)%nat) as [|Hlonger]; [lia|exfalso].
  pose proof (walkCost_length zero (rev path ++ [destination]) cells) as Hless.
  rewrite (Hleast cells Hcells Hlast) in Hless.
  assert (false = true) as Hbad; [|done].
  apply Hless; [|done]. rewrite length_app, length_rev. cbn. lia.
Qed.

End DijkstraExtras.

Lemma walledArea_route :
  route walledArea (Coordinates.mk 0 0) (Coordinates.mk 1 1).
Proof.
  apply (rtc_l _ _ (Coordinates.mk 1 0)); [|apply rtc_once]; split; try reflexivity.
  - vm_compute. apply list_elem_of_further, list_elem_of_further, list_elem_of_here.
  - vm_compute. do 3 apply list_elem_of_further. apply list_elem_of_here.
Qed.

Lemma findDijkstraPath_least_cost_witness :
  let heuristic := λ neighbour : Coordinates.t,
    Coordinates.magnitude (number := realInf) (euclidean := real_norm)
      (Coordinates.difference neighbour (Coordinates.mk 1 1)) in
  ∃ path cache',
    Area.findDijkstraPath (number := realInf) 10 walledArea
      (Coordinates.mk 0 0) (Coordinates.mk 1 1) heuristic ∅ = (Ok path, cache')
    ∧ walk walledArea (Coordinates.mk 0 0) (rev path ++ [Coordinates.mk 1 1])
    ∧ ∀ cells,
        walk walledArea (Coordinates.mk 0 0) cells →
        List.last cells (Coordinates.mk 0 0) = Coordinates.mk 1 1 →
        ltb (walkCost heuristic zero cells)
            (walkCost heuristic zero (rev path ++ [Coordinates.mk 1 1])) = false.
Proof.
  intros heuristic.
  apply (findDijkstraPath_least_cost (laws := realInf_laws) walledArea
           (Coordinates.mk 0 0) (Coordinates.mk 1 1) heuristic 10 ∅).
  - apply (magnitude_admissible (distances := real_norm_laws)).
  - apply cacheConsistent_empty.
  - vm_compute. lia.
  - discriminate.
  - apply walledArea_route.
Defined.

Lemma findDijkstraPath_shortest_witness :
  ∃ path cache',
    Area.findDijkstraPath (number := natInf) 10 walledArea
      (Coordinates.mk 0 0) (Coordinates.mk 1 1) (constant zero) ∅ = (Ok path, cache')
    ∧ walk walledArea (Coordinates.mk 0 0) (rev path ++ [Coordinates.mk 1 1])
    ∧ (S (length path) ≤ 2)%nat.
Proof.
  apply (findDijkstraPath_shortest (laws := natInf_laws) walledArea
           (Coordinates.mk 0 0) (Coordinates.mk 1 1) 10 ∅
           [Coordinates.mk 1 0; Coordinates.mk 1 1]).
  - apply cacheConsistent_empty.
  - vm_compute. lia.
  - discriminate.
  - repeat split; try reflexivity.
    + vm_compute. apply list_elem_of_further, list_elem_of_further, list_elem_of_here.
    + vm_compute. do 3 apply list_elem_of_further. apply list_elem_of_here.
  - reflexivity.
Defined.

Lemma findDijkstraPath_no_route_witness :
  ∃ cache',
    Area.findDijkstraPath (number := natInf) 10 (Area.new 2 2)
      (Coordinates.mk 0 0) (Coordinates.mk 5 5) (constant zero) ∅ = (Ok [], cache').
Proof.
  apply (findDijkstraPath_no_route (laws := natInf_laws) (Area.new 2 2)
           (Coordinates.mk 0 0) (Coordinates.mk 5 5) (constant zero) 10 ∅).
  - apply (constant_zero_admissible (laws := natInf_laws)).
  - apply cacheConsistent_empty.
  - vm_compute. lia.
  - intros Hroute. apply rtc_inv_r in Hroute as [E|(xy & _ & [_ Hvalid])]; discriminate.
Defined.

Lemma findDijkstraPath_empty_iff_adjacent_witness :
  ∃ path cache',
    Area.findDijkstraPath (number := natInf) 10 walledArea
      (Coordinates.mk 0 0) (Coordinates.mk 1 1) (constant zero) ∅ = (Ok path, cache')
    ∧ (path = [] ↔
       Coordinates.mk 1 1
       ∈ Coordinates.getNeighbours (Coordinates.mk 0 0)
           (Area.allowDiagonalsInPaths walledArea)).
Proof.
  apply (findDijkstraPath_empty_iff_adjacent (laws := natInf_laws) walledArea
           (Coordinates.mk 0 0) (Coordinates.mk 1 1) (constant zero) 10 ∅).
  - apply (constant_zero_admissible (laws := natInf_laws)).
  - apply cacheConsistent_empty.
  - vm_compute. lia.
  - discriminate.
  - apply walledArea_route.
Defined.

Lemma findDijkstraPath_simple_path_witness :
  ∃ path cache',
    Area.findDijkstraPath (number := natInf) 10 walledArea
      (Coordinates.mk 0 0) (Coordinates.mk 1 1) (constant zero) ∅ = (Ok path, cache')
    ∧ NoDup path
    ∧ (length path ≤ length (Area.gridCells walledArea))%nat.
Proof.
  apply (findDijkstraPath_simple_path (laws := natInf_laws) walledArea
           (Coordinates.mk 0 0) (Coordinates.mk 1 1) (constant zero) 10 ∅).
  - apply (constant_zero_admissible (laws := natInf_laws)).
  - apply cacheConsistent_empty.
  - vm_compute. lia.
Defined.

Lemma obstacleFree_empty area : Area.entities area = ∅ → obstacleFree area.
Proof.
  intros Hempty xy Hvalid. unfold Area.isValidAgentPosition. rewrite Hvalid.
  unfold Area.entityAt. cbn [mapGet]. by rewrite Hempty, lookup_empty.
Qed.

Lemma open_grid_diagonal_path_length_witness :
  ∃ path cache',
    Area.findDijkstraPath (number := natInf) 27
      (Area.setAllowDiagonalsInPaths true (Area.new 5 5))
      (Coordinates.mk 0 0) (Coordinates.mk 4 4) (constant zero) ∅ = (Ok path, cache')
    ∧ Z.of_nat (length path) = 3.
Proof.
  apply (open_grid_diagonal_path_length (laws := natInf_laws)
           (Area.setAllowDiagonalsInPaths true (Area.new 5 5))
           (Coordinates.mk 0 0) (Coordinates.mk 4 4) 27 ∅).
  - reflexivity.
  - by apply obstacleFree_empty.
  - reflexivity.
  - reflexivity.
  - discriminate.
  - apply cacheConsistent_empty.
  - vm_compute. lia.
Defined.

(** ** Depth-first search: what a path found means *)

Section DepthFirst.
Variables (area : Area.t) (source destination : Coordinates.t).
Variable sortNeighbours : list Coordinates.t → list Coordinates.t.
Hypothesis sortNeighbours_selects : ∀ xs xy, xy ∈ sortNeighbours xs → xy ∈ xs.

Implicit Types (trail : Area.Trail) (path : list Coordinates.t) (n : Coordinates.t).

Local Abbreviation search fuel n :=
  (Area.findDepthFirstPath fuel area n destination sortNeighbours).
Local Abbreviation good := (navigable area source destination).
Local Abbreviation shaped := (trailed area source destination).

Lemma firstPath_found (visit : Coordinates.t → M Area.Trail (list Coordinates.t))
    neighbours trail path trail' :
  Area.firstPath visit neighbours trail = (Ok path, trail') →
  path ≠ [] →
  ∃ n trail1 trail1', n ∈ neighbours ∧ visit n trail1 = (Ok path, trail1').
Proof.
  revert trail. induction neighbours as [|n ns IH]; intros trail.
  - cbn. by intros [= <- _].
  - cbn [Area.firstPath]. unfold mbind, M_bind.
    destruct (visit n trail) as [[found| |] trail1] eqn:Hn; [|done..].
    destruct (negb _) eqn:Hfound.
    + intros [= <- <-] _. exists n, trail, trail1. split; [apply list_elem_of_here|done].
    + intros Hrest Hne. destruct (IH _ Hrest Hne) as (m & t & t' & Hm & Hvisit).
      exists m, t, t'. split; [by apply list_elem_of_further|done].
Qed.

(** A path that is not empty comes from a recursion that reached the
    destination along passable moves. *)
Lemma findDepthFirstPath_route fuel n trail path trail' :
  search fuel n trail = (Ok path, trail') → path ≠ [] → route area n destination.
Proof.
  revert n trail path trail'.
  induction fuel as [|fuel IH]; intros n trail path trail'; [done|].
  cbn [Area.findDepthFirstPath]. unfold mbind, M_bind, modifyState, getState, mret, M_ret.
  cbn [fst snd].
  destruct (Coordinates.equals n destination) eqn:Hequal.
  { apply equals_true in Hequal as ->. intros _ _. apply rtc_refl. }
  cbn [Area.visitedNodes Area.navigated].
  destruct (length _ =? 0)%nat; [by intros [= <- _]|].
  intros Hrun Hne.
  destruct (firstPath_found _ _ _ _ _ Hrun Hne) as (m & t & t' & Hm & Hvisit).
  apply sortNeighbours_selects, list_elem_of_In, filter_In in Hm as [Hm Hvalid].
  apply andb_true_iff in Hvalid as [Hvalid _].
  apply (rtc_l _ _ m); [|by apply (IH m t path t')].
  split; [by apply list_elem_of_In|done].
Qed.

Lemma trailed_push navigated n : shaped navigated → good n → shaped (navigated ++ [n]).
Proof.
  destruct navigated as [|first rest]; [by intros _ ?; split; [right|]|].
  intros [Hfirst Hrest] Hn. split; [done|]. apply Forall_app. by split; [|apply Forall_singleton].
Qed.

Lemma trailed_arrive navigated :
  shaped navigated →
  Forall good (removelast (tail (navigated ++ [destination]))).
Proof.
  destruct navigated as [|first rest]; [by intros _; cbn|].
  intros [_ Hrest]. cbn [app tail]. by rewrite removelast_last.
Qed.

Lemma Forall_trailed navigated : Forall good navigated → shaped navigated.
Proof. destruct navigated as [|first rest]; [done|]. intros [? ?]%Forall_cons. by split; [right|]. Qed.

Lemma firstPath_trailed (holds : Area.Trail → Prop)
    (visit : Coordinates.t → M Area.Trail (list Coordinates.t)) neighbours trail path trail' :
  (∀ n trail path trail', n ∈ neighbours → holds trail →
     visit n trail = (Ok path, trail') → holds trail' ∧ Forall good path) →
  holds trail →
  Area.firstPath visit neighbours trail = (Ok path, trail') →
  holds trail' ∧ Forall good path.
Proof.
  revert trail. induction neighbours as [|n ns IH]; intros trail Hvisit Hholds.
  - cbn. by intros [= <- <-].
  - cbn [Area.firstPath]. unfold mbind, M_bind.
    destruct (visit n trail) as [[found| |] trail1] eqn:Hn; [|done..].
    destruct (Hvisit n trail found trail1) as [Hholds1 Hfound];
      [apply list_elem_of_here|done..|].
    destruct (negb _); [by intros [= <- <-]|].
    apply IH; [|done]. intros m t p t' Hm. apply Hvisit. by apply list_elem_of_further.
Qed.

Lemma findDepthFirstPath_trailed fuel n trail path trail' :
  shaped (Area.navigated trail) →
  n = destination ∨ good n →
  Coordinates.toString source ∈ Area.visitedNodes trail →
  search fuel n trail = (Ok path, trail') →
  (shaped (Area.navigated trail')
   ∧ Coordinates.toString source ∈ Area.visitedNodes trail')
  ∧ Forall good path.
Proof.
  revert n trail path trail'.
  induction fuel as [|fuel IH]; intros n trail path trail' Htrail Hn Hsource; [done|].
  cbn [Area.findDepthFirstPath]. unfold mbind, M_bind, modifyState, getState, mret, M_ret.
  cbn [fst snd].
  destruct (Coordinates.equals n destination) eqn:Hequal.
  { apply equals_true in Hequal as ->. cbn [Area.visitedNodes Area.navigated].
    intros [= <- <-]. cbn [Area.visitedNodes Area.navigated].
    pose proof (trailed_arrive _ Htrail) as Hgood.
    split; [split; [by apply Forall_trailed|done]|done]. }
  apply equals_false in Hequal. destruct Hn as [->|Hn]; [done|].
  cbn [Area.visitedNodes Area.navigated].
  destruct (length _ =? 0)%nat.
  { intros [= <- <-]. cbn [Area.visitedNodes Area.navigated].
    split; [split; [by apply trailed_push|set_solver]|done]. }
  apply (firstPath_trailed
           (λ trail, shaped (Area.navigated trail)
                     ∧ Coordinates.toString source ∈ Area.visitedNodes trail)).
  - intros m t p t' Hm [Ht Hs] Hvisit.
    apply sortNeighbours_selects, list_elem_of_In, filter_In in Hm as [_ Hm].
    apply andb_true_iff in Hm as [Hvalid Hfresh].
    apply negb_true_iff, bool_decide_eq_false in Hfresh.
    apply (IH m t p t'); [done| |done..].
    destruct (decide (m = destination)) as [|Hmd]; [by left|right].
    split; [done|]. split; [|done]. intros ->. apply Hfresh. set_solver.
  - cbn [Area.visitedNodes Area.navigated]. split; [by apply trailed_push|set_solver].
Qed.

End DepthFirst.

Section DepthFirstExtras.

(** X19: a path returned by either depth-first search that is not
    empty tells the truth about reachability: a route leads from the source
    to the destination, and every cell of the path is a valid agent position
    other than the two endpoints. *)
Theorem findDepthFirstPath_sound {number : Number} {euclidean : Euclidean number}
    area source destination fuel path trail :
  (Area.findDepthFirstPath fuel area source destination identity Area.freshTrail
   = (Ok path, trail)
   ∨ Area.findDepthFirstPathDirectionally fuel area source destination Area.freshTrail
     = (Ok path, trail)) →
  path ≠ [] →
  route area source destination
  ∧ Forall (λ xy, Area.isValidAgentPosition area xy = true
                  ∧ xy ≠ source ∧ xy ≠ destination) path.
Proof.
  assert (∀ sortNeighbours,
            (∀ xs xy, xy ∈ sortNeighbours xs → xy ∈ xs) →
            Area.findDepthFirstPath fuel area source destination sortNeighbours Area.freshTrail
            = (Ok path, trail) →
            path ≠ [] →
            route area source destination
            ∧ Forall (navigable area source destination) path) as Hany.
  { intros sortNeighbours Hsort Hrun Hne. split.
    - by apply (findDepthFirstPath_route area destination sortNeighbours Hsort
                  fuel source Area.freshTrail path trail).
    - destruct fuel as [|fuel']; [done|].
      revert Hrun. cbn [Area.findDepthFirstPath].
      unfold mbind, M_bind, modifyState, getState, mret, M_ret. cbn [fst snd].
      destruct (Coordinates.equals source destination).
      { cbn. by intros [= <- _]. }
      cbn [Area.visitedNodes Area.navigated Area.freshTrail].
      destruct (length _ =? 0)%nat; [by intros [= <- _]|].
      intros Hrun.
      apply (firstPath_trailed area source destination
               (λ trail, trailed area source destination (Area.navigated trail)
                         ∧ Coordinates.toString source ∈ Area.visitedNodes trail))
        in Hrun as [_ Hgood]; [done| |].
      + intros m t p t' Hm [Ht Hs] Hvisit.
        apply Hsort, list_elem_of_In, filter_In in Hm as [_ Hm].
        apply andb_true_iff in Hm as [Hvalid Hfresh].
        apply negb_true_iff, bool_decide_eq_false in Hfresh.
        apply (findDepthFirstPath_trailed area source destination sortNeighbours Hsort
                 fuel' m t p t'); [done| |done..].
        destruct (decide (m = destination)) as [|Hmd]; [by left|right].
        split; [done|]. split; [|done]. intros ->. apply Hfresh.
        cbn [Area.visitedNodes]. set_solver.
      + cbn [Area.visitedNodes Area.navigated]. split; [by split; [left|]|set_solver]. }
  intros [Hrun|Hrun] Hne.
  - by apply (Hany identity).
  - apply (Hany (sortBy (Area.compareDeltas destination))); [|done..].
    intros xs xy. by rewrite elem_of_sortBy.
Qed.

End DepthFirstExtras.

Lemma findDepthFirstPath_sound_witness :
  route walledArea (Coordinates.mk 0 0) (Coordinates.mk 1 1)
  ∧ Forall (λ xy, Area.isValidAgentPosition walledArea xy = true
                  ∧ xy ≠ Coordinates.mk 0 0 ∧ xy ≠ Coordinates.mk 1 1)
      [Coordinates.mk 1 0].
Proof.
  apply (findDepthFirstPath_sound (number := float64) (euclidean := float64_norm) walledArea
           (Coordinates.mk 0 0) (Coordinates.mk 1 1) 10 [Coordinates.mk 1 0]
           (Area.findDepthFirstPath 10 walledArea (Coordinates.mk 0 0) (Coordinates.mk 1 1)
              identity Area.freshTrail).2).
  - left. vm_compute. reflexivity.
  - discriminate.
Defined.

(** ** The listeners and the level changes *)

Section MainExtras.
Import Main.

(** X20: a click on a tile addresses that tile: for whole-pixel
    positions, any point of the rectangle [drawTile] fills for a cell is
    mapped back to the cell by the [mousedown] listener. *)
Theorem clickedCell_of_tile (xy : Coordinates.t) (baseX baseY offsetLeft offsetTop : Z) :
  let '(tileLeft, tileTop, tileWidth, tileHeight) := CanvasGrid.tileRectangle xy in
  offsetLeft + tileLeft ≤ baseX < offsetLeft + tileLeft + tileWidth →
  offsetTop + tileTop ≤ baseY < offsetTop + tileTop + tileHeight →
  clickedCell baseX baseY offsetLeft offsetTop = xy.
Proof.
  destruct xy as [cx cy]. unfold CanvasGrid.tileRectangle, clickedCell, CanvasGrid.cellWidth, CanvasGrid.cellHeight.
  cbn [Coordinates.x Coordinates.y]. intros Hx Hy. f_equal.
  - symmetry. apply (Z.div_unique_pos _ 20 cx (baseX - offsetLeft - 20 * cx)); lia.
  - symmetry. apply (Z.div_unique_pos _ 20 cy (baseY - offsetTop - 20 * cy)); lia.
Qed.

Lemma entityUiNames_cases uiName :
  entityUiNames !! uiName = None
  ∨ (uiName = "Wall" ∧ entityUiNames !! uiName = Some Wall)
  ∨ (uiName = "Empty" ∧ entityUiNames !! uiName = Some Empty)
  ∨ (uiName = "Enemy" ∧ entityUiNames !! uiName = Some Enemy)
  ∨ (uiName = "Destination (Move)" ∧ entityUiNames !! uiName = Some Destination)
  ∨ (uiName = "Agent (Move)" ∧ entityUiNames !! uiName = Some Agent).
Proof.
  unfold entityUiNames. rewrite !lookup_insert, lookup_empty.
  repeat case_decide; subst; tauto.
Qed.

Lemma withArea_deleteEntity xy game :
  withArea (Area.deleteEntity xy) game
  = (Ok tt,
     mkGame
       (Area.mk (Area.width (area game)) (Area.height (area game))
          (Area.allowDiagonalsInPaths (area game)) (Area.pathfindingAlgorithm (area game))
          (Area.canvasGrid (area game) ++ [(xy, Some Empty)])
          (delete (Coordinates.toString xy) (Area.entities (area game))))
       (agentPosition game) (enemyPositions game) (destinationPosition game)
       (path game) (status game) (inPursuit game) (coordinatesCache game)).
Proof. reflexivity. Qed.

Lemma withArea_addEntityOf xy entityType game :
  Area.entities (area game) !! Coordinates.toString xy = None →
  ∃ game',
    withArea (Area.addEntityOf xy entityType) game = (Ok tt, game')
    ∧ Area.entities (area game') !! Coordinates.toString xy
      = (if decide (entityType = Some Empty) then None else Some entityType)
    ∧ (∀ key, key ≠ Coordinates.toString xy →
              Area.entities (area game') !! key = Area.entities (area game) !! key)
    ∧ agentPosition game' = agentPosition game
    ∧ destinationPosition game' = destinationPosition game
    ∧ enemyPositions game' = enemyPositions game.
Proof.
  intros Hfree. unfold withArea, zoom. rewrite (addEntityOf_free _ _ _ Hfree).
  eexists. split; [reflexivity|]. cbn [area Area.entities].
  destruct (decide (entityType = Some Empty)).
  - rewrite Hfree. done.
  - rewrite lookup_insert_eq. split; [done|].
    split; [|done]. intros key Hne. by rewrite lookup_insert_ne.
Qed.

(** X21: the [mousedown] listener never throws, whatever the cell
    held: afterwards the key of the cell holds the kind selected, is absent
    for [Empty], and is present with the value [undefined] for a name
    without a kind; every other key still present held the same before, a
    moved agent or destination is recorded at the cell, and an enemy is
    appended to [enemyPositions], from which nothing is ever removed. *)
Theorem onMouseDown_places (uiName : string) (xy : Coordinates.t) (game : Game) :
  let entityType := entityUiNames !! uiName in
  ∃ game',
    onMouseDown uiName xy game = (Ok tt, game')
    ∧ Area.entities (area game') !! Coordinates.toString xy
      = (if decide (entityType = Some Empty) then None else Some entityType)
    ∧ (∀ key entity,
         key ≠ Coordinates.toString xy →
         Area.entities (area game') !! key = Some entity →
         Area.entities (area game) !! key = Some entity)
    ∧ agentPosition game' = (if decide (entityType = Some Agent) then xy else agentPosition game)
    ∧ destinationPosition game'
      = (if decide (entityType = Some Destination) then xy else destinationPosition game)
    ∧ enemyPositions game'
      = enemyPositions game ++ (if decide (entityType = Some Enemy) then [Some xy] else []).
Proof.
  intros entityType. unfold onMouseDown. fold entityType.
  unfold mbind at 1, M_bind at 1. rewrite withArea_deleteEntity.
  set (game1 := mkGame _ _ _ _ _ _ _ _).
  assert (Area.entities (area game1) !! Coordinates.toString xy = None) as Hfree1
    by apply lookup_delete_eq.
  assert (∀ other key entity,
            delete other (Area.entities (area game1)) !! key = Some entity →
            Area.entities (area game) !! key = Some entity) as Hsub.
  { intros other key entity. cbn [area game1 Area.entities]. rewrite !lookup_delete.
    destruct (decide (other = key)); [discriminate|].
    destruct (decide (Coordinates.toString xy = key)); [discriminate|tauto]. }
  assert (∀ key entity,
            Area.entities (area game1) !! key = Some entity →
            Area.entities (area game) !! key = Some entity) as Hsub1.
  { intros key entity. cbn [area game1 Area.entities]. rewrite lookup_delete.
    destruct (decide (Coordinates.toString xy = key)); [discriminate|tauto]. }
  unfold mbind at 1, M_bind at 1.
  destruct (entityUiNames_cases uiName)
    as [Hname|[[_ Hname]|[[_ Hname]|[[_ Hname]|[[_ Hname]|[_ Hname]]]]]];
    unfold entityType in *; rewrite Hname in *.
  - destruct (withArea_addEntityOf xy None game1 Hfree1)
      as (game' & Hrun & Hat & Hframe & Ha & Hd & He).
    exists game'. unfold mret, M_ret. rewrite Hrun. split; [done|]. split; [done|].
    split; [intros key entity Hne; rewrite Hframe by done; apply Hsub1|].
    rewrite Ha, Hd, He. cbn. by rewrite app_nil_r.
  - destruct (withArea_addEntityOf xy (Some Wall) game1 Hfree1)
      as (game' & Hrun & Hat & Hframe & Ha & Hd & He).
    exists game'. unfold mret, M_ret. rewrite Hrun. split; [done|]. split; [done|].
    split; [intros key entity Hne; rewrite Hframe by done; apply Hsub1|].
    rewrite Ha, Hd, He. cbn. by rewrite app_nil_r.
  - destruct (withArea_addEntityOf xy (Some Empty) game1 Hfree1)
      as (game' & Hrun & Hat & Hframe & Ha & Hd & He).
    exists game'. unfold mret, M_ret. rewrite Hrun. split; [done|]. split; [done|].
    split; [intros key entity Hne; rewrite Hframe by done; apply Hsub1|].
    rewrite Ha, Hd, He. cbn. by rewrite app_nil_r.
  - destruct (withArea_addEntityOf xy (Some Enemy) (pushEnemyPosition xy game1) Hfree1)
      as (game' & Hrun & Hat & Hframe & Ha & Hd & He).
    exists game'. unfold modifyState. rewrite Hrun. split; [done|]. split; [done|].
    split; [intros key entity Hne; rewrite Hframe by done; apply Hsub1|].
    rewrite Ha, Hd, He. done.
  - unfold mbind, M_bind, getState, modifyState. rewrite withArea_deleteEntity.
    match goal with
    | |- ∃ game', withArea _ ?game2 = _ ∧ _ =>
        destruct (withArea_addEntityOf xy (Some Destination) game2)
          as (game' & Hrun & Hat & Hframe & Ha & Hd & He)
    end.
    { cbn [area setDestinationPosition Area.entities]. rewrite lookup_delete.
      destruct (decide _); [done|]. apply lookup_delete_eq. }
    exists game'. rewrite Hrun. split; [done|]. split; [done|].
    split; [|by rewrite Ha, Hd, He, app_nil_r].
    intros key entity Hne. rewrite Hframe by done. apply Hsub.
  - unfold mbind, M_bind, getState, modifyState. rewrite withArea_deleteEntity.
    match goal with
    | |- ∃ game', withArea _ ?game2 = _ ∧ _ =>
        destruct (withArea_addEntityOf xy (Some Agent) game2)
          as (game' & Hrun & Hat & Hframe & Ha & Hd & He)
    end.
    { cbn [area setAgentPosition Area.entities]. rewrite lookup_delete.
      destruct (decide _); [done|]. apply lookup_delete_eq. }
    exists game'. rewrite Hrun. split; [done|]. split; [done|].
    split; [|by rewrite Ha, Hd, He, app_nil_r].
    intros key entity Hne. rewrite Hframe by done. apply Hsub.
Qed.

End MainExtras.

Section HandlerExtras.
Import Main.

Implicit Types (game : Game).

Lemma sameBoard_refl game : sameBoard game game.
Proof. by repeat split. Qed.

Lemma sameBoard_trans game1 game2 game3 :
  sameBoard game1 game2 → sameBoard game2 game3 → sameBoard game1 game3.
Proof. unfold sameBoard. intros (?&?&?&?&?&?&?&?) (?&?&?&?&?&?&?&?). repeat split; congruence. Qed.

Lemma forEachFrom_drawTile {A} (tile : option EntityType) (cell : A → Coordinates.t)
    (xs : list A) index game :
  ∃ game',
    forEachFrom (λ x _, withArea (Area.drawTile (cell x) tile)) index xs game = (Ok tt, game')
    ∧ sameBoard game game'
    ∧ path game' = path game ∧ status game' = status game
    ∧ inPursuit game' = inPursuit game ∧ coordinatesCache game' = coordinatesCache game.
Proof.
  revert index game. induction xs as [|x xs IH]; intros index game.
  - exists game. split; [done|]. split; [apply sameBoard_refl|done].
  - cbn [forEachFrom]. unfold mbind at 1, M_bind at 1.
    set (game1 := (withArea (Area.drawTile (cell x) tile) game).2).
    change (withArea (Area.drawTile (cell x) tile) game) with (Ok tt, game1).
    destruct (IH (S index) game1) as (game' & Hrun & Hboard & Hpath & Hstatus & Hpursuit & Hcache).
    exists game'. split; [done|]. split; [|done].
    apply (sameBoard_trans _ game1); [by repeat split|done].
Qed.

Lemma forEachElement_drawTile (tile : option EntityType) (xs : list (option Coordinates.t))
    game :
  ∃ game',
    forEachElement (λ position _, withArea (Area.drawTile position tile)) xs game
    = (Ok tt, game')
    ∧ sameBoard game game'
    ∧ path game' = path game ∧ status game' = status game
    ∧ inPursuit game' = inPursuit game ∧ coordinatesCache game' = coordinatesCache game.
Proof.
  unfold forEachElement, forEach. generalize 0%nat as index. revert game.
  induction xs as [|x xs IH]; intros game index.
  - exists game. split; [done|]. split; [apply sameBoard_refl|done].
  - cbn [forEachFrom]. unfold mbind at 1, M_bind at 1. destruct x as [position|].
    + set (game1 := (withArea (Area.drawTile position tile) game).2).
      change (withArea (Area.drawTile position tile) game) with (Ok tt, game1).
      destruct (IH game1 (S index))
        as (game' & Hrun & Hboard & Hpath & Hstatus & Hpursuit & Hcache).
      exists game'. split; [done|]. split; [|done].
      apply (sameBoard_trans _ game1); [by repeat split|done].
    + apply IH.
Qed.

(** [ensurePathIsCleared] forgets the path and only draws. *)
Lemma ensurePathIsCleared_board game :
  ∃ game',
    ensurePathIsCleared game = (Ok tt, game')
    ∧ sameBoard game game'
    ∧ path game' = None ∧ status game' = status game
    ∧ inPursuit game' = inPursuit game ∧ coordinatesCache game' = coordinatesCache game.
Proof.
  unfold ensurePathIsCleared. unfold mbind at 1, M_bind at 1, getState.
  unfold mbind at 1, M_bind at 1.
  destruct (path game) as [cells|] eqn:Hpath.
  - unfold mbind at 1, M_bind at 1, forEach.
    destruct (forEachFrom_drawTile (Some Empty) (λ xy : Coordinates.t, xy) cells 0%nat game)
      as (game1 & -> & Hboard1 & _ & Hstatus1 & Hpursuit1 & Hcache1).
    unfold modifyState, mbind, M_bind.
    destruct (forEachElement_drawTile (Some Enemy) (enemyPositions (setPath None game1))
                (setPath None game1))
      as (game' & -> & Hboard & Hpath' & Hstatus & Hpursuit & Hcache).
    exists game'. split; [done|]. split.
    + apply (sameBoard_trans _ game1); [done|].
      apply (sameBoard_trans _ (setPath None game1)); [by repeat split|done].
    + rewrite Hpath', Hstatus, Hpursuit, Hcache. cbn. by rewrite Hstatus1, Hpursuit1, Hcache1.
  - unfold mret, M_ret, mbind, M_bind.
    destruct (forEachElement_drawTile (Some Enemy) (enemyPositions game) game)
      as (game' & -> & Hboard & Hpath' & Hstatus & Hpursuit & Hcache).
    exists game'. split; [done|]. split; [done|]. by rewrite Hpath', Hpath.
Qed.

Lemma withCache_board {A} (m : M (gmap string Coordinates.t) A) game outcome game' :
  withCache m game = (outcome, game') → sameBoard game game'.
Proof.
  unfold withCache, zoom. destruct (m _) as [r cache]. intros [= _ <-]. by repeat split.
Qed.

(** X22: a pathfinding request only draws: whatever the outcome, the
    grid, its entities and the recorded positions are as before (provided
    [alert] leaves them alone); and for an algorithm name other than the four
    it throws [Error: invalid pathfinding algorithm selected: <name>]. *)
Theorem onPathfindingRequest_keeps_board (alert : string → M Game unit) fuel game outcome game' :
  (∀ message game outcome game',
     alert message game = (outcome, game') → sameBoard game game') →
  onPathfindingRequest alert fuel game = (outcome, game') →
  sameBoard game game'
  ∧ (Area.pathfindingAlgorithm (area game)
     ∉ ["Random Depth-First"; "Directional Depth-First"; "Djikstra's Algorithm"; "A*"] →
     outcome = Err ("Error: invalid pathfinding algorithm selected: "
                    +:+ Area.pathfindingAlgorithm (area game))).
Proof.
  intros Halert. unfold onPathfindingRequest.
  unfold mbind at 1, M_bind at 1.
  destruct (ensurePathIsCleared_board game) as (game1 & -> & Hboard1 & _).
  assert (Area.pathfindingAlgorithm (area game1) = Area.pathfindingAlgorithm (area game))
    as Halgorithm by apply Hboard1.
  unfold mbind at 1, M_bind at 1, getState. rewrite Halgorithm.
  set (algorithm := Area.pathfindingAlgorithm (area game)).
  unfold mbind at 1, M_bind at 1.
  match goal with
  | |- context [match ?search game1 with _ => _ end] =>
      destruct (search game1) as [found game2] eqn:Hsearch
  end.
  assert (sameBoard game1 game2
          ∧ (algorithm ∉ ["Random Depth-First"; "Directional Depth-First";
                          "Djikstra's Algorithm"; "A*"] →
             found = Err ("Error: invalid pathfinding algorithm selected: " +:+ algorithm)))
    as [Hboard2 Hinvalid].
  { revert Hsearch. rewrite !elem_of_cons, elem_of_nil.
    destruct (String.eqb_spec algorithm "Random Depth-First").
    { unfold withFreshTrail. intros [= _ <-]. split; [apply sameBoard_refl|tauto]. }
    destruct (String.eqb_spec algorithm "Directional Depth-First").
    { unfold withFreshTrail. intros [= _ <-]. split; [apply sameBoard_refl|tauto]. }
    destruct (String.eqb_spec algorithm "Djikstra's Algorithm").
    { intros ?%withCache_board. split; [done|tauto]. }
    destruct (String.eqb_spec algorithm "A*").
    { intros ?%withCache_board. split; [done|tauto]. }
    unfold fail. intros [= <- <-]. split; [apply sameBoard_refl|done]. }
  destruct found as [cells|message|].
  - unfold mbind, M_bind, modifyState.
    destruct (length cells =? 0)%nat.
    + intros Hrun. split.
      * apply (sameBoard_trans _ game1); [done|]. apply (sameBoard_trans _ game2); [done|].
        apply (sameBoard_trans _ (setPath (Some cells) game2)); [by repeat split|].
        by apply (Halert _ _ _ _ Hrun).
      * intros Hno. by specialize (Hinvalid Hno).
    + unfold forEach.
      destruct (forEachFrom_drawTile (Some Navigated) (λ xy : Coordinates.t, xy) cells 0%nat
                  (setPath (Some cells) game2)) as (game3 & -> & Hboard3 & _).
      intros [= <- <-]. split.
      * apply (sameBoard_trans _ game1); [done|]. apply (sameBoard_trans _ game2); [done|].
        apply (sameBoard_trans _ (setPath (Some cells) game2)); [by repeat split|done].
      * intros Hno. by specialize (Hinvalid Hno).
  - intros [= <- <-]. split; [by apply (sameBoard_trans _ game1)|].
    intros Hno. specialize (Hinvalid Hno). by injection Hinvalid as ->.
  - intros [= <- <-]. split; [by apply (sameBoard_trans _ game1)|].
    intros Hno. by specialize (Hinvalid Hno).
Qed.

Lemma pursue_idle (onDeath : M Game unit) fuel position index game :
  Coordinates.equals position (agentPosition game) = false →
  Coordinates.withinProximity (agentPosition game) enemyDetectionProximity position = false →
  pursue onDeath fuel position index game = (Ok tt, game).
Proof.
  intros Hequals Hfar. unfold pursue, mbind, M_bind, getState. by rewrite Hequals, Hfar.
Qed.

(** X23: enemies out of range stand still: when no enemy is on the
    agent's cell or within the detection radius, a directional input makes
    one [moveEntity] call for the agent on an area with the same entities,
    leaves [enemyPositions] and the destination as they were, clears the
    path, sets the status to [Normal], and ends with the arrival check. *)
Theorem onDirectionalInput_out_of_range (onDeath onDestinationArrival : M Game unit)
    fuel direction game :
  (∀ position,
     Some position ∈ enemyPositions game →
     Coordinates.equals position (agentPosition game) = false
     ∧ Coordinates.withinProximity (agentPosition game) enemyDetectionProximity position
       = false) →
  direction ∈ ["left"; "right"; "up"; "down"] →
  ∃ cleared game',
    onDirectionalInput onDeath onDestinationArrival fuel direction game
    = (if Coordinates.equals (agentPosition game') (destinationPosition game')
       then onDestinationArrival else mret tt) game'
    ∧ Area.entities cleared = Area.entities (area game)
    ∧ Area.width cleared = Area.width (area game)
    ∧ Area.height cleared = Area.height (area game)
    ∧ Area.moveEntity (agentPosition game) direction cleared
      = (Ok (agentPosition game'), area game')
    ∧ enemyPositions game' = enemyPositions game
    ∧ destinationPosition game' = destinationPosition game
    ∧ status game' = "Normal"
    ∧ path game' = None.
Proof.
  intros Hfar Hdirection. unfold onDirectionalInput.
  unfold mbind at 1, M_bind at 1, modifyState.
  unfold mbind at 1, M_bind at 1.
  destruct (ensurePathIsCleared_board (setInPursuit false game))
    as (game1 & -> & Hboard1 & Hpath1 & Hstatus1 & Hpursuit1 & Hcache1).
  destruct Hboard1 as (Hwidth & Hheight & Hdiagonals & Halgorithm & Hentities
                       & Hagent & Henemies & Hdestination).
  cbn [setInPursuit area agentPosition enemyPositions destinationPosition inPursuit]
    in Hwidth, Hheight, Hentities, Hagent, Henemies, Hdestination, Hpursuit1.
  unfold mbind at 1, M_bind at 1, getState.
  unfold mbind at 1, M_bind at 1.
  assert (∀ xs index,
            (∀ position, Some position ∈ xs → Some position ∈ enemyPositions game) →
            forEachFrom
              (λ x index, match x with
                          | Some x => pursue onDeath fuel x index
                          | None => mret tt
                          end) index xs game1 = (Ok tt, game1)) as Hidle.
  { induction xs as [|x xs IH]; intros index Hsub; [done|].
    cbn [forEachFrom]. unfold mbind at 1, M_bind at 1.
    assert (match x with
            | Some x => pursue onDeath fuel x index
            | None => mret tt
            end game1 = (Ok tt, game1)) as ->.
    { destruct x as [position|]; [|done].
      destruct (Hfar position) as [Hequals Hproximity]; [apply Hsub, list_elem_of_here|].
      apply pursue_idle; by rewrite Hagent. }
    apply IH. intros position Hin. by apply Hsub, list_elem_of_further. }
  unfold forEachElement, forEach. rewrite Hidle by (rewrite Henemies; tauto).
  destruct (move_recognised (agentPosition game1) direction (area game1) Hdirection)
    as (target & Hmove & _).
  pose proof (moveEntity_eq (area game1) (agentPosition game1) direction target Hmove) as Hrun.
  cbv zeta in Hrun.
  destruct (Area.moveEntity (agentPosition game1) direction (area game1))
    as [outcome area'] eqn:Hmoved.
  assert (∃ xy, outcome = Ok xy) as [xy ->].
  { destruct (Area.isValidAgentPosition (area game1) target); injection Hrun as -> _; eauto. }
  clear Hrun.
  unfold mbind, M_bind, getState, modifyState, withArea, zoom.
  cbn [setStatus setAgentPosition agentPosition destinationPosition area enemyPositions path
       status inPursuit coordinatesCache].
  rewrite Hmoved.
  cbn [setStatus setAgentPosition agentPosition destinationPosition area enemyPositions path
       status inPursuit coordinatesCache].
  rewrite Hpursuit1.
  eexists (area game1),
    (mkGame area' xy (enemyPositions game1) (destinationPosition game1) (path game1)
       "Normal" false (coordinatesCache game1)).
  cbn [agentPosition destinationPosition area enemyPositions path status].
  split; [reflexivity|]. rewrite <- Hagent. done.
Qed.

End HandlerExtras.

Section LevelExtras.
Import Main.

Local Instance loaded_dec level game : Decision (loaded level game).
Proof. unfold loaded. apply _. Defined.


Lemma resetArea_loads (selectedAlgorithm : string) (game : Game) (index : nat) :
  (index < 4)%nat →
  ∃ level game',
    resetArea selectedAlgorithm index game = (Ok tt, game')
    ∧ levels !! index = Some level
    ∧ loaded level game'.
Proof.
  intros Hindex.
  assert (∀ level,
            levels !! index = Some level →
            bool_decide (loaded level (resetArea selectedAlgorithm index game).2)
            && match (resetArea selectedAlgorithm index game).1 with
               | Ok _ => true
               | _ => false
               end = true →
            ∃ level game',
              resetArea selectedAlgorithm index game = (Ok tt, game')
              ∧ levels !! index = Some level ∧ loaded level game') as Hcheck.
  { intros level Hlevel [Hloaded Hok]%andb_true_iff. apply bool_decide_eq_true in Hloaded.
    exists level, (resetArea selectedAlgorithm index game).2.
    destruct (resetArea selectedAlgorithm index game) as [[[]| |] game']; done. }
  destruct index as [|[|[|[|index]]]]; [..|lia];
    (eapply Hcheck; [reflexivity|vm_compute; reflexivity]).
Qed.

(** X24: every level change loads a level: from any index at or above
    the initial -1, [changeLevel] returns normally with the next index
    (after the last level, 0), and the level at that index is in place: the
    agent, the destination and the enemies at their positions, each on a
    valid agent position of the 30×20 grid, with the status [Normal].  No
    level of the program trips the occupancy check. *)
Theorem changeLevel_loads (selectedAlgorithm : string) (currentLevelIndex : Z) (game : Game) :
  -1 ≤ currentLevelIndex →
  ∃ index level game',
    changeLevel selectedAlgorithm currentLevelIndex game = (Ok index, game')
    ∧ index = (if 3 <=? currentLevelIndex then 0 else currentLevelIndex + 1)
    ∧ levels !! Z.to_nat index = Some level
    ∧ loaded level game'.
Proof.
  intros Hindex. unfold changeLevel. cbn zeta.
  change (Z.of_nat (length levels)) with 4.
  replace (4 <=? currentLevelIndex + 1) with (3 <=? currentLevelIndex)
    by (destruct (Z.leb_spec 3 currentLevelIndex), (Z.leb_spec 4 (currentLevelIndex + 1)); lia).
  set (index := if 3 <=? currentLevelIndex then 0 else currentLevelIndex + 1).
  assert (0 ≤ index < 4) as Hrange
    by (unfold index; destruct (Z.leb_spec 3 currentLevelIndex); lia).
  destruct (resetArea_loads selectedAlgorithm game (Z.to_nat index))
    as (level & game' & Hrun & Hlevel & Hloaded); [lia|].
  exists index, level, game'. unfold mbind, M_bind. rewrite Hrun. done.
Qed.

End LevelExtras.

Lemma clickedCell_of_tile_witness :
  Main.clickedCell 75 50 8 8 = Coordinates.mk 3 2.
Proof.
  apply (clickedCell_of_tile (Coordinates.mk 3 2) 75 50 8 8);
    vm_compute; (split; [discriminate|reflexivity]).
Defined.

Lemma onPathfindingRequest_keeps_board_witness :
  let run := Main.onPathfindingRequest (λ _, mret tt) 10 blockedByDestination in
  sameBoard blockedByDestination run.2
  ∧ (Area.pathfindingAlgorithm (Main.area blockedByDestination)
     ∉ ["Random Depth-First"; "Directional Depth-First"; "Djikstra's Algorithm"; "A*"] →
     run.1 = Err ("Error: invalid pathfinding algorithm selected: "
                  +:+ Area.pathfindingAlgorithm (Main.area blockedByDestination))).
Proof.
  intros run.
  apply (onPathfindingRequest_keeps_board (λ _, mret tt) 10 blockedByDestination run.1 run.2).
  - intros message game outcome game' [= _ <-]. apply sameBoard_refl.
  - apply surjective_pairing.
Defined.

Lemma onDirectionalInput_out_of_range_witness :
  let game :=
    Main.mkGame
      (Area.addEntity (Coordinates.mk 39 0) Enemy
         (Area.addEntity (Coordinates.mk 0 0) Agent (Area.new 40 2)).2).2
      (Coordinates.mk 0 0) [Some (Coordinates.mk 39 0)] (Coordinates.mk 5 1)
      None "Normal" false ∅ in
  ∃ cleared game',
    Main.onDirectionalInput (mret tt) (mret tt) 10 "right" game
    = (if Coordinates.equals (Main.agentPosition game') (Main.destinationPosition game')
       then mret tt else mret tt : M Main.Game unit) game'
    ∧ Area.entities cleared = Area.entities (Main.area game)
    ∧ Area.width cleared = Area.width (Main.area game)
    ∧ Area.height cleared = Area.height (Main.area game)
    ∧ Area.moveEntity (Main.agentPosition game) "right" cleared
      = (Ok (Main.agentPosition game'), Main.area game')
    ∧ Main.enemyPositions game' = Main.enemyPositions game
    ∧ Main.destinationPosition game' = Main.destinationPosition game
    ∧ Main.status game' = "Normal"
    ∧ Main.path game' = None.
Proof.
  intros game.
  apply (onDirectionalInput_out_of_range (mret tt) (mret tt) 10 "right" game).
  - intros position Hin. apply list_elem_of_singleton in Hin. injection Hin as ->.
    split; vm_compute; reflexivity.
  - apply list_elem_of_further, list_elem_of_here.
Defined.

Lemma changeLevel_loads_witness :
  ∃ index level game',
    Main.changeLevel "A*" (-1) blockedByEnemy = (Ok index, game')
    ∧ index = 0
    ∧ levels !! Z.to_nat index = Some level
    ∧ loaded level game'.
Proof.
  apply (changeLevel_loads "A*" (-1) blockedByEnemy). lia.
Defined.
